(** * Mesh planarisation and flatness (compas.datastructures.mesh.algorithms.planarisation)

    A shallow embedding of [mesh_flatness], [mesh_planarize] and
    [mesh_planarize_shapeop].  Python floats are kept abstract (a scalar type
    [F]); the geometry functions imported from [compas.geometry] are the fields
    of a kernel class; the mesh is an ordered dictionary of vertices and faces;
    exceptions are the left summand of [result]; the in-place mutation of the
    mesh is explicit state passing; callback invocations are logged. *)

From Stdlib Require Import ZArith List String QArith Reals Lra Lia.
From Stdlib Require Floats Uint63.
From stdpp Require Import base gmap sets list strings.

Local Open Scope Z_scope.


(** ** Exceptions and fallible results *)

Inductive exn : Type :=
| KeyError (key : Z)
| IndexError
| ZeroDivisionError
| TypeError
| ImportError
| Exception (msg : string)
| DegenerateInputError
| EmptyInputError
| ZeroLengthError
| UserError (code : Z).

(** [inl e]: the computation raised [e]; [inr a]: it returned [a]. *)
Definition result (A : Type) : Type := (exn + A)%type.

Definition bind {A B : Type} (r : result A) (k : A -> result B) : result B :=
  match r with
  | inl e => inl e
  | inr a => k a
  end.

Notation "x <- e ;; k" := (bind e (fun x => k))
  (at level 100, e at next level, right associativity).

Fixpoint mapM {A B : Type} (f : A -> result B) (l : list A) : result (list B) :=
  match l with
  | [] => inr []
  | a :: l' => b <- f a ;; bs <- mapM f l' ;; inr (b :: bs)
  end.

(** ** Data model *)

Definition Point (F : Type) : Type := (F * F * F)%type.
Definition Vector (F : Type) : Type := (F * F * F)%type.
(** A plane is the pair [(base, normal)] that [bestfit_plane_from_points] returns. *)
Definition Plane (F : Type) : Type := (Point F * Vector F)%type.

(** Modelled from the spec: the Mesh class is not part of the sources at hand.
    Section 3 and 6 of the specification give a set of vertex keys with a
    mutable position each and a set of face keys with an ordered list of vertex
    keys each.  Both are Python dictionaries: association lists in insertion
    order, read by key (first match). *)
Record Mesh (F : Type) : Type := mkMesh {
  vertex : list (Z * Point F);
  face : list (Z * list Z)
}.
Arguments mkMesh {F} _ _.
Arguments vertex {F} _.
Arguments face {F} _.

Fixpoint assoc {V : Type} (key : Z) (d : list (Z * V)) : option V :=
  match d with
  | [] => None
  | (k, v) :: d' => if Z.eqb k key then Some v else assoc key d'
  end.

(** [d[key]] on a dictionary. *)
Definition getitem {V : Type} (d : list (Z * V)) (key : Z) : result V :=
  match assoc key d with
  | Some v => inr v
  | None => inl (KeyError key)
  end.

Section MeshAccessor.
Context {F : Type}.

(** Modelled from the spec: [Mesh.vertices], the enumeration of the vertex
    keys (section 6, a). *)
Definition vertices (mesh : Mesh F) : list Z := map fst (vertex mesh).

(** Modelled from the spec: [Mesh.faces], the enumeration of the face keys
    (section 6, b). *)
Definition faces (mesh : Mesh F) : list Z := map fst (face mesh).

(** Modelled from the spec: [Mesh.face_vertices], the ordered vertex keys of a
    face (section 6, c). *)
Definition face_vertices (mesh : Mesh F) (fkey : Z) : result (list Z) :=
  getitem (face mesh) fkey.

(** Modelled from the spec: [Mesh.vertex_coordinates], the position of a
    vertex (section 6, d). *)
Definition vertex_coordinates (mesh : Mesh F) (key : Z) : result (Point F) :=
  getitem (vertex mesh) key.

(** Modelled from the spec: [Mesh.face_coordinates], the ordered corner
    positions of a face (section 4.2, step 1): the positions of its vertices,
    in the order of [face_vertices]. *)
Definition face_coordinates (mesh : Mesh F) (fkey : Z) : result (list (Point F)) :=
  keys <- face_vertices mesh fkey ;; mapM (vertex_coordinates mesh) keys.

(** The keys of a dictionary are unique. *)
Definition unique_vertex_keys (mesh : Mesh F) : Prop := NoDup (vertices mesh).
End MeshAccessor.

(** ** The geometry kernel used by the planarisation

    [compas.geometry] is not part of the sources at hand; the three functions
    [mesh_planarize] imports from it are the fields of this class. *)
Class Geometry (F : Type) : Type := {
  bestfit_plane_from_points : list (Point F) -> result (Plane F);
  project_points_plane : list (Point F) -> Plane F -> result (list (Point F));
  centroid_points : list (Point F) -> result (Point F)
}.

(** ** Callbacks

    The [callback] argument is an arbitrary Python object: [None], or an object
    with a truth value that may or may not be callable.  A call receives the
    mesh, the iteration index and [callback_args]; it may mutate the mesh and
    it may raise. *)
Inductive PyObject (F A : Type) : Type :=
| PyNone
| PyObj (truth : bool) (call : option (Mesh F -> Z -> A -> Mesh F * result unit)).
Arguments PyNone {F A}.
Arguments PyObj {F A} _ _.

Definition truthy {F A : Type} (o : PyObject F A) : bool :=
  match o with
  | PyNone => false
  | PyObj truth _ => truth
  end.

Definition callable {F A : Type} (o : PyObject F A) : bool :=
  match o with
  | PyObj _ (Some _) => true
  | _ => false
  end.

(** [o(mesh, k, callback_args)]; calling what is not callable is a [TypeError]. *)
Definition invoke {F A : Type} (o : PyObject F A) (mesh : Mesh F) (k : Z) (args : A)
  : Mesh F * result unit :=
  match o with
  | PyObj _ (Some f) => f mesh k args
  | _ => (mesh, inl TypeError)
  end.

(** [if callback: if not callable(callback): raise Exception(...)] *)
Definition check_callback {F A : Type} (callback : PyObject F A) : result unit :=
  if truthy callback then
    if callable callback then inr tt
    else inl (Exception "The callback is not callable."%string)
  else inr tt.

(** The log of callback invocations: the index and the mesh handed over. *)
Definition Log (F : Type) : Type := list (Z * Mesh F).

(** [fixed = fixed or []; fixed = set(fixed)] *)
Definition fixed_set (fixed : option (list Z)) : gset Z :=
  list_to_set (default [] fixed).

(** ** mesh_planarize *)

Section Planarize.
Context {F : Type} {G : Geometry F}.

(** [key_xyz = {key: [] for key in mesh.vertices()}] *)
Definition empty_buckets (mesh : Mesh F) : gmap Z (list (Point F)) :=
  list_to_map (map (fun key => (key, [])) (vertices mesh)).

Definition bucket (key_xyz : gmap Z (list (Point F))) (key : Z) : result (list (Point F)) :=
  match key_xyz !! key with
  | Some b => inr b
  | None => inl (KeyError key)
  end.

Definition list_get {A : Type} (l : list A) (index : nat) : result A :=
  match l !! index with
  | Some a => inr a
  | None => inl IndexError
  end.

(** [for index, key in enumerate(mesh.face_vertices(fkey)):
       key_xyz[key].append(projections[index])] *)
Fixpoint append_projections (projections : list (Point F)) (index : nat)
    (keys : list Z) (key_xyz : gmap Z (list (Point F)))
  : result (gmap Z (list (Point F))) :=
  match keys with
  | [] => inr key_xyz
  | key :: keys' =>
      b <- bucket key_xyz key ;;
      p <- list_get projections index ;;
      append_projections projections (S index) keys' (<[key := b ++ [p]]> key_xyz)
  end.

(** The body of [for fkey in mesh.faces()]. *)
Definition project_face (mesh : Mesh F) (fkey : Z) (key_xyz : gmap Z (list (Point F)))
  : result (gmap Z (list (Point F))) :=
  points <- face_coordinates mesh fkey ;;
  plane <- bestfit_plane_from_points points ;;
  projections <- project_points_plane points plane ;;
  keys <- face_vertices mesh fkey ;;
  append_projections projections 0 keys key_xyz.

Fixpoint project_faces (mesh : Mesh F) (fkeys : list Z) (key_xyz : gmap Z (list (Point F)))
  : result (gmap Z (list (Point F))) :=
  match fkeys with
  | [] => inr key_xyz
  | fkey :: fkeys' =>
      key_xyz' <- project_face mesh fkey key_xyz ;;
      project_faces mesh fkeys' key_xyz'
  end.

(** [for key, attr in mesh.vertices(data=True)]: the attributes of the
    vertices already visited have been overwritten when a later vertex
    raises. *)
Fixpoint update_vertices (fixed : gset Z) (key_xyz : gmap Z (list (Point F)))
    (vs : list (Z * Point F)) : list (Z * Point F) * result unit :=
  match vs with
  | [] => ([], inr tt)
  | (key, attr) :: vs' =>
      if decide (key ∈ fixed) then
        let '(vs'', r) := update_vertices fixed key_xyz vs' in ((key, attr) :: vs'', r)
      else
        match bucket key_xyz key with
        | inl e => ((key, attr) :: vs', inl e)
        | inr b =>
            match centroid_points b with
            | inl e => ((key, attr) :: vs', inl e)
            | inr xyz =>
                let '(vs'', r) := update_vertices fixed key_xyz vs' in
                ((key, xyz) :: vs'', r)
            end
        end
  end.

(** One pass of the loop body, up to the callback. *)
Definition planarize_iteration (fixed : gset Z) (mesh : Mesh F) : Mesh F * result unit :=
  match project_faces mesh (faces mesh) (empty_buckets mesh) with
  | inl e => (mesh, inl e)
  | inr key_xyz =>
      let '(vs, r) := update_vertices fixed key_xyz (vertex mesh) in
      (mkMesh vs (face mesh), r)
  end.

Section Loop.
Context {A : Type}.

(** [for k in range(kmax)], with [n] iterations left and [k] the next index. *)
Fixpoint planarize_loop (fixed : gset Z) (callback : PyObject F A) (callback_args : A)
    (n : nat) (k : Z) (mesh : Mesh F) : Mesh F * Log F * result unit :=
  match n with
  | O => (mesh, [], inr tt)
  | S n' =>
      match planarize_iteration fixed mesh with
      | (mesh1, inl e) => (mesh1, [], inl e)
      | (mesh1, inr _) =>
          if truthy callback then
            match invoke callback mesh1 k callback_args with
            | (mesh2, inl e) => (mesh2, [(k, mesh1)], inl e)
            | (mesh2, inr _) =>
                let '(mesh3, log, r) :=
                  planarize_loop fixed callback callback_args n' (k + 1) mesh2 in
                (mesh3, (k, mesh1) :: log, r)
            end
          else planarize_loop fixed callback callback_args n' (k + 1) mesh1
      end
  end.

Definition mesh_planarize (mesh : Mesh F) (fixed : option (list Z)) (kmax : Z) (d : F)
    (callback : PyObject F A) (callback_args : A) : Mesh F * Log F * result unit :=
  match check_callback callback with
  | inl e => (mesh, [], inl e)
  | inr _ =>
      planarize_loop (fixed_set fixed) callback callback_args (Z.to_nat kmax) 0 mesh
  end.
End Loop.
End Planarize.

(** ** mesh_planarize_shapeop *)

Section ShapeOp.
Context {F A : Type}.

(** [from compas.interop import shapeop]: the import may raise; when it
    succeeds [shapeop.planarize_mesh] is the external solver, which mutates
    the mesh it is given and may raise. *)
Definition Solver : Type := Mesh F -> gset Z -> Z -> Mesh F * result unit.

Definition mesh_planarize_shapeop (shapeop : result Solver)
    (mesh : Mesh F) (fixed : option (list Z)) (kmax : Z) (d : F)
    (callback : PyObject F A) (callback_args : A) : Mesh F * Log F * result unit :=
  match shapeop with
  | inl e => (mesh, [], inl e)
  | inr planarize_mesh =>
      match check_callback callback with
      | inl e => (mesh, [], inl e)
      | inr _ =>
          let '(mesh', r) := planarize_mesh mesh (fixed_set fixed) kmax in
          (mesh', [], r)
      end
  end.
End ShapeOp.

(** ** mesh_flatness *)

(** The float operations [mesh_flatness] itself performs: the literals [0] and
    [-1] (integers, converted on use), [>], the additions of [sum] and one
    division.  [le] is the [<=] the specification words the comparison with. *)
Class Scalar (F : Type) : Type := {
  of_int : Z -> F;
  add : F -> F -> F;
  div : F -> F -> F;
  gt : F -> F -> bool;
  le : F -> F -> bool
}.

(** The vector functions [mesh_flatness] imports from [compas.geometry]. *)
Class VectorKernel (F : Type) : Type := {
  subtract_vectors : Vector F -> Vector F -> Vector F;
  cross_vectors : Vector F -> Vector F -> Vector F;
  dot_vectors : Vector F -> Vector F -> F;
  scale_vector : Vector F -> F -> Vector F;
  angle_smallest_vectors : Vector F -> Vector F -> result F
}.

(** Modelled from the spec: [compas.utilities.window] is not part of the
    sources at hand.  [window(seq, 3)] slides a window of width three over the
    sequence, which is what section 4.2 calls the consecutive corner triples. *)
Fixpoint window3 {A : Type} (l : list A) : list (A * A * A) :=
  match l with
  | [] => []
  | a :: l' =>
      match l' with
      | b :: c :: _ => (a, b, c) :: window3 l'
      | _ => []
      end
  end.

(** The corner a triple is taken at: its middle point [b]. *)
Definition middle {A : Type} (t : A * A * A) : A := t.1.2.

Section Flatness.
Context {F : Type} {G : Geometry F} {Sc : Scalar F} {V : VectorKernel F}.

(** The body of [for a, b, c in window(...)]. *)
Definition corner_angle (normal : Vector F) (t : Point F * Point F * Point F) : result F :=
  let '(a, b, c) := t in
  let u := subtract_vectors a b in
  let v := subtract_vectors c b in
  let n := cross_vectors u v in
  if gt (dot_vectors n normal) (of_int 0) then
    angle_smallest_vectors n normal
  else
    angle_smallest_vectors n (scale_vector normal (of_int (-1))).

(** [sum(angles)] *)
Definition sum (angles : list F) : F := fold_left add angles (of_int 0).

(** [sum(angles) / len(angles)] *)
Definition mean (angles : list F) : result F :=
  match length angles with
  | O => inl ZeroDivisionError
  | n => inr (div (sum angles) (of_int (Z.of_nat n)))
  end.

(** The body of [for fkey in mesh.faces()], from the corner coordinates on. *)
Definition face_deviation (points : list (Point F)) : result F :=
  plane <- bestfit_plane_from_points points ;;
  let '(base, normal) := plane in
  angles <- mapM (corner_angle normal) (window3 (points ++ take 2 points)) ;;
  mean angles.

Fixpoint flatness_loop (mesh : Mesh F) (fkeys : list Z) (dev : gmap Z F) : result (gmap Z F) :=
  match fkeys with
  | [] => inr dev
  | fkey :: fkeys' =>
      points <- face_coordinates mesh fkey ;;
      deviation <- face_deviation points ;;
      flatness_loop mesh fkeys' (<[fkey := deviation]> dev)
  end.

Definition mesh_flatness (mesh : Mesh F) : result (gmap Z F) :=
  flatness_loop mesh (faces mesh) ∅.

(** *** The flatness of a face in the words of the specification *)

(** The triple at corner [i]: corners [i], [i+1] and [i+2], indices taken
    modulo the number of corners. *)
Definition cyclic_triple (points : list (Point F)) (i : nat)
  : option (Point F * Point F * Point F) :=
  let n := length points in
  match points !! i, points !! ((i + 1) mod n)%nat, points !! ((i + 2) mod n)%nat with
  | Some a, Some b, Some c => Some (a, b, c)
  | _, _, _ => None
  end.

Definition cyclic_triples (points : list (Point F)) : list (Point F * Point F * Point F) :=
  omap (cyclic_triple points) (seq 0 (length points)).

(** Step 3 and 4: the local normal, compared with the best-fit normal, the
    latter negated when the dot product is [<= 0]. *)
Definition spec_corner_angle (normal : Vector F) (t : Point F * Point F * Point F) : result F :=
  let '(a, b, c) := t in
  let n := cross_vectors (subtract_vectors a b) (subtract_vectors c b) in
  angle_smallest_vectors n
    (if le (dot_vectors n normal) (of_int 0) then scale_vector normal (of_int (-1)) else normal).

(** Step 5: the arithmetic mean of the per-triple angles. *)
Definition spec_face_deviation (points : list (Point F)) : result F :=
  plane <- bestfit_plane_from_points points ;;
  angles <- mapM (spec_corner_angle (snd plane)) (cyclic_triples points) ;;
  match length points with
  | O => inl ZeroDivisionError
  | n => inr (div (sum angles) (of_int (Z.of_nat n)))
  end.
End Flatness.

Section FlatnessOfMesh.
Context {F : Type} {G : Geometry F} {Sc : Scalar F} {V : VectorKernel F}.

(** Section 4.2 for the whole mesh: for each face, in the order of the
    faces, the corner positions from the mesh and the deviation of step 5;
    the result maps each face key to the deviation of its face. *)
Definition spec_mesh_flatness (mesh : Mesh F) : result (gmap Z F) :=
  entries <- mapM (fun fkey =>
                     points <- face_coordinates mesh fkey ;;
                     deviation <- spec_face_deviation points ;;
                     inr (fkey, deviation))
                  (faces mesh) ;;
  inr (fold_left (fun dev entry => <[entry.1 := entry.2]> dev) entries ∅).

(** The dot products the corners of a face give rise to are compared with 0
    the same way by [>] and by [<=]: none of them is a NaN. *)
Definition comparable_dots (points : list (Point F)) : Prop :=
  forall plane a b c,
    bestfit_plane_from_points points = inr plane ->
    (a, b, c) ∈ window3 (points ++ take 2 points) ->
    let n := cross_vectors (subtract_vectors a b) (subtract_vectors c b) in
    le (dot_vectors n plane.2) (of_int 0) = negb (gt (dot_vectors n plane.2) (of_int 0)).
End FlatnessOfMesh.

(** ** An exact rational kernel

    An instance of the kernel that computes: the three functions of section
    4.1 of the specification over the rationals.  Results are reduced
    fractions, so that equal points are equal terms. *)
Module QKernel.
Local Open Scope Q_scope.

Definition qmap2 (f : Q -> Q -> Q) (a b : Point Q) : Point Q :=
  let '(ax, ay, az) := a in
  let '(bx, by_, bz) := b in
  (Qred (f ax bx), Qred (f ay by_), Qred (f az bz)).

Definition qsub : Point Q -> Point Q -> Point Q := qmap2 Qminus.
Definition qadd : Point Q -> Point Q -> Point Q := qmap2 Qplus.

Definition qscale (a : Point Q) (s : Q) : Point Q :=
  let '(ax, ay, az) := a in (Qred (ax * s), Qred (ay * s), Qred (az * s)).

Definition qdot (a b : Point Q) : Q :=
  let '(ax, ay, az) := a in
  let '(bx, by_, bz) := b in
  Qred (ax * bx + ay * by_ + az * bz).

Definition qzero : Point Q := (0, 0, 0).

Definition qsum (points : list (Point Q)) : Point Q := fold_left qadd points qzero.

(** Modelled from the spec: [centroid_points] is not part of the sources at
    hand; section 4.1 gives the arithmetic mean, failing with
    [EmptyInputError] on empty input. *)
Definition centroid (points : list (Point Q)) : result (Point Q) :=
  match points with
  | [] => inl EmptyInputError
  | _ => inr (qscale (qsum points) (/ inject_Z (Z.of_nat (length points))))
  end.

(** The sums of the products of the coordinates of the corners relative to
    [o]: the entries xx, xy, xz, yy, yz, zz of their covariance matrix, up to
    the factor 1/n. *)
Definition covariance (o : Point Q) (points : list (Point Q)) : Q * Q * Q * Q * Q * Q :=
  fold_left
    (fun '(xx, xy, xz, yy, yz, zz) point =>
       let '(rx, ry, rz) := qsub point o in
       (xx + rx * rx, xy + rx * ry, xz + rx * rz, yy + ry * ry, yz + ry * rz, zz + rz * rz))
    points (0, 0, 0, 0, 0, 0).

Definition qmax (x y : Q) : Q := if Qle_bool x y then y else x.

(** Modelled from the spec: [bestfit_plane_from_points] is not part of the
    sources at hand; sections 3 and 4.1 give a least-squares plane, an origin
    and a normal, that fails with [DegenerateInputError] on fewer than three
    or on collinear points.  Here the plane through the centroid of the
    corners that fits one coordinate as a linear function of the other two in
    the least-squares sense, the coordinate being the one with the largest
    minor of the covariance matrix; the minors all vanish exactly when the
    corners are collinear.  The rationals have no square root: the normal is
    left unnormalised. *)
Definition bestfit (points : list (Point Q)) : result (Plane Q) :=
  if (length points <? 3)%nat then inl DegenerateInputError
  else
    base <- centroid points ;;
    let '(xx, xy, xz, yy, yz, zz) := covariance base points in
    let det_x := yy * zz - yz * yz in
    let det_y := xx * zz - xz * xz in
    let det_z := xx * yy - xy * xy in
    let det_max := qmax det_x (qmax det_y det_z) in
    if Qeq_bool det_max 0 then inl DegenerateInputError
    else if Qeq_bool det_max det_x then
      inr (base, (1, Qred ((xz * yz - xy * zz) / det_x), Qred ((xy * yz - xz * yy) / det_x)))
    else if Qeq_bool det_max det_y then
      inr (base, (Qred ((yz * xz - xy * zz) / det_y), 1, Qred ((xy * xz - yz * xx) / det_y)))
    else
      inr (base, (Qred ((yz * xy - xz * yy) / det_z), Qred ((xz * xy - yz * xx) / det_z), 1)).

(** Modelled from the spec: [project_points_plane] is not part of the sources
    at hand; section 4.1 gives the orthogonal projection, point by point.  The
    normal not being a unit vector, the offset is divided by its squared
    length. *)
Definition project_point (plane : Plane Q) (point : Point Q) : Point Q :=
  let '(base, normal) := plane in
  let t := qdot (qsub point base) normal / qdot normal normal in
  qsub point (qscale normal t).

Definition project (points : list (Point Q)) (plane : Plane Q) : result (list (Point Q)) :=
  inr (map (project_point plane) points).

(** Coordinates that are reduced fractions. *)
Definition reduced (p : Point Q) : Prop :=
  let '(x, y, z) := p in Qred x = x /\ Qred y = y /\ Qred z = z.

#[export] Instance geometry : Geometry Q := {
  bestfit_plane_from_points := bestfit;
  project_points_plane := project;
  centroid_points := centroid
}.
End QKernel.

(** Sample meshes over the rationals. *)
Module Samples.
Local Open Scope Q_scope.

(** A single vertex and no face. *)
Definition lone_vertex : Mesh Q := mkMesh [(0%Z, (1, 2, 3))] [].

(** The unit square in the plane [z = 0], one quadrilateral face. *)
Definition unit_square : Mesh Q :=
  mkMesh [(0%Z, (0, 0, 0)); (1%Z, (1, 0, 0)); (2%Z, (1, 1, 0)); (3%Z, (0, 1, 0))]
         [(0%Z, [0%Z; 1%Z; 2%Z; 3%Z])].

(** A quadrilateral with one corner lifted out of the plane of the others. *)
Definition twisted : Mesh Q :=
  mkMesh [(0%Z, (0, 0, 0)); (1%Z, (1, 0, 0)); (2%Z, (1, 1, 1)); (3%Z, (0, 1, 0))]
         [(0%Z, [0%Z; 1%Z; 2%Z; 3%Z])].

(** The unit square and a fifth vertex that no face uses. *)
Definition square_and_stray : Mesh Q :=
  mkMesh [(0%Z, (0, 0, 0)); (1%Z, (1, 0, 0)); (2%Z, (1, 1, 0)); (3%Z, (0, 1, 0));
          (4%Z, (5, 5, 5))]
         [(0%Z, [0%Z; 1%Z; 2%Z; 3%Z])].

(** Two unit squares sharing an edge, folded along it. *)
Definition hinge : Mesh Q :=
  mkMesh [(0%Z, (0, 0, 0)); (1%Z, (1, 0, 0)); (2%Z, (1, 1, 0)); (3%Z, (0, 1, 0));
          (4%Z, (1, 0, 1)); (5%Z, (1, 1, 1))]
         [(0%Z, [0%Z; 1%Z; 2%Z; 3%Z]); (1%Z, [1%Z; 4%Z; 5%Z; 2%Z])].
End Samples.

(** ** An exact real kernel

    The functions of the kernel in exact arithmetic: the floats of the
    program read as real numbers, no operation rounding.  This is not what
    the program computes with; what it computes with is [Binary64] below.
    The statements over this kernel take the best-fit plane as a parameter
    and say what they ask of it; [bestfit] is the least-squares plane they
    are applied to. *)
Module Ideal.
Local Open Scope R_scope.

(** Modelled from the spec: [subtract_vectors] is not part of the sources at
    hand; section 3 gives the subtraction of vectors. *)
Definition rsub (a b : Vector R) : Vector R :=
  (a.1.1 - b.1.1, a.1.2 - b.1.2, a.2 - b.2).

(** Modelled from the spec: [cross_vectors] is not part of the sources at
    hand; section 3 gives the cross product. *)
Definition rcross (u v : Vector R) : Vector R :=
  (u.1.2 * v.2 - u.2 * v.1.2, u.2 * v.1.1 - u.1.1 * v.2, u.1.1 * v.1.2 - u.1.2 * v.1.1).

(** Modelled from the spec: [dot_vectors] is not part of the sources at hand;
    section 3 gives the dot product. *)
Definition rdot (u v : Vector R) : R :=
  u.1.1 * v.1.1 + u.1.2 * v.1.2 + u.2 * v.2.

(** Modelled from the spec: [scale_vector] is not part of the sources at hand;
    section 3 gives the scaling of a vector. *)
Definition rscale (v : Vector R) (s : R) : Vector R :=
  (v.1.1 * s, v.1.2 * s, v.2 * s).

Definition rlength (v : Vector R) : R := sqrt (rdot v v).

(** Modelled from the spec: [angle_smallest_vectors] is not part of the
    sources at hand; section 4.1 gives the smaller of the two angles between
    the vectors, in the range from 0 to pi, a zero-length vector being a
    defined error: the arc cosine of the normalised dot product. *)
Definition rangle (u v : Vector R) : result R :=
  if Req_dec_T (rlength u * rlength v) 0 then inl ZeroLengthError
  else inr (acos (rdot u v / (rlength u * rlength v))).

Definition radd (a b : Point R) : Point R :=
  (a.1.1 + b.1.1, a.1.2 + b.1.2, a.2 + b.2).

(** Modelled from the spec: [centroid_points], the arithmetic mean, failing on
    empty input (section 4.1). *)
Definition rcentroid (points : list (Point R)) : result (Point R) :=
  match points with
  | [] => inl EmptyInputError
  | _ => inr (rscale (fold_left radd points (0, 0, 0)) (/ INR (length points)))
  end.

(** Modelled from the spec: [project_points_plane], the orthogonal projection
    (section 4.1). *)
Definition rproject_point (plane : Plane R) (point : Point R) : Point R :=
  let '(base, normal) := plane in
  rsub point (rscale normal (rdot (rsub point base) normal / rdot normal normal)).

#[export] Instance scalar : Scalar R := {
  of_int := IZR;
  add := Rplus;
  div := Rdiv;
  gt := fun x y => if Rgt_dec x y then true else false;
  le := fun x y => if Rle_dec x y then true else false
}.

#[export] Instance vectors : VectorKernel R := {
  subtract_vectors := rsub;
  cross_vectors := rcross;
  dot_vectors := rdot;
  scale_vector := rscale;
  angle_smallest_vectors := rangle
}.

Definition geometry (bestfit : list (Point R) -> result (Plane R)) : Geometry R := {|
  bestfit_plane_from_points := bestfit;
  project_points_plane := fun points plane => inr (map (rproject_point plane) points);
  centroid_points := rcentroid
|}.

(** The sums of the products of the coordinates of the corners relative to
    [o], as in [QKernel.covariance]. *)
Definition rcovariance (o : Point R) (points : list (Point R)) : R * R * R * R * R * R :=
  fold_left
    (fun '(xx, xy, xz, yy, yz, zz) point =>
       let r := rsub point o in
       (xx + r.1.1 * r.1.1, xy + r.1.1 * r.1.2, xz + r.1.1 * r.2,
        yy + r.1.2 * r.1.2, yz + r.1.2 * r.2, zz + r.2 * r.2))
    points (0, 0, 0, 0, 0, 0).

(** The minor of the covariance matrix that decides whether the corners,
    seen from above, lie on one line. *)
Definition rminor_z (o : Point R) (points : list (Point R)) : R :=
  let '(xx, xy, _, yy, _, _) := rcovariance o points in xx * yy - xy * xy.

Definition rnormalize (v : Vector R) : Vector R := rscale v (/ rlength v).

(** Modelled from the spec: [bestfit_plane_from_points] (sections 3 and
    4.1), the least-squares plane of [QKernel.bestfit] in exact arithmetic,
    with a unit normal: through the centroid of the points, one coordinate
    fitted as a linear function of the other two, fewer than three or
    collinear points being a [DegenerateInputError]. *)
Definition bestfit (points : list (Point R)) : result (Plane R) :=
  if (length points <? 3)%nat then inl DegenerateInputError
  else
    base <- rcentroid points ;;
    let '(xx, xy, xz, yy, yz, zz) := rcovariance base points in
    let det_x := yy * zz - yz * yz in
    let det_y := xx * zz - xz * xz in
    let det_z := xx * yy - xy * xy in
    let det_max := Rmax (Rmax det_x det_y) det_z in
    if Req_dec_T det_max 0 then inl DegenerateInputError
    else if Req_dec_T det_max det_x then
      inr (base, rnormalize (1, (xz * yz - xy * zz) / det_x, (xy * yz - xz * yy) / det_x))
    else if Req_dec_T det_max det_y then
      inr (base, rnormalize ((yz * xz - xy * zz) / det_y, 1, (xy * xz - yz * xx) / det_y))
    else
      inr (base, rnormalize ((yz * xy - xz * yy) / det_z, (xz * xy - yz * xx) / det_z, 1)).

(** The same plane with the opposite orientation: which of the two unit
    normals a best-fit plane comes with is left open (section 4.1). *)
Definition flipped (points : list (Point R)) : result (Plane R) :=
  plane <- bestfit points ;; inr (plane.1, rscale plane.2 (IZR (-1))).

(** A point lies on the plane through [base] with normal [normal]. *)
Definition on_plane (plane : Plane R) (p : Point R) : Prop :=
  rdot (rsub p plane.1) plane.2 = 0.

(** The corners [a], [b], [c] are collinear: no local normal at [b]. *)
Definition collinear (t : Point R * Point R * Point R) : Prop :=
  rcross (rsub t.1.1 t.1.2) (rsub t.2 t.1.2) = (0, 0, 0).

(** The points are exactly coplanar: some plane contains them all. *)
Definition coplanar (points : list (Point R)) : Prop :=
  exists base normal,
    normal <> (0, 0, 0) /\ forall p, p ∈ points -> on_plane (base, normal) p.

(** The face is exactly planar for the kernel: its best-fit plane has a
    normal and contains every corner. *)
Definition coplanar_face (bestfit : list (Point R) -> result (Plane R))
    (points : list (Point R)) : Prop :=
  exists plane,
    bestfit points = inr plane /\ plane.2 <> (0, 0, 0) /\
    forall p, p ∈ points -> on_plane plane p.

(** The statement that every exactly planar face has deviation 0. *)
Definition every_coplanar_face_is_flat : Prop :=
  forall (bestfit : list (Point R) -> result (Plane R)) (mesh : Mesh R) (fkey : Z)
         (points : list (Point R)),
    fkey ∈ faces mesh ->
    face_coordinates mesh fkey = inr points ->
    coplanar_face bestfit points ->
    exists dev, mesh_flatness (G := geometry bestfit) mesh = inr dev /\
                dev !! fkey = Some 0.

(** A right triangle in the plane [z = 0]. *)
Definition triangle : Mesh R :=
  mkMesh [(0%Z, (0, 0, 0)); (1%Z, (1, 0, 0)); (2%Z, (0, 1, 0))]
         [(0%Z, [0%Z; 1%Z; 2%Z])].

(** A planar pentagon whose corners 0, 1 and 2 lie on one line. *)
Definition pentagon : Mesh R :=
  mkMesh [(0%Z, (0, 0, 0)); (1%Z, (1, 0, 0)); (2%Z, (2, 0, 0)); (3%Z, (2, 2, 0));
          (4%Z, (0, 2, 0))]
         [(0%Z, [0%Z; 1%Z; 2%Z; 3%Z; 4%Z])].

(** The centroid of the corners of [pentagon]. *)
Definition pentagon_centroid : Point R := (1, 4 / 5, 0).
End Ideal.

(** ** The kernel in binary64

    The same functions over the floats of the program, every operation
    rounded as IEEE 754 binary64 rounds it.  [compas.geometry] is not part of
    the sources at hand: the formulas are the textbook ones, evaluated from
    left to right.  The arc cosine of the C library is not modelled: it is a
    parameter of the angle. *)
Module Binary64.
Import PrimFloat.
Local Open Scope float_scope.

(** An integer operand converted to a float; exact below [2^53] in
    magnitude, and meant for integers below [2^63] only. *)
Definition of_Z (z : Z) : float :=
  match z with
  | Z0 => 0
  | Zpos _ => of_uint63 (Uint63.of_Z z)
  | Zneg p => - of_uint63 (Uint63.of_Z (Zpos p))
  end.

#[export] Instance scalar : Scalar float := {
  of_int := of_Z;
  add := PrimFloat.add;
  div := PrimFloat.div;
  gt := fun x y => y <? x;
  le := fun x y => x <=? y
}.

(** Modelled from the spec: [subtract_vectors] (section 3). *)
Definition fsub (u v : Vector float) : Vector float :=
  let '(ux, uy, uz) := u in
  let '(vx, vy, vz) := v in
  (ux - vx, uy - vy, uz - vz).

(** Modelled from the spec: [cross_vectors] (section 3). *)
Definition fcross (u v : Vector float) : Vector float :=
  let '(ux, uy, uz) := u in
  let '(vx, vy, vz) := v in
  (uy * vz - uz * vy, uz * vx - ux * vz, ux * vy - uy * vx).

(** Modelled from the spec: [dot_vectors] (section 3). *)
Definition fdot (u v : Vector float) : float :=
  let '(ux, uy, uz) := u in
  let '(vx, vy, vz) := v in
  ux * vx + uy * vy + uz * vz.

(** Modelled from the spec: [scale_vector] (section 3). *)
Definition fscale (v : Vector float) (s : float) : Vector float :=
  let '(vx, vy, vz) := v in (vx * s, vy * s, vz * s).

Definition flength (v : Vector float) : float := sqrt (fdot v v).

Definition fnormalize (v : Vector float) : Vector float :=
  let l := flength v in
  let '(vx, vy, vz) := v in (vx / l, vy / l, vz / l).

(** [max(min(a, 1), -1)] *)
Definition clamp (a : float) : float :=
  let a := if 1 <? a then 1 else a in
  if a <? -1 then -1 else a.

(** The cosine the angle is taken of: the dot product divided by the
    product of the lengths. *)
Definition cosine (u v : Vector float) : float :=
  fdot u v / (flength u * flength v).

Section Angle.
Variable acos : float -> float.

(** Modelled from the spec: [angle_smallest_vectors] (section 4.1), the arc
    cosine of the normalised dot product, a zero-length vector being an
    error. *)
Definition fangle (u v : Vector float) : result float :=
  if (flength u * flength v) =? 0 then inl ZeroLengthError
  else inr (acos (clamp (cosine u v))).

Definition vectors : VectorKernel float := {|
  subtract_vectors := fsub;
  cross_vectors := fcross;
  dot_vectors := fdot;
  scale_vector := fscale;
  angle_smallest_vectors := fangle
|}.
End Angle.

(** What is used of the arc cosine of the C library: it is 0 at 1 and
    positive below. *)
Definition arc_cosine (acos : float -> float) : Prop :=
  acos 1 = 0 /\ forall x, (x <? 1) = true -> (0 <? acos x) = true.

Definition fadd3 (a b : Point float) : Point float :=
  let '(ax, ay, az) := a in
  let '(bx, by_, bz) := b in
  (ax + bx, ay + by_, az + bz).

(** Modelled from the spec: [centroid_points] (section 4.1), the arithmetic
    mean: the sum of the coordinates, taken from 0 in the order of the
    points, divided by their number; no point at all is an
    [EmptyInputError]. *)
Definition centroid (points : list (Point float)) : result (Point float) :=
  match points with
  | [] => inl EmptyInputError
  | _ =>
      let '(x, y, z) := fold_left fadd3 points (0, 0, 0) in
      let p := of_Z (Z.of_nat (length points)) in
      inr (x / p, y / p, z / p)
  end.

Definition covariance (o : Point float) (points : list (Point float))
  : float * float * float * float * float * float :=
  fold_left
    (fun '(xx, xy, xz, yy, yz, zz) point =>
       let '(rx, ry, rz) := fsub point o in
       (xx + rx * rx, xy + rx * ry, xz + rx * rz, yy + ry * ry, yz + ry * rz, zz + rz * rz))
    points (0, 0, 0, 0, 0, 0).

(** [max(x, y)] *)
Definition fmax (x y : float) : float := if x <? y then y else x.

(** Modelled from the spec: [bestfit_plane_from_points] (sections 3 and
    4.1), a least-squares plane with a unit normal through the centroid of
    the points, fewer than three or collinear points being a
    [DegenerateInputError]: the fit of one coordinate as a linear function of
    the other two, the coordinate with the largest minor of the covariance
    matrix, as in [QKernel.bestfit], with the normal normalised. *)
Definition bestfit (points : list (Point float)) : result (Plane float) :=
  if (length points <? 3)%nat then inl DegenerateInputError
  else
    base <- centroid points ;;
    let '(xx, xy, xz, yy, yz, zz) := covariance base points in
    let det_x := yy * zz - yz * yz in
    let det_y := xx * zz - xz * xz in
    let det_z := xx * yy - xy * xy in
    let det_max := fmax (fmax det_x det_y) det_z in
    if det_max =? 0 then inl DegenerateInputError
    else if det_max =? det_x then
      inr (base, fnormalize (1, (xz * yz - xy * zz) / det_x, (xy * yz - xz * yy) / det_x))
    else if det_max =? det_y then
      inr (base, fnormalize ((yz * xz - xy * zz) / det_y, 1, (xy * xz - yz * xx) / det_y))
    else
      inr (base, fnormalize ((yz * xy - xz * yy) / det_z, (xz * xy - yz * xx) / det_z, 1)).

(** Modelled from the spec: [project_points_plane] (section 4.1), the
    orthogonal projection, point by point: the point minus the normalised
    normal scaled by the distance of the point from the plane. *)
Definition project_point (plane : Plane float) (point : Point float) : Point float :=
  let '(base, normal) := plane in
  let normal := fnormalize normal in
  fsub point (fscale normal (fdot (fsub point base) normal)).

Definition project (points : list (Point float)) (plane : Plane float)
  : result (list (Point float)) :=
  if flength plane.2 =? 0 then inl ZeroDivisionError
  else inr (map (project_point plane) points).

#[export] Instance geometry : Geometry float := {
  bestfit_plane_from_points := bestfit;
  project_points_plane := project;
  centroid_points := centroid
}.

(** Equality of positions, coordinate by coordinate. *)
Definition same_point (p q : Point float) : bool :=
  let '(px, py, pz) := p in
  let '(qx, qy, qz) := q in
  (px =? qx) && (py =? qy) && (pz =? qz).

(** Three triangles in the plane [z = 0] around the vertex 0 at
    [(0.1, 0.1, 0)]; [0.1] is the float next to one tenth. *)
Definition fan : Mesh float :=
  mkMesh [(0%Z, (0x1.999999999999ap-4, 0x1.999999999999ap-4, 0)); (1%Z, (1, 0, 0));
          (2%Z, (0, 1, 0)); (3%Z, (-1, -1, 0))]
         [(0%Z, [0%Z; 1%Z; 2%Z]); (1%Z, [0%Z; 2%Z; 3%Z]); (2%Z, [0%Z; 3%Z; 1%Z])].

(** The vertex 0 of the mesh is where the vertex 0 of [fan] is. *)
Definition centre_in_place (mesh : Mesh float) : bool :=
  match vertex_coordinates mesh 0%Z with
  | inr p => same_point p (0x1.999999999999ap-4, 0x1.999999999999ap-4, 0)
  | inl _ => false
  end.

(** A triangle with integer corners that are not collinear. *)
Definition slanted : Mesh float :=
  mkMesh [(0%Z, (1, 5, -1)); (1%Z, (1, 3, 1)); (2%Z, (4, 0, 3))] [(0%Z, [0%Z; 1%Z; 2%Z])].

(** The unit square in the plane [z = 0]. *)
Definition unit_square : Mesh float :=
  mkMesh [(0%Z, (0, 0, 0)); (1%Z, (1, 0, 0)); (2%Z, (1, 1, 0)); (3%Z, (0, 1, 0))]
         [(0%Z, [0%Z; 1%Z; 2%Z; 3%Z])].

(** An arc cosine that tells 1 from what is below 1 and nothing else. *)
Definition coarse_acos (x : float) : float := if x <? 1 then 1 else 0.
End Binary64.

(** ** Predicates used in the statements *)

Section Predicates.
Context {F : Type} {G : Geometry F}.

(** Every point collected for a vertex is the position of that vertex. *)
Definition own_position (mesh : Mesh F) (key_xyz : gmap Z (list (Point F))) : Prop :=
  forall key b p, key_xyz !! key = Some b -> p ∈ b -> vertex_coordinates mesh key = inr p.

(** The corners of every face are exactly planar for the kernel: projected
    onto their own best-fit plane they come back unchanged. *)
Definition planar_faces (mesh : Mesh F) : Prop :=
  forall fkey points plane,
    fkey ∈ faces mesh ->
    face_coordinates mesh fkey = inr points ->
    bestfit_plane_from_points points = inr plane ->
    project_points_plane points plane = inr points.

(** What the vertex pass writes: a fixed vertex keeps its attributes, any
    other vertex gets the centroid of its bucket, nothing else entering. *)
Definition centroid_update (fixed : gset Z) (key_xyz : gmap Z (list (Point F)))
    (before after : Z * Point F) : Prop :=
  after.1 = before.1 /\
  if decide (before.1 ∈ fixed) then after.2 = before.2
  else exists b, key_xyz !! before.1 = Some b /\ centroid_points b = inr after.2.

(** No face of the mesh lists [key]. *)
Definition isolated (mesh : Mesh F) (key : Z) : Prop :=
  forall fkey keys, face_vertices mesh fkey = inr keys -> key ∉ keys.

(** The centroid of identical contributions reproduces the contribution,
    for the positions of the mesh. *)
Definition centroid_of_copies (mesh : Mesh F) : Prop :=
  forall key p n, (key, p) ∈ vertex mesh -> centroid_points (replicate (S n) p) = inr p.

(** The centroid of no point at all is an error. *)
Definition centroid_of_nothing_fails : Prop :=
  exists e, centroid_points ([] : list (Point F)) = inl e.

Context {A : Type}.

(** The callback, when it can be called, leaves the position of [key] alone. *)
Definition callback_preserves (callback : PyObject F A) (key : Z) : Prop :=
  forall truth f, callback = PyObj truth (Some f) ->
    forall mesh k args,
      vertex_coordinates (f mesh k args).1 key = vertex_coordinates mesh key.

(** The callback, when it can be called, only observes the mesh. *)
Definition callback_readonly (callback : PyObject F A) : Prop :=
  forall truth f, callback = PyObj truth (Some f) ->
    forall mesh k args, (f mesh k args).1 = mesh.

(** The log of a run from [mesh] with next index [k]: every entry carries
    the next index, and the mesh it carries is the one left by the position
    update applied to what the previous call of [f] left. *)
Fixpoint log_chain (fixed : gset Z) (f : Mesh F -> Z -> A -> Mesh F * result unit)
    (args : A) (mesh : Mesh F) (k : Z) (log : Log F) : Prop :=
  match log with
  | [] => True
  | (k', mesh') :: log' =>
      k' = k /\ mesh' = (planarize_iteration fixed mesh).1 /\
      log_chain fixed f args (f mesh' k args).1 (k + 1) log'
  end.
End Predicates.

(** The statement that every callback argument that is not [None] and not
    callable is rejected before the mesh is touched. *)
Definition every_invalid_callback_is_rejected : Prop :=
  forall (F : Type) (G : Geometry F) (A : Type) (mesh : Mesh F) (fixed : option (list Z))
         (kmax : Z) (d : F) (callback : PyObject F A) (args : A),
    callback <> PyNone ->
    callable callback = false ->
    exists e, mesh_planarize mesh fixed kmax d callback args = (mesh, [], inl e).

(** Callbacks and a solver used as inputs below. *)
Module Inputs.
(** A callback that looks at nothing and returns. *)
Definition observer {F : Type} : PyObject F unit :=
  PyObj true (Some (fun mesh _ _ => (mesh, inr tt))).

(** The integer [0] passed as callback: not [None], not callable, falsy. *)
Definition zero {F : Type} : PyObject F unit := PyObj false None.

(** The integer [1] passed as callback: not callable, truthy. *)
Definition one {F : Type} : PyObject F unit := PyObj true None.

(** A solver that returns at once. *)
Definition idle_solver {F : Type} : @Solver F := fun mesh _ _ => (mesh, inr tt).
End Inputs.

(** ** Further predicates and counts *)

Section MorePredicates.
Context {F : Type}.

(** The number of corners of the faces [fkeys] that name [key]: a face lists
    its corners by vertex key. *)
Definition corner_count (mesh : Mesh F) (fkeys : list Z) (key : Z) : nat :=
  sum_list (map (fun fkey =>
                   match face_vertices mesh fkey with
                   | inr keys => length (filter (fun k => k = key) keys)
                   | inl _ => 0%nat
                   end) fkeys).

(** Some face of the mesh names a vertex key the mesh does not have. *)
Definition dangling (mesh : Mesh F) : Prop :=
  exists fkey keys key,
    fkey ∈ faces mesh /\ face_vertices mesh fkey = inr keys /\
    key ∈ keys /\ key ∉ vertices mesh.

Context {A : Type}.

(** The callback, when it can be called, adds and removes no vertex and no
    face. *)
Definition callback_keeps_topology (callback : PyObject F A) : Prop :=
  forall truth f, callback = PyObj truth (Some f) ->
    forall mesh k args,
      face (f mesh k args).1 = face mesh /\ vertices (f mesh k args).1 = vertices mesh.
End MorePredicates.

(** ** RhinoSurface.to_compas_mesh (compas_rhino.conversions.surface)

    The Rhino objects are read through what the method reads of them: a b-rep
    face through the exploded segments of its outer loop, a segment through
    its two end points, a point through its geometric key and its coordinate
    list.  [Mesh.from_vertices_and_faces] and the clean-up are parameters.
    [to_compas_quadmesh] reads a face through its two parameter domains and
    its point at a parameter pair; [from_polygons] and [meshes_join] are
    parameters. *)

Module RhinoSurface.

(** The exceptions the method itself can run into: [segments[0]] on a loop
    without segments, [gkey_index[gkey]], a division by zero. *)
Inductive error : Type :=
| NoSegmentIndexError
| GkeyKeyError (gkey : string)
| DivisionByZeroError.

Definition fallible (A : Type) : Type := (error + A)%type.

Definition and_then {A B : Type} (r : fallible A) (k : A -> fallible B) : fallible B :=
  match r with
  | inl e => inl e
  | inr a => k a
  end.

Fixpoint for_each {A B : Type} (f : A -> fallible B) (l : list A) : fallible (list B) :=
  match l with
  | [] => inr []
  | a :: l' => and_then (f a) (fun b => and_then (for_each f l') (fun bs => inr (b :: bs)))
  end.

(** The [facefilter] argument: [None], or an object with a truth value that
    may be callable on a face. *)
Inductive FaceFilter (B : Type) : Type :=
| NoFilter
| FilterObj (truth : bool) (call : option (B -> bool)).
Arguments NoFilter {B}.
Arguments FilterObj {B} _ _.

(** [if facefilter and callable(facefilter):
       brepfaces = [face for face in brep.Faces if facefilter(face)]
     else: brepfaces = brep.Faces] *)
Definition select_faces {B : Type} (facefilter : FaceFilter B) (brep_faces : list B) : list B :=
  match facefilter with
  | FilterObj true (Some f) => List.filter f brep_faces
  | _ => brep_faces
  end.

(** [d[gkey] = xyz] on a dictionary in insertion order: a key that is there
    keeps its place and gets the new value, a new key goes to the end.  The
    method walks the dictionary twice without writing to it in between
    ([enumerate(gkey_xyz)], [gkey_xyz.items()]), so that the two walks agree
    on the order. *)
Fixpoint setitem {P : Type} (d : list (string * P)) (gkey : string) (xyz : P)
  : list (string * P) :=
  match d with
  | [] => [(gkey, xyz)]
  | (k, v) :: d' =>
      if String.eqb k gkey then (k, xyz) :: d' else (k, v) :: setitem d' gkey xyz
  end.

(** [gkey_index[gkey]] *)
Fixpoint getindex (gkey_index : list (string * nat)) (gkey : string) : fallible nat :=
  match gkey_index with
  | [] => inl (GkeyKeyError gkey)
  | (k, index) :: rest => if String.eqb k gkey then inr index else getindex rest gkey
  end.

(** [segments[1:-1]] *)
Definition inner_segments {S : Type} (segments : list S) : list S :=
  removelast (tail segments).

(** [face = []; for vertex in temp: if vertex not in face: face.append(vertex)] *)
Definition unique (temp : list nat) : list nat :=
  fold_left (fun face vertex => if decide (vertex ∈ face) then face else face ++ [vertex])
            temp [].

Section ToMesh.
Context {P B C M : Type}.
Variable geometric_key : P -> string.
(** [face.OuterLoop.To3dCurve().Explode()], each segment as
    [(PointAtStart, PointAtEnd)]. *)
Variable segments : B -> list (P * P).
(** [list(xyz)] *)
Variable xyz_list : P -> C.

(** The body of [for face in brepfaces]: the dictionary and the key list of
    the face. *)
Definition loop_face (gkey_xyz : list (string * P)) (face : B)
  : fallible (list (string * P) * list string) :=
  match segments face with
  | [] => inl NoSegmentIndexError
  | first :: _ =>
      let a := first.1 in
      let b := first.2 in
      let a_gkey := geometric_key a in
      let b_gkey := geometric_key b in
      let gkey_xyz := setitem gkey_xyz a_gkey a in
      let gkey_xyz := setitem gkey_xyz b_gkey b in
      inr (fold_left
             (fun '(gkey_xyz, face) segment =>
                let b := segment.2 in
                let b_gkey := geometric_key b in
                (setitem gkey_xyz b_gkey b, face ++ [b_gkey]))
             (inner_segments (segments face))
             (gkey_xyz, [a_gkey; b_gkey]))
  end.

(** [for face in brepfaces: ...; faces.append(face)] *)
Fixpoint loop_faces (gkey_xyz : list (string * P)) (faces : list (list string))
    (brepfaces : list B) : fallible (list (string * P) * list (list string)) :=
  match brepfaces with
  | [] => inr (gkey_xyz, faces)
  | face :: rest =>
      and_then (loop_face gkey_xyz face)
               (fun '(gkey_xyz', keys) => loop_faces gkey_xyz' (faces ++ [keys]) rest)
  end.

(** [{gkey: index for index, gkey in enumerate(gkey_xyz)}] *)
Definition gkey_index (gkey_xyz : list (string * P)) : list (string * nat) :=
  imap (fun index entry => (entry.1, index)) gkey_xyz.

(** From the vertex map and the face lists to the vertices and the polygons
    handed to [from_vertices_and_faces]. *)
Definition vertices_and_polygons (gkey_xyz : list (string * P)) (faces : list (list string))
  : fallible (list C * list (list nat)) :=
  let index := gkey_index gkey_xyz in
  let vertices := map (fun entry => xyz_list entry.2) gkey_xyz in
  and_then (for_each (for_each (getindex index)) faces)
           (fun faces => inr (vertices, map unique faces)).

Definition mesh_data (brepfaces : list B) : fallible (list C * list (list nat)) :=
  and_then (loop_faces [] [] brepfaces)
           (fun '(gkey_xyz, faces) => vertices_and_polygons gkey_xyz faces).

(** The method: [None] without a b-rep form; [finish] is the naming and the
    optional clean-up of the mesh that was built. *)
Definition to_compas_mesh (has_brep_form : bool) (brep_faces : list B)
    (from_vertices_and_faces : list C -> list (list nat) -> M)
    (facefilter : FaceFilter B) (cleanup : bool) (finish : bool -> M -> M)
  : fallible (option M) :=
  if has_brep_form then
    and_then (mesh_data (select_faces facefilter brep_faces))
             (fun data => inr (Some (finish cleanup (from_vertices_and_faces data.1 data.2))))
  else inr None.

(** The key list of a face, and the corner points in the order in which the
    loops write them to the vertex map. *)
Definition face_points (face : B) : list P :=
  match segments face with
  | [] => []
  | first :: _ => first.1 :: first.2 :: map snd (inner_segments (segments face))
  end.

Definition corner_points (brepfaces : list B) : list P :=
  concat (map face_points brepfaces).

(** The vertex map after the points [points] have been written to it in
    turn, each under its geometric key. *)
Definition write_all (gkey_xyz : list (string * P)) (points : list P) : list (string * P) :=
  fold_left (fun d xyz => setitem d (geometric_key xyz) xyz) points gkey_xyz.

(** [xyz] is the last of the corner points with its geometric key. *)
Definition last_with_its_key (points : list P) (xyz : P) : Prop :=
  exists before after,
    points = before ++ xyz :: after /\
    forall q, q ∈ after -> geometric_key q <> geometric_key xyz.
End ToMesh.
(** The float arithmetic of [to_compas_quadmesh]; [of_int] is the conversion
    of an integer operand. *)
Class FloatOps (R : Type) : Type := {
  fadd : R -> R -> R;
  fsub : R -> R -> R;
  fmul : R -> R -> R;
  fdiv : R -> R -> R;
  of_int : Z -> R
}.

(** [x / n] for a float [x] and an integer [n]. *)
Definition divide {R : Type} `{FloatOps R} (x : R) (n : Z) : fallible R :=
  if (n =? 0)%Z then inl DivisionByZeroError else inr (fdiv x (of_int n)).

(** [range(n)] *)
Definition range (n : Z) : list Z := map Z.of_nat (seq 0 (Z.to_nat n)).

(** [nv or nu] *)
Definition nv_or_nu (nv : option Z) (nu : Z) : Z :=
  match nv with
  | Some n => if (n =? 0)%Z then nu else n
  | None => nu
  end.

Section ToQuadMesh.
Context {R Pt B M : Type} `{FloatOps R}.
(** [face.Domain(0)], [face.Domain(1)] *)
Variable domain_u : B -> R * R.
Variable domain_v : B -> R * R.
(** [point_to_compas(face.PointAt(i, j))]; the [@memoize] around it caches
    the results of a function of its arguments and is not visible. *)
Variable point_at : B -> R -> R -> Pt.
Variable from_polygons : list (list Pt) -> M.
Variable meshes_join : list M -> M.

(** The body of [for face in faces], up to [quads]. *)
Definition face_quads (face : B) (nu nv : Z) : fallible (list (list Pt)) :=
  let domain_u := domain_u face in
  let domain_v := domain_v face in
  and_then (divide (fsub domain_u.2 domain_u.1) nu) (fun du =>
  and_then (divide (fsub domain_v.2 domain_v.1) nv) (fun dv =>
  inr (flat_map
         (fun i =>
            map (fun j =>
                   let a := point_at face (fadd domain_u.1 (fmul (of_int (i + 0)) du))
                                          (fadd domain_v.1 (fmul (of_int (j + 0)) dv)) in
                   let b := point_at face (fadd domain_u.1 (fmul (of_int (i + 1)) du))
                                          (fadd domain_v.1 (fmul (of_int (j + 0)) dv)) in
                   let c := point_at face (fadd domain_u.1 (fmul (of_int (i + 1)) du))
                                          (fadd domain_v.1 (fmul (of_int (j + 1)) dv)) in
                   let d := point_at face (fadd domain_u.1 (fmul (of_int (i + 0)) du))
                                          (fadd domain_v.1 (fmul (of_int (j + 1)) dv)) in
                   [a; b; c; d])
                (range nv))
         (range nu)))).

Definition to_compas_quadmesh (has_brep_form : bool) (brep_faces : list B)
    (nu : Z) (nv : option Z) (weld : bool) (facefilter : FaceFilter B)
  : fallible (option M) :=
  let nv := nv_or_nu nv nu in
  if negb has_brep_form then inr None
  else
    let faces := select_faces facefilter brep_faces in
    and_then (for_each (fun face => and_then (face_quads face nu nv)
                                             (fun quads => inr (from_polygons quads)))
                       faces)
             (fun meshes => inr (Some (meshes_join meshes))).

(** The point of the parameter grid of a face at the integer position
    [(i, j)]. *)
Definition grid_point (face : B) (nu nv i j : Z) : Pt :=
  let du := fdiv (fsub (domain_u face).2 (domain_u face).1) (of_int nu) in
  let dv := fdiv (fsub (domain_v face).2 (domain_v face).1) (of_int nv) in
  point_at face (fadd (domain_u face).1 (fmul (of_int i) du))
                (fadd (domain_v face).1 (fmul (of_int j) dv)).
End ToQuadMesh.
End RhinoSurface.

(** ** Further inputs *)

Module MoreSamples.
Import RhinoSurface.

(** Two vertices and a triangular face that names a third one. *)
Definition dangling_triangle : Mesh Q :=
  mkMesh [(0%Z, (0, 0, 0)%Q); (1%Z, (1, 0, 0)%Q)] [(0%Z, [0%Z; 1%Z; 2%Z])].

(** The same over the reals. *)
Definition dangling_triangle_R : Mesh R :=
  mkMesh [(0%Z, (0, 0, 0)%R); (1%Z, (1, 0, 0)%R)] [(0%Z, [0%Z; 1%Z; 2%Z])].

(** A corner point of a loop: its geometric key and a tag that tells apart
    points that fall on one key. *)
Definition corner : Type := (string * nat)%type.

(** A b-rep face: the segments of its outer loop. *)
Definition loop : Type := list (corner * corner).

Definition corner_key (p : corner) : string := p.1.

Definition loop_segments (face : loop) : list (corner * corner) := face.

(** Two triangles that share the edge from [1,0] to [0,1]; the second one
    has its own copy of the corner at [1,0]. *)
Definition two_triangles : list loop :=
  let a := ("0,0"%string, 0%nat) in
  let b := ("1,0"%string, 0%nat) in
  let c := ("0,1"%string, 0%nat) in
  let b' := ("1,0"%string, 1%nat) in
  let d := ("1,1"%string, 0%nat) in
  [[(a, b); (b, c); (c, a)]; [(b', d); (d, c); (c, b')]].

(** Rational numbers for the floats of the grid conversion. *)
#[export] Instance rational_floats : FloatOps Q := {|
  fadd := Qplus;
  fsub := Qminus;
  fmul := Qmult;
  fdiv := Qdiv;
  of_int := inject_Z
|}.

(** A face with the parameter domain [0, 1] x [0, 2] whose points are their
    own parameters. *)
Definition patch_domain_u (face : unit) : Q * Q := (0, 1)%Q.
Definition patch_domain_v (face : unit) : Q * Q := (0, 2)%Q.
Definition patch_point_at (face : unit) (u v : Q) : Q * Q := (u, v).
End MoreSamples.

(** ** The claims that fail, as they are stated *)

(** The statement that one iteration leaves a mesh with exactly planar faces
    as it is, at the floats of the program: the faces are planar for the
    kernel, their corners come back unchanged from the projection onto their
    best-fit plane. *)
Definition every_planar_mesh_is_unchanged : Prop :=
  forall mesh : Mesh PrimFloat.float,
    unique_vertex_keys mesh ->
    planar_faces (G := Binary64.geometry) mesh ->
    (mesh_planarize (G := Binary64.geometry) mesh None 1 (Binary64.of_Z 1)
                    (PyNone : PyObject PrimFloat.float unit) tt).1.1 = mesh.

(** The statement that every triangular face whose corners are not
    collinear has a deviation of exactly 0, at the floats of the program and
    for every arc cosine that is 0 at 1 and positive below. *)
Definition every_triangle_is_exactly_flat : Prop :=
  forall (acos : PrimFloat.float -> PrimFloat.float) (a b c : Point PrimFloat.float),
    Binary64.arc_cosine acos ->
    Binary64.same_point (Binary64.fcross (Binary64.fsub a b) (Binary64.fsub c b))
                        (Binary64.of_Z 0, Binary64.of_Z 0, Binary64.of_Z 0) = false ->
    face_deviation (G := Binary64.geometry) (Sc := Binary64.scalar)
                   (V := Binary64.vectors acos) [a; b; c]
    = inr (Binary64.of_Z 0).

(** The statement that every callable callback is invoked exactly [kmax]
    times, with the indices [0, ..., kmax - 1] in increasing order. *)
Definition every_callable_callback_is_invoked_kmax_times : Prop :=
  forall (F : Type) (G : Geometry F) (A : Type) (mesh : Mesh F) (fixed : option (list Z))
         (kmax : Z) (d : F) (callback : PyObject F A) (args : A),
    callable callback = true ->
    map fst (mesh_planarize mesh fixed kmax d callback args).1.2
    = map Z.of_nat (seq 0 (Z.to_nat kmax)).

(** The same statement for the callbacks that are callable and have a true
    truth value. *)
Definition every_truthy_callable_callback_is_invoked_kmax_times : Prop :=
  forall (F : Type) (G : Geometry F) (A : Type) (mesh : Mesh F) (fixed : option (list Z))
         (kmax : Z) (d : F) (callback : PyObject F A) (args : A),
    callable callback = true ->
    truthy callback = true ->
    map fst (mesh_planarize mesh fixed kmax d callback args).1.2
    = map Z.of_nat (seq 0 (Z.to_nat kmax)).

(** Further callbacks used as inputs below. *)
Module MoreInputs.
(** A callable object whose truth value is false, such as an instance of a
    class with [__call__] and with [__len__] returning 0. *)
Definition silent {F : Type} : PyObject F unit :=
  PyObj false (Some (fun mesh _ _ => (mesh, inr tt))).

(** A function of the two parameters [(mesh, k)]: called with the three
    positional arguments [(mesh, k, callback_args)] it raises [TypeError]
    before its body runs. *)
Definition binary_observer {F : Type} : PyObject F unit :=
  PyObj true (Some (fun mesh _ _ => (mesh, inl TypeError))).
End MoreInputs.

(** * Properties *)

(** ** Dictionaries and fallible maps *)

Lemma assoc_elem_of {V : Type} (d : list (Z * V)) (key : Z) (v : V) :
  NoDup (map fst d) -> (key, v) ∈ d -> assoc key d = Some v.
Proof.
  induction d as [|[k w] d IH]; simpl; intros Hnd Hin.
  - inversion Hin.
  - apply NoDup_cons in Hnd as [Hk Hnd].
    apply elem_of_cons in Hin as [Heq | Hin].
    + inversion Heq; subst. now rewrite Z.eqb_refl.
    + destruct (Z.eqb_spec k key) as [-> | _].
      * exfalso. apply Hk. apply list_elem_of_fmap. now exists (key, v).
      * now apply IH.
Qed.

Lemma mapM_lookup {A B : Type} (f : A -> result B) (l : list A) (bs : list B) :
  mapM f l = inr bs ->
  forall j a, l !! j = Some a -> exists b, bs !! j = Some b /\ f a = inr b.
Proof.
  revert bs. induction l as [|x l IH]; simpl; intros bs H j a Hj.
  - discriminate.
  - destruct (f x) as [e | b] eqn:Hfx; simpl in H; [discriminate |].
    destruct (mapM f l) as [e | bs'] eqn:Hl; simpl in H; [discriminate |].
    inversion H; subst. destruct j as [|j]; simpl in *.
    + inversion Hj; subst. now exists b.
    + now apply (IH bs' eq_refl).
Qed.

Lemma mapM_length {A B : Type} (f : A -> result B) (l : list A) (bs : list B) :
  mapM f l = inr bs -> length bs = length l.
Proof.
  revert bs. induction l as [|x l IH]; simpl; intros bs H.
  - now inversion H.
  - destruct (f x) as [e | b]; simpl in H; [discriminate |].
    destruct (mapM f l) as [e | bs'] eqn:Hl; simpl in H; [discriminate |].
    inversion H; subst. simpl. f_equal. now apply IH.
Qed.

Lemma mapM_ext {A B : Type} (f g : A -> result B) (l : list A) :
  (forall a, f a = g a) -> mapM f l = mapM g l.
Proof.
  intros H. induction l as [|x l IH]; simpl; [reflexivity |].
  now rewrite H, IH.
Qed.

Lemma all_equal_replicate {A : Type} (x : A) (l : list A) :
  (forall y, y ∈ l -> y = x) -> l = replicate (length l) x.
Proof.
  induction l as [|y l IH]; simpl; intros H; [reflexivity |].
  rewrite (H y) by apply list_elem_of_here.
  f_equal. apply IH. intros z Hz. apply H. now apply list_elem_of_further.
Qed.

(** ** The vertex pass *)

Section VertexPass.
Context {F : Type} {G : Geometry F}.
Implicit Types (fixed : gset Z) (key_xyz : gmap Z (list (Point F))).

(** A fixed key reads the same attributes after the pass, whether the pass
    completes or raises. *)
Lemma update_vertices_fixed fixed key_xyz vs key :
  key ∈ fixed -> assoc key (update_vertices fixed key_xyz vs).1 = assoc key vs.
Proof.
  intros Hfix. induction vs as [|[k attr] vs IH]; simpl; [reflexivity |].
  destruct (decide (k ∈ fixed)) as [Hk | Hk].
  - destruct (update_vertices fixed key_xyz vs) as [vs' r]; simpl in *.
    now rewrite IH.
  - assert (Z.eqb k key = false) as Hne by (apply Z.eqb_neq; congruence).
    destruct (bucket key_xyz k) as [e | b]; simpl; [reflexivity |].
    destruct (centroid_points b) as [e | xyz]; simpl; [reflexivity |].
    destruct (update_vertices fixed key_xyz vs) as [vs' r]; simpl in *.
    now rewrite Hne, IH.
Qed.

(** The pass keeps the keys and their order. *)
Lemma update_vertices_keys fixed key_xyz vs :
  map fst (update_vertices fixed key_xyz vs).1 = map fst vs.
Proof.
  induction vs as [|[k attr] vs IH]; simpl; [reflexivity |].
  destruct (decide (k ∈ fixed)) as [Hk | Hk].
  - destruct (update_vertices fixed key_xyz vs); simpl in *. now rewrite IH.
  - destruct (bucket key_xyz k) as [e | b]; simpl; [reflexivity |].
    destruct (centroid_points b) as [e | xyz]; simpl; [reflexivity |].
    destruct (update_vertices fixed key_xyz vs); simpl in *. now rewrite IH.
Qed.

(** When every bucket holds only copies of the position of its vertex, the
    pass writes back what was there. *)
Lemma update_vertices_same fixed key_xyz vs :
  (forall key p n, (key, p) ∈ vs -> centroid_points (replicate (S n) p) = inr p) ->
  (exists e, centroid_points [] = inl e) ->
  (forall key xyz b p, (key, xyz) ∈ vs -> key_xyz !! key = Some b -> p ∈ b -> p = xyz) ->
  (update_vertices fixed key_xyz vs).1 = vs.
Proof.
  intros Hcopies [e0 Hempty]. revert Hcopies.
  induction vs as [|[k attr] vs IH]; simpl; intros Hcopies Hown; [reflexivity |].
  assert ((update_vertices fixed key_xyz vs).1 = vs) as IH'.
  { apply IH.
    - intros key p n Hin. apply (Hcopies key). now apply list_elem_of_further.
    - intros key xyz b p Hin. apply Hown. now apply list_elem_of_further. }
  destruct (decide (k ∈ fixed)) as [Hk | Hk].
  - destruct (update_vertices fixed key_xyz vs); simpl in *. now rewrite IH'.
  - unfold bucket. destruct (key_xyz !! k) as [b |] eqn:Hb; simpl; [| reflexivity].
    assert (b = replicate (length b) attr) as Hrep.
    { apply all_equal_replicate. intros p Hp.
      apply (Hown k attr b p); [apply list_elem_of_here | exact Hb | exact Hp]. }
    destruct (length b) as [|n]; rewrite Hrep; simpl.
    + now rewrite Hempty.
    + rewrite (Hcopies k attr n) by apply list_elem_of_here.
      destruct (update_vertices fixed key_xyz vs); simpl in *. now rewrite IH'.
Qed.
(** A pass that completes has written the plain centroid of its bucket to every
    vertex that is not fixed. *)
Lemma update_vertices_centroid fixed key_xyz vs vs' :
  update_vertices fixed key_xyz vs = (vs', inr tt) ->
  Forall2 (centroid_update fixed key_xyz) vs vs'.
Proof.
  revert vs'. induction vs as [|[k attr] vs IH]; simpl; intros vs' H.
  - inversion H. constructor.
  - destruct (decide (k ∈ fixed)) as [Hk | Hk].
    + destruct (update_vertices fixed key_xyz vs) as [vs1 r]. inversion H; subst.
      constructor; [| now apply IH].
      unfold centroid_update. simpl. split; [reflexivity |].
      destruct (decide (k ∈ fixed)); [reflexivity | contradiction].
    + unfold bucket in H. destruct (key_xyz !! k) as [b |] eqn:Hb; [| discriminate].
      destruct (centroid_points b) as [e | xyz] eqn:Hc; [discriminate |].
      destruct (update_vertices fixed key_xyz vs) as [vs1 r]. inversion H; subst.
      constructor; [| now apply IH].
      unfold centroid_update. simpl. split; [reflexivity |].
      destruct (decide (k ∈ fixed)); [contradiction | now exists b].
Qed.

(** A vertex that is not fixed and whose bucket is empty makes the pass raise,
    at that vertex if not before. *)
Lemma update_vertices_empty_bucket fixed key_xyz vs key e :
  centroid_points ([] : list (Point F)) = inl e ->
  key ∈ map fst vs -> key ∉ fixed -> key_xyz !! key = Some [] ->
  exists e', (update_vertices fixed key_xyz vs).2 = inl e'.
Proof.
  intros Hempty Hin Hfree Hb. induction vs as [|[k attr] vs IH]; simpl in *.
  - inversion Hin.
  - assert (k = key \/ key ∈ map fst vs) as [-> | Hin'].
    { apply elem_of_cons in Hin as [-> | Hin]; [now left | now right]. }
    + destruct (decide (key ∈ fixed)) as [Hk | _]; [contradiction |].
      unfold bucket. rewrite Hb, Hempty. now exists e.
    + destruct (IH Hin') as [e' He'].
      destruct (decide (k ∈ fixed)) as [Hk | Hk].
      * destruct (update_vertices fixed key_xyz vs) as [vs' r]; simpl in *. now exists e'.
      * destruct (bucket key_xyz k) as [e1 | b]; simpl; [now exists e1 |].
        destruct (centroid_points b) as [e1 | xyz]; simpl; [now exists e1 |].
        destruct (update_vertices fixed key_xyz vs) as [vs' r]; simpl in *. now exists e'.
Qed.
End VertexPass.

(** ** The face pass *)

Section FacePass.
Context {F : Type} {G : Geometry F}.
Implicit Types (mesh : Mesh F) (key_xyz : gmap Z (list (Point F))).

Lemma empty_buckets_lookup mesh key b : empty_buckets mesh !! key = Some b -> b = [].
Proof.
  unfold empty_buckets. intros H. apply elem_of_list_to_map_2 in H.
  apply list_elem_of_fmap in H as [k [Heq _]]. now inversion Heq.
Qed.

Lemma empty_buckets_own mesh : own_position mesh (empty_buckets mesh).
Proof.
  intros key b p Hb Hp. apply empty_buckets_lookup in Hb. subst. inversion Hp.
Qed.

Lemma append_projections_own mesh projections keys :
  forall index key_xyz key_xyz',
    (forall j key, keys !! j = Some key ->
       exists p, projections !! (index + j)%nat = Some p /\
                 vertex_coordinates mesh key = inr p) ->
    own_position mesh key_xyz ->
    append_projections projections index keys key_xyz = inr key_xyz' ->
    own_position mesh key_xyz'.
Proof.
  induction keys as [|key keys IH]; simpl; intros index key_xyz key_xyz' Hal Hown H.
  - inversion H; now subst.
  - unfold bucket, list_get in H.
    destruct (key_xyz !! key) as [b |] eqn:Hb; simpl in H; [| discriminate].
    destruct (projections !! index) as [p |] eqn:Hp; simpl in H; [| discriminate].
    apply IH in H; [exact H | |].
    + intros j k Hj. destruct (Hal (S j) k Hj) as [q [Hq1 Hq2]].
      exists q. split; [| exact Hq2]. rewrite <- Hq1. f_equal. lia.
    + intros k b' q Hk Hq. destruct (decide (key = k)) as [-> | Hne].
      * rewrite lookup_insert_eq in Hk. inversion Hk; subst.
        apply elem_of_app in Hq as [Hq | Hq].
        -- now apply (Hown k b q).
        -- apply list_elem_of_singleton in Hq. subst.
           destruct (Hal 0%nat k eq_refl) as [q' [Hq1 Hq2]].
           rewrite Nat.add_0_r in Hq1. congruence.
      * rewrite lookup_insert_ne in Hk by done. now apply (Hown k b' q).
Qed.

Lemma project_face_own mesh fkey key_xyz key_xyz' :
  (forall points plane,
     face_coordinates mesh fkey = inr points ->
     bestfit_plane_from_points points = inr plane ->
     project_points_plane points plane = inr points) ->
  own_position mesh key_xyz ->
  project_face mesh fkey key_xyz = inr key_xyz' ->
  own_position mesh key_xyz'.
Proof.
  intros Hplanar Hown H. unfold project_face in H.
  destruct (face_coordinates mesh fkey) as [e | points] eqn:Hpts; simpl in H; [discriminate |].
  destruct (bestfit_plane_from_points points) as [e | plane] eqn:Hfit; simpl in H;
    [discriminate |].
  rewrite (Hplanar points plane eq_refl Hfit) in H. simpl in H.
  unfold face_coordinates in Hpts.
  destruct (face_vertices mesh fkey) as [e | keys]; simpl in *; [discriminate |].
  eapply append_projections_own; [| exact Hown | exact H].
  intros j key Hj. simpl. now apply (mapM_lookup _ _ _ Hpts).
Qed.

Lemma project_faces_own mesh fkeys :
  forall key_xyz key_xyz',
    (forall fkey points plane,
       fkey ∈ fkeys ->
       face_coordinates mesh fkey = inr points ->
       bestfit_plane_from_points points = inr plane ->
       project_points_plane points plane = inr points) ->
    own_position mesh key_xyz ->
    project_faces mesh fkeys key_xyz = inr key_xyz' ->
    own_position mesh key_xyz'.
Proof.
  induction fkeys as [|fkey fkeys IH]; simpl; intros key_xyz key_xyz' Hplanar Hown H.
  - inversion H; now subst.
  - destruct (project_face mesh fkey key_xyz) as [e | key_xyz1] eqn:H1; simpl in H;
      [discriminate |].
    apply (IH key_xyz1 key_xyz'); [| | exact H].
    + intros fk points plane Hin. apply Hplanar. now apply list_elem_of_further.
    + apply (project_face_own mesh fkey key_xyz key_xyz1); [| exact Hown | exact H1].
      intros points plane. apply Hplanar. apply list_elem_of_here.
Qed.
(** The face pass only writes to the buckets of the keys of the faces. *)
Lemma append_projections_frame projections keys key :
  key ∉ keys ->
  forall index key_xyz key_xyz',
    append_projections projections index keys key_xyz = inr key_xyz' ->
    key_xyz' !! key = key_xyz !! key.
Proof.
  induction keys as [|k keys IH]; simpl; intros Hnot index key_xyz key_xyz' H.
  - now inversion H.
  - apply not_elem_of_cons in Hnot as [Hne Hnot].
    destruct (bucket key_xyz k) as [e | b]; simpl in H; [discriminate |].
    destruct (list_get projections index) as [e | p]; simpl in H; [discriminate |].
    rewrite (IH Hnot _ _ _ H). now apply lookup_insert_ne.
Qed.

Lemma project_faces_frame mesh key fkeys :
  isolated mesh key ->
  forall key_xyz key_xyz',
    project_faces mesh fkeys key_xyz = inr key_xyz' ->
    key_xyz' !! key = key_xyz !! key.
Proof.
  intros Hiso. induction fkeys as [|fkey fkeys IH]; simpl; intros key_xyz key_xyz' H.
  - now inversion H.
  - destruct (project_face mesh fkey key_xyz) as [e | key_xyz1] eqn:H1; simpl in H;
      [discriminate |].
    rewrite (IH _ _ H). unfold project_face in H1.
    destruct (face_coordinates mesh fkey) as [e | points]; simpl in H1; [discriminate |].
    destruct (bestfit_plane_from_points points) as [e | plane]; simpl in H1; [discriminate |].
    destruct (project_points_plane points plane) as [e | projections]; simpl in H1;
      [discriminate |].
    destruct (face_vertices mesh fkey) as [e | keys] eqn:Hkeys; simpl in H1; [discriminate |].
    apply (append_projections_frame _ keys key (Hiso fkey keys Hkeys) _ _ _ H1).
Qed.

Lemma empty_buckets_vertex mesh key :
  key ∈ vertices mesh -> empty_buckets mesh !! key = Some [].
Proof.
  intros Hin. unfold empty_buckets. apply elem_of_list_to_map_1'.
  - intros b Hb. apply list_elem_of_fmap in Hb as [k [Heq _]]. now inversion Heq.
  - apply list_elem_of_fmap. now exists key.
Qed.
End FacePass.

(** ** One iteration and the loop *)

Section Iteration.
Context {F : Type} {G : Geometry F}.
Implicit Types (mesh : Mesh F) (fixed : gset Z).

Lemma planarize_iteration_fixed fixed mesh key :
  key ∈ fixed ->
  vertex_coordinates (planarize_iteration fixed mesh).1 key = vertex_coordinates mesh key.
Proof.
  intros Hfix. unfold planarize_iteration.
  destruct (project_faces mesh (faces mesh) (empty_buckets mesh)) as [e | key_xyz];
    [reflexivity |].
  pose proof (update_vertices_fixed fixed key_xyz (vertex mesh) key Hfix) as H.
  destruct (update_vertices fixed key_xyz (vertex mesh)) as [vs r]; simpl in *.
  unfold vertex_coordinates, getitem; simpl. now rewrite H.
Qed.

Lemma planarize_iteration_faces fixed mesh :
  face (planarize_iteration fixed mesh).1 = face mesh.
Proof.
  unfold planarize_iteration.
  destruct (project_faces mesh (faces mesh) (empty_buckets mesh)) as [e | key_xyz];
    [reflexivity |].
  now destruct (update_vertices fixed key_xyz (vertex mesh)).
Qed.

Lemma planarize_iteration_keys fixed mesh :
  vertices (planarize_iteration fixed mesh).1 = vertices mesh.
Proof.
  unfold planarize_iteration.
  destruct (project_faces mesh (faces mesh) (empty_buckets mesh)) as [e | key_xyz];
    [reflexivity |].
  pose proof (update_vertices_keys fixed key_xyz (vertex mesh)) as H.
  now destruct (update_vertices fixed key_xyz (vertex mesh)).
Qed.

(** An iteration that completes has moved every vertex that is not fixed to
    the centroid of the projections collected for it. *)
Lemma planarize_iteration_centroid fixed mesh mesh' :
  planarize_iteration fixed mesh = (mesh', inr tt) ->
  exists key_xyz,
    project_faces mesh (faces mesh) (empty_buckets mesh) = inr key_xyz /\
    Forall2 (centroid_update fixed key_xyz) (vertex mesh) (vertex mesh').
Proof.
  unfold planarize_iteration. intros H.
  destruct (project_faces mesh (faces mesh) (empty_buckets mesh)) as [e | key_xyz];
    [discriminate |].
  exists key_xyz. split; [reflexivity |].
  destruct (update_vertices fixed key_xyz (vertex mesh)) as [vs r] eqn:Hvs.
  inversion H; subst. now apply update_vertices_centroid.
Qed.

(** An iteration over a mesh with an isolated vertex that is not fixed raises. *)
Lemma planarize_iteration_isolated fixed mesh key e :
  centroid_points ([] : list (Point F)) = inl e ->
  key ∈ vertices mesh -> key ∉ fixed -> isolated mesh key ->
  exists e', (planarize_iteration fixed mesh).2 = inl e'.
Proof.
  intros Hempty Hin Hfree Hiso. unfold planarize_iteration.
  destruct (project_faces mesh (faces mesh) (empty_buckets mesh)) as [e1 | key_xyz] eqn:Hpass;
    [now exists e1 |].
  assert (key_xyz !! key = Some []) as Hb.
  { rewrite (project_faces_frame mesh key _ Hiso _ _ Hpass). now apply empty_buckets_vertex. }
  destruct (update_vertices_empty_bucket fixed key_xyz (vertex mesh) key e Hempty Hin Hfree Hb)
    as [e' He'].
  destruct (update_vertices fixed key_xyz (vertex mesh)) as [vs r]; simpl in *. now exists e'.
Qed.

(** On planar faces an iteration writes every position back as it was. *)
Lemma planarize_iteration_planar fixed mesh :
  unique_vertex_keys mesh -> planar_faces mesh ->
  centroid_of_copies mesh -> centroid_of_nothing_fails ->
  (planarize_iteration fixed mesh).1 = mesh.
Proof.
  intros Hnd Hplanar Hcopies Hempty. unfold planarize_iteration.
  destruct (project_faces mesh (faces mesh) (empty_buckets mesh)) as [e | key_xyz] eqn:Hpass;
    [reflexivity |].
  assert (own_position mesh key_xyz) as Hown.
  { apply (project_faces_own mesh (faces mesh) (empty_buckets mesh) key_xyz);
      [exact Hplanar | apply empty_buckets_own | exact Hpass]. }
  pose proof (update_vertices_same fixed key_xyz (vertex mesh) Hcopies Hempty) as H.
  destruct (update_vertices fixed key_xyz (vertex mesh)) as [vs r]; simpl in *.
  rewrite H; [now destruct mesh |].
  intros key xyz b p Hin Hb Hp.
  pose proof (Hown key b p Hb Hp) as Hpos.
  unfold vertex_coordinates, getitem in Hpos.
  rewrite (assoc_elem_of (vertex mesh) key xyz Hnd Hin) in Hpos. congruence.
Qed.
End Iteration.

Section LoopFacts.
Context {F : Type} {G : Geometry F} {A : Type}.
Implicit Types (mesh : Mesh F) (fixed : gset Z) (callback : PyObject F A).

Lemma invoke_preserves callback key mesh k (args : A) :
  callback_preserves callback key ->
  vertex_coordinates (invoke callback mesh k args).1 key = vertex_coordinates mesh key.
Proof.
  intros H. destruct callback as [| truth [f |]]; simpl; try reflexivity.
  now apply (H truth f).
Qed.

Lemma invoke_readonly callback mesh k (args : A) :
  callback_readonly callback -> (invoke callback mesh k args).1 = mesh.
Proof.
  intros H. destruct callback as [| truth [f |]]; simpl; try reflexivity.
  now apply (H truth f).
Qed.

Lemma planarize_loop_fixed fixed callback (args : A) key n :
  key ∈ fixed -> callback_preserves callback key ->
  forall k mesh,
    vertex_coordinates (planarize_loop fixed callback args n k mesh).1.1 key
    = vertex_coordinates mesh key.
Proof.
  intros Hfix Hcb. induction n as [|n IH]; simpl; intros k mesh; [reflexivity |].
  pose proof (planarize_iteration_fixed fixed mesh key Hfix) as Hit.
  destruct (planarize_iteration fixed mesh) as [mesh1 [e | u]]; simpl in *; [exact Hit |].
  destruct (truthy callback).
  - pose proof (invoke_preserves callback key mesh1 k args Hcb) as Hinv.
    destruct (invoke callback mesh1 k args) as [mesh2 [e | u']]; simpl in *.
    + congruence.
    + specialize (IH (k + 1) mesh2).
      destruct (planarize_loop fixed callback args n (k + 1) mesh2) as [[mesh3 log] r];
        simpl in *. congruence.
  - rewrite IH. exact Hit.
Qed.

Lemma planarize_loop_planar fixed callback (args : A) mesh n :
  unique_vertex_keys mesh -> planar_faces mesh ->
  centroid_of_copies mesh -> centroid_of_nothing_fails ->
  callback_readonly callback ->
  forall k, (planarize_loop fixed callback args n k mesh).1.1 = mesh.
Proof.
  intros Hnd Hplanar Hcopies Hempty Hcb. induction n as [|n IH]; simpl; intros k;
    [reflexivity |].
  pose proof (planarize_iteration_planar fixed mesh Hnd Hplanar Hcopies Hempty) as Hit.
  destruct (planarize_iteration fixed mesh) as [mesh1 [e | u]]; simpl in *; subst mesh1;
    [reflexivity |].
  destruct (truthy callback).
  - pose proof (invoke_readonly callback mesh k args Hcb) as Hinv.
    destruct (invoke callback mesh k args) as [mesh2 [e | u']]; simpl in *; subst mesh2.
    + reflexivity.
    + specialize (IH (k + 1)).
      now destruct (planarize_loop fixed callback args n (k + 1) mesh) as [[mesh3 log] r].
  - apply IH.
Qed.

(** The log of a run with a callable callback that is taken as supplied. *)
Lemma planarize_loop_log fixed f (args : A) n :
  forall k mesh,
    let run := planarize_loop fixed (PyObj true (Some f)) args n k mesh in
    log_chain fixed f args mesh k run.1.2 /\
    (length run.1.2 <= n)%nat /\
    (run.2 = inr tt -> length run.1.2 = n).
Proof.
  induction n as [|n IH]; simpl; intros k mesh; [now auto |].
  destruct (planarize_iteration fixed mesh) as [mesh1 [e | u]] eqn:Hit; simpl.
  - repeat split; [lia | discriminate].
  - destruct (f mesh1 k args) as [mesh2 [e | u']] eqn:Hf; simpl.
    + rewrite Hit. repeat split; [lia | discriminate].
    + specialize (IH (k + 1) mesh2). simpl in IH.
      destruct (planarize_loop fixed (PyObj true (Some f)) args n (k + 1) mesh2)
        as [[mesh3 log] r]; simpl in *.
      destruct IH as (Hchain & Hle & Hfull).
      rewrite Hit, Hf. simpl. repeat split; [exact Hchain | lia |].
      intros Hr. now rewrite Hfull.
Qed.

(** A callback that is not truthy is never looked at again. *)
Lemma planarize_loop_falsy fixed callback (args : A) n :
  truthy callback = false ->
  forall k mesh,
    planarize_loop fixed callback args n k mesh = planarize_loop fixed PyNone args n k mesh.
Proof.
  intros Hfalse. induction n as [|n IH]; simpl; intros k mesh; [reflexivity |].
  destruct (planarize_iteration fixed mesh) as [mesh1 [e | u]]; [reflexivity |].
  rewrite Hfalse. apply IH.
Qed.

Lemma planarize_loop_falsy_log fixed callback (args : A) n :
  truthy callback = false ->
  forall k mesh, (planarize_loop fixed callback args n k mesh).1.2 = [].
Proof.
  intros Hfalse. induction n as [|n IH]; simpl; intros k mesh; [reflexivity |].
  destruct (planarize_iteration fixed mesh) as [mesh1 [e | u]]; [reflexivity |].
  rewrite Hfalse. apply IH.
Qed.

Lemma log_chain_indices fixed f (args : A) log :
  forall mesh k,
    log_chain fixed f args mesh k log ->
    map fst log = map (fun i => k + Z.of_nat i) (seq 0 (length log)).
Proof.
  induction log as [|[k' mesh'] log IH]; simpl; intros mesh k H; [reflexivity |].
  destruct H as (-> & -> & H). f_equal; [lia |].
  rewrite (IH _ _ H). rewrite <- seq_shift, map_map.
  apply map_ext. intros i. lia.
Qed.
End LoopFacts.

(** ** The rational kernel *)

Module QKernelFacts.
Import QKernel.
Local Open Scope Q_scope.

(** Adding [m] copies of [p] to an accumulator, coordinate by coordinate. *)
Lemma fold_qadd_replicate (p : Point Q) (m : nat) :
  forall acc : Point Q,
    let r := fold_left qadd (replicate m p) acc in
    r.1.1 == acc.1.1 + inject_Z (Z.of_nat m) * p.1.1 /\
    r.1.2 == acc.1.2 + inject_Z (Z.of_nat m) * p.1.2 /\
    r.2 == acc.2 + inject_Z (Z.of_nat m) * p.2.
Proof.
  destruct p as [[x y] z]. induction m as [|m IH]; intros [[ax ay] az].
  - simpl. repeat split; ring.
  - specialize (IH (qadd (ax, ay, az) (x, y, z))).
    change (replicate (S m) (x, y, z)) with ((x, y, z) :: replicate m (x, y, z)).
    cbn [fold_left]. cbv zeta in IH |- *. destruct IH as (H1 & H2 & H3).
    cbn [fst snd qadd qmap2] in H1, H2, H3.
    rewrite Nat2Z.inj_succ. unfold Z.succ. rewrite inject_Z_plus.
    repeat split; cbn [fst snd];
      (etransitivity; [eassumption |]); rewrite Qred_correct; ring.
Qed.

Lemma centroid_replicate (p : Point Q) (n : nat) :
  reduced p -> centroid (replicate (S n) p) = inr p.
Proof.
  intros Hred. unfold centroid, qsum.
  change (replicate (S n) p) with (p :: replicate n p) at 1.
  rewrite length_replicate.
  pose proof (fold_qadd_replicate p (S n) qzero) as H.
  destruct (fold_left qadd (replicate (S n) p) qzero) as [[rx ry] rz].
  destruct p as [[x y] z]. simpl in H. destruct H as (H1 & H2 & H3).
  destruct Hred as (Hx & Hy & Hz). unfold qscale.
  assert (~ inject_Z (Z.of_nat (S n)) == 0) as Hnz.
  { unfold Qeq. simpl. lia. }
  assert (forall r c, Qred c = c ->
            r == 0 + inject_Z (Z.of_nat (S n)) * c ->
            Qred (r * / inject_Z (Z.of_nat (S n))) = c) as Hq.
  { intros r c Hc Hr. rewrite <- Hc. apply Qred_complete.
    rewrite Hr. field. exact Hnz. }
  f_equal. now rewrite (Hq rx x), (Hq ry y), (Hq rz z).
Qed.
End QKernelFacts.

(** ** mesh_planarize: the statements *)

Section PlanarizeStatements.
Context {F : Type} {G : Geometry F} {A : Type}.
Implicit Types (mesh : Mesh F) (fixed : option (list Z)) (callback : PyObject F A).

(** C1, against the claim.  For every mesh with a vertex that no face lists
    and that is not fixed, the bucket of that vertex is still empty when the
    vertex pass reaches it and is handed to [centroid_points]: when the
    centroid of nothing is an error, every call with [kmax >= 1] that passes
    the check of the callback raises in its first iteration, before any
    callback invocation. *)
Theorem isolated_vertex_raises mesh fixed (kmax : Z) (d : F) callback (args : A)
    (key : Z) (e : exn) :
  centroid_points ([] : list (Point F)) = inl e ->
  key ∈ vertices mesh -> key ∉ fixed_set fixed -> isolated mesh key ->
  1 <= kmax -> check_callback callback = inr tt ->
  exists mesh' e', mesh_planarize mesh fixed kmax d callback args = (mesh', [], inl e').
Proof.
  intros Hempty Hin Hfree Hiso Hk Hcheck. unfold mesh_planarize. rewrite Hcheck.
  destruct (Z.to_nat kmax) as [|n] eqn:Hn; [lia |]. simpl.
  destruct (planarize_iteration_isolated (fixed_set fixed) mesh key e Hempty Hin Hfree Hiso)
    as [e' He'].
  destruct (planarize_iteration (fixed_set fixed) mesh) as [mesh1 r]; simpl in He'. subst r.
  now exists mesh1, e'.
Qed.

(** At the smallest such mesh, one vertex and no face: the call raises the
    error of the centroid and the mesh is as it was. *)
Lemma lone_vertex_raises (key : Z) (xyz : Point F) (d : F) (args : A) (e : exn) :
  centroid_points ([] : list (Point F)) = inl e ->
  mesh_planarize (mkMesh [(key, xyz)] []) None 1 d (PyNone : PyObject F A) args
  = (mkMesh [(key, xyz)] [], [], inl e).
Proof.
  intros He. unfold mesh_planarize, fixed_set. simpl.
  unfold planarize_iteration, empty_buckets. simpl.
  destruct (decide (key ∈ (∅ : gset Z))) as [Hin | _]; [set_solver |].
  unfold bucket. rewrite lookup_insert_eq. now rewrite He.
Qed.

(** C2.  Fixed-vertex invariance: for every mesh, fixed set and [kmax], a
    key of the fixed set reads the same position after [mesh_planarize] as
    before the call, whether the call returns or raises, provided the
    callback itself, if there is one, leaves that position alone. *)
Theorem fixed_vertex_invariance mesh fixed (kmax : Z) (d : F) callback (args : A) (key : Z) :
  key ∈ fixed_set fixed ->
  callback_preserves callback key ->
  vertex_coordinates (mesh_planarize mesh fixed kmax d callback args).1.1 key
  = vertex_coordinates mesh key.
Proof.
  intros Hfix Hcb. unfold mesh_planarize.
  destruct (check_callback callback); [reflexivity |].
  now apply planarize_loop_fixed.
Qed.

(** Idempotence on planar input, for any kernel: when the projection of the
    corners of every face onto their own best-fit plane returns them
    unchanged and the centroid of identical contributions reproduces the
    contribution, [mesh_planarize] leaves the mesh exactly as it was.  The
    callback, if any, only observes. *)
Theorem planar_mesh_unchanged mesh fixed (kmax : Z) (d : F) callback (args : A) :
  unique_vertex_keys mesh ->
  planar_faces mesh ->
  centroid_of_copies mesh ->
  centroid_of_nothing_fails ->
  callback_readonly callback ->
  (mesh_planarize mesh fixed kmax d callback args).1.1 = mesh.
Proof.
  intros Hnd Hplanar Hcopies Hempty Hcb. unfold mesh_planarize.
  destruct (check_callback callback); [reflexivity |].
  now apply planarize_loop_planar.
Qed.

(** C4.  The damping factor is never applied: two runs that differ only in
    [d] end with the same mesh, the same callback invocations and the same
    outcome; and the position an iteration writes to a vertex that is not
    fixed is the centroid of the projections collected for it, unweighted and
    not blended with the position it had. *)
Theorem damping_factor_ignored mesh fixed (kmax : Z) (d1 d2 : F) callback (args : A) :
  mesh_planarize mesh fixed kmax d1 callback args
  = mesh_planarize mesh fixed kmax d2 callback args /\
  forall mesh1 mesh2,
    planarize_iteration (fixed_set fixed) mesh1 = (mesh2, inr tt) ->
    exists key_xyz,
      project_faces mesh1 (faces mesh1) (empty_buckets mesh1) = inr key_xyz /\
      Forall2 (centroid_update (fixed_set fixed) key_xyz) (vertex mesh1) (vertex mesh2).
Proof.
  split; [reflexivity |].
  intros mesh1 mesh2. apply planarize_iteration_centroid.
Qed.

(** C7, as amended.  A callable callback is invoked only when its truth
    value is true: the code guards the call with [if callback:].  It is then
    invoked once per iteration, after the position update of that iteration
    and before the next one, with the mesh, the iteration index and
    [callback_args], the indices counting up from 0; a call that returns
    normally has invoked it exactly [kmax] times, with the indices
    [0, ..., kmax - 1] in increasing order.  A callable callback whose truth
    value is false is never invoked. *)
Theorem callback_once_per_iteration mesh fixed (kmax : Z) (d : F) (truth : bool)
    (f : Mesh F -> Z -> A -> Mesh F * result unit) (args : A)
    (mesh' : Mesh F) (log : Log F) (r : result unit) :
  mesh_planarize mesh fixed kmax d (PyObj truth (Some f)) args = (mesh', log, r) ->
  if truth then
    log_chain (fixed_set fixed) f args mesh 0 log /\
    map fst log = map Z.of_nat (seq 0 (length log)) /\
    (length log <= Z.to_nat kmax)%nat /\
    (r = inr tt ->
     length log = Z.to_nat kmax /\ map fst log = map Z.of_nat (seq 0 (Z.to_nat kmax)))
  else log = [].
Proof.
  unfold mesh_planarize. destruct truth; simpl; intros Hrun.
  - pose proof (planarize_loop_log (fixed_set fixed) f args (Z.to_nat kmax) 0 mesh) as H.
    simpl in H. rewrite Hrun in H. simpl in H. destruct H as (Hchain & Hle & Hfull).
    pose proof (log_chain_indices _ _ _ _ _ _ Hchain) as Hidx. simpl in Hidx.
    repeat split; try assumption.
    + now apply Hfull.
    + rewrite <- (Hfull H). exact Hidx.
  - pose proof (planarize_loop_falsy_log (fixed_set fixed) (PyObj false (Some f)) args
                  (Z.to_nat kmax) eq_refl 0 mesh) as H.
    now rewrite Hrun in H.
Qed.

(** C8, as amended.  A callback argument that is not callable is rejected
    before the loop when it is truthy: the call raises and the mesh is exactly
    as it was.  When it is not truthy it is taken for no callback at all. *)
Theorem truthy_invalid_callback_rejected mesh fixed (kmax : Z) (d : F) callback (args : A) :
  callable callback = false ->
  (truthy callback = true ->
   mesh_planarize mesh fixed kmax d callback args
   = (mesh, [], inl (Exception "The callback is not callable."%string))) /\
  (truthy callback = false ->
   mesh_planarize mesh fixed kmax d callback args
   = mesh_planarize mesh fixed kmax d PyNone args).
Proof.
  intros Hc. unfold mesh_planarize, check_callback. split; intros Ht; rewrite Ht.
  - now rewrite Hc.
  - simpl. now apply planarize_loop_falsy.
Qed.

(** C10.  With [kmax <= 0] the loop body never runs: the mesh is unchanged,
    the callback is not invoked, and the outcome is that of the check of the
    callback, so the call returns normally whenever that check passes. *)
Theorem no_iteration_when_kmax_nonpositive mesh fixed (kmax : Z) (d : F) callback (args : A) :
  kmax <= 0 ->
  mesh_planarize mesh fixed kmax d callback args = (mesh, [], check_callback callback) /\
  (check_callback callback = inr tt ->
   mesh_planarize mesh fixed kmax d callback args = (mesh, [], inr tt)).
Proof.
  intros Hk. unfold mesh_planarize.
  replace (Z.to_nat kmax) with 0%nat by lia.
  destruct (check_callback callback) as [e | []]; simpl; split; try reflexivity.
  discriminate.
Qed.
End PlanarizeStatements.

(** ** mesh_planarize_shapeop: the statement *)

Section ShapeOpStatements.
Context {F A : Type}.

(** C9.  With a callable callback, [mesh_planarize_shapeop] never invokes
    it: past the check the call is exactly the external solver applied to
    the mesh, the fixed set and [kmax], whatever [d], the callback and
    [callback_args] are. *)
Theorem shapeop_ignores_callback (shapeop : result (@Solver F)) (mesh : Mesh F)
    (fixed : option (list Z)) (kmax : Z) (d : F) (callback : PyObject F A) (args : A) :
  callable callback = true ->
  (mesh_planarize_shapeop shapeop mesh fixed kmax d callback args).1.2 = [] /\
  mesh_planarize_shapeop shapeop mesh fixed kmax d callback args
  = match shapeop with
    | inl e => (mesh, [], inl e)
    | inr planarize_mesh =>
        let '(mesh', r) := planarize_mesh mesh (fixed_set fixed) kmax in (mesh', [], r)
    end /\
  (forall (d' : F) (callback' : PyObject F A) (args' : A),
      callable callback' = true ->
      mesh_planarize_shapeop shapeop mesh fixed kmax d' callback' args'
      = mesh_planarize_shapeop shapeop mesh fixed kmax d callback args).
Proof.
  intros Hc.
  assert (forall cb : PyObject F A, callable cb = true -> check_callback cb = inr tt) as Hcheck.
  { intros cb H. unfold check_callback. rewrite H. now destruct (truthy cb). }
  unfold mesh_planarize_shapeop. rewrite (Hcheck callback Hc).
  destruct shapeop as [e | planarize_mesh]; simpl.
  - repeat split; reflexivity.
  - repeat split.
    + now destruct (planarize_mesh mesh (fixed_set fixed) kmax).
    + intros d' callback' args' Hc'. now rewrite (Hcheck callback' Hc').
Qed.
End ShapeOpStatements.

(** ** mesh_flatness: the corner triples *)

Section Window.
Context {A : Type}.
Implicit Types (l points : list A).

Lemma window3_lookup l :
  forall i a b c,
    l !! i = Some a -> l !! S i = Some b -> l !! S (S i) = Some c ->
    window3 l !! i = Some (a, b, c).
Proof.
  induction l as [|x l IH]; intros i a b c Ha Hb Hc; [discriminate |].
  destruct l as [|y [|z l']].
  - destruct i; discriminate.
  - destruct i as [|[|i]]; discriminate.
  - destruct i as [|i]; simpl in *; [congruence |].
    apply (IH i a b c); assumption.
Qed.

Lemma window3_length l : length (window3 l) = (length l - 2)%nat.
Proof.
  induction l as [|x l IH]; [reflexivity |].
  destruct l as [|y [|z l']]; try reflexivity.
  change (length (window3 (x :: y :: z :: l'))) with (S (length (window3 (y :: z :: l')))).
  rewrite IH. simpl. lia.
Qed.

(** Reading the corners followed by the first two of them wraps around. *)
Lemma wrap_lookup points j :
  (2 <= length points)%nat -> (j < length points + 2)%nat ->
  (points ++ take 2 points) !! j = points !! (j mod length points)%nat.
Proof.
  intros Hn Hj. destruct (Nat.lt_ge_cases j (length points)) as [Hlt | Hge].
  - rewrite lookup_app_l by exact Hlt. now rewrite Nat.mod_small.
  - rewrite lookup_app_r by exact Hge.
    rewrite lookup_take_lt by lia.
    f_equal. apply (Nat.mod_unique _ _ 1%nat); lia.
Qed.

Lemma omap_seq_lookup {B : Type} (f : nat -> option B) (l : list B) :
  forall s, (forall i, (i < length l)%nat -> f (s + i)%nat = l !! i) ->
            omap f (seq s (length l)) = l.
Proof.
  induction l as [|x l IH]; intros s H; [reflexivity |].
  simpl. pose proof (H 0%nat ltac:(simpl; lia)) as H0.
  rewrite Nat.add_0_r in H0. rewrite H0. simpl. f_equal.
  apply IH. intros i Hi. pose proof (H (S i) ltac:(simpl; lia)) as HS.
  simpl in HS. rewrite <- HS. f_equal. lia.
Qed.
End Window.

Section FlatnessStatements.
Context {F : Type} {G : Geometry F} {Sc : Scalar F} {V : VectorKernel F}.
Implicit Types (points : list (Point F)).

Lemma wrapped_triple points i :
  (2 <= length points)%nat -> (i < length points)%nat ->
  window3 (points ++ take 2 points) !! i = cyclic_triple points i /\
  exists a b c,
    cyclic_triple points i = Some (a, b, c) /\
    (points ++ take 2 points) !! S i = Some b.
Proof.
  intros Hn Hi. unfold cyclic_triple.
  pose proof (wrap_lookup points i Hn ltac:(lia)) as Ha.
  pose proof (wrap_lookup points (i + 1) Hn ltac:(lia)) as Hb.
  pose proof (wrap_lookup points (i + 2) Hn ltac:(lia)) as Hc.
  rewrite Nat.mod_small in Ha by exact Hi.
  destruct (lookup_lt_is_Some_2 points i Hi) as [a Hpa].
  destruct (lookup_lt_is_Some_2 points ((i + 1) mod length points)) as [b Hpb];
    [apply Nat.mod_upper_bound; lia |].
  destruct (lookup_lt_is_Some_2 points ((i + 2) mod length points)) as [c Hpc];
    [apply Nat.mod_upper_bound; lia |].
  rewrite Hpa in *. rewrite Hpb in *. rewrite Hpc in *.
  replace (i + 1)%nat with (S i) in Hb by lia.
  replace (i + 2)%nat with (S (S i)) in Hc by lia.
  split; [now apply window3_lookup | now exists a, b, c].
Qed.

Lemma wrapped_length points :
  (2 <= length points)%nat -> length (window3 (points ++ take 2 points)) = length points.
Proof.
  intros Hn. rewrite window3_length, length_app, length_take. lia.
Qed.

Lemma wrapped_triples points :
  (2 <= length points)%nat -> window3 (points ++ take 2 points) = cyclic_triples points.
Proof.
  intros Hn. unfold cyclic_triples. symmetry.
  rewrite <- (wrapped_length points Hn) at 1.
  apply omap_seq_lookup. intros i Hi. rewrite wrapped_length in Hi by exact Hn.
  symmetry. now apply wrapped_triple.
Qed.

Lemma wrapped_middles points :
  (2 <= length points)%nat ->
  map middle (window3 (points ++ take 2 points)) = drop 1 points ++ take 1 points.
Proof.
  intros Hn. apply list_eq. intros i.
  change (map middle (window3 (points ++ take 2 points)))
    with (middle <$> window3 (points ++ take 2 points)).
  rewrite list_lookup_fmap.
  destruct (Nat.lt_ge_cases i (length points)) as [Hlt | Hge].
  - destruct (wrapped_triple points i Hn Hlt) as (Hw & a & b & c & Ht & Hb).
    rewrite Hw, Ht. simpl. unfold middle. simpl. rewrite <- Hb.
    destruct (Nat.lt_ge_cases (S i) (length points)) as [Hlt' | Hge'].
    + rewrite lookup_app_l by exact Hlt'.
      rewrite lookup_app_l by (rewrite length_drop; lia).
      now rewrite lookup_drop.
    + rewrite lookup_app_r by exact Hge'.
      rewrite lookup_app_r by (rewrite length_drop; lia).
      rewrite length_drop.
      replace (S i - length points)%nat with 0%nat by lia.
      replace (i - (length points - 1))%nat with 0%nat by lia.
      now rewrite !lookup_take_lt by lia.
  - rewrite (lookup_ge_None_2 (window3 _)) by (rewrite wrapped_length; assumption).
    simpl. symmetry. apply lookup_ge_None_2.
    rewrite length_app, length_drop, length_take. lia.
Qed.

Lemma mapM_ext_in {X Y : Type} (f g : X -> result Y) (l : list X) :
  (forall x, x ∈ l -> f x = g x) -> mapM f l = mapM g l.
Proof.
  induction l as [|x l IH]; simpl; intros H; [reflexivity |].
  rewrite (H x (list_elem_of_here _ _)), IH; [reflexivity |].
  intros y Hy. apply H. now apply list_elem_of_further.
Qed.

(** The body of the loop, for one face with [n] corners (at least two): the
    triples walked are the [n] cyclic triples, each corner being the middle
    of exactly one of them, and the deviation is the one of section 4.2. *)
Lemma face_deviation_is_mean_cyclic_angle points :
  (2 <= length points)%nat ->
  comparable_dots points ->
  let triples := window3 (points ++ take 2 points) in
  triples = cyclic_triples points /\
  length triples = length points /\
  map middle triples = drop 1 points ++ take 1 points /\
  face_deviation points = spec_face_deviation points.
Proof.
  intros Hn Hcmp triples.
  split; [now apply wrapped_triples |].
  split; [now apply wrapped_length |].
  split; [now apply wrapped_middles |].
  unfold face_deviation, spec_face_deviation.
  destruct (bestfit_plane_from_points points) as [e | [base normal]] eqn:Hfit; simpl;
    [reflexivity |].
  assert (mapM (corner_angle normal) (window3 (points ++ take 2 points))
          = mapM (spec_corner_angle normal) (cyclic_triples points)) as ->.
  { rewrite <- wrapped_triples by exact Hn. apply mapM_ext_in.
    intros [[a b] c] Ht. unfold corner_angle, spec_corner_angle.
    pose proof (Hcmp (base, normal) a b c Hfit Ht) as Hle. simpl in Hle.
    rewrite Hle. now destruct (gt _ _). }
  destruct (mapM (spec_corner_angle normal) (cyclic_triples points)) as [e | angles] eqn:Hm;
    simpl; [reflexivity |].
  unfold mean. rewrite (mapM_length _ _ _ Hm).
  rewrite <- wrapped_triples by exact Hn. now rewrite wrapped_length.
Qed.

Lemma flatness_loop_is_spec (mesh : Mesh F) (fkeys : list Z) :
  (forall fkey points,
     fkey ∈ fkeys -> face_coordinates mesh fkey = inr points ->
     face_deviation points = spec_face_deviation points) ->
  forall dev : gmap Z F,
    flatness_loop mesh fkeys dev
    = (entries <- mapM (fun fkey =>
                          points <- face_coordinates mesh fkey ;;
                          deviation <- spec_face_deviation points ;;
                          inr (fkey, deviation))
                       fkeys ;;
       inr (fold_left (fun dev entry => <[entry.1 := entry.2]> dev) entries dev)).
Proof.
  induction fkeys as [|fkey fkeys IH]; intros H dev; [reflexivity |].
  cbn [flatness_loop mapM].
  destruct (face_coordinates mesh fkey) as [e | points] eqn:Hpts; [reflexivity |].
  cbn [bind]. rewrite (H fkey points (list_elem_of_here _ _) Hpts).
  destruct (spec_face_deviation points) as [e | deviation]; [reflexivity |].
  cbn [bind]. rewrite IH by (intros k pts Hk; apply H; now apply list_elem_of_further).
  destruct (mapM _ fkeys) as [e | entries]; reflexivity.
Qed.

(** C5.  [mesh_flatness] computes what section 4.2 says: for every face,
    with its [n] corners read from the mesh, the triples walked are the [n]
    cyclic triples, each corner being the middle of exactly one of them (the
    middles are the corners rotated by one); the angle of a triple is the one
    between the local normal [cross(a - b, c - b)] and the best-fit normal,
    the latter negated when their dot product is [<= 0]; the deviation of the
    face is the sum of the [n] angles divided by [n]; and the result maps each
    face key to the deviation of its face, an error at a face being the error
    of the call.  Faces have at least two corners, and no dot product that is
    computed is a NaN. *)
Theorem flatness_is_mean_cyclic_angle (mesh : Mesh F) :
  (forall fkey points,
     fkey ∈ faces mesh -> face_coordinates mesh fkey = inr points ->
     (2 <= length points)%nat /\ comparable_dots points) ->
  mesh_flatness mesh = spec_mesh_flatness mesh /\
  forall fkey points,
    fkey ∈ faces mesh -> face_coordinates mesh fkey = inr points ->
    let triples := window3 (points ++ take 2 points) in
    triples = cyclic_triples points /\
    length triples = length points /\
    map middle triples = drop 1 points ++ take 1 points.
Proof.
  intros H. split.
  - unfold mesh_flatness, spec_mesh_flatness. apply flatness_loop_is_spec.
    intros fkey points Hin Hpts. destruct (H fkey points Hin Hpts) as [Hn Hcmp].
    apply (face_deviation_is_mean_cyclic_angle points Hn Hcmp).
  - intros fkey points Hin Hpts triples. destruct (H fkey points Hin Hpts) as [Hn Hcmp].
    destruct (face_deviation_is_mean_cyclic_angle points Hn Hcmp) as (H1 & H2 & H3 & _).
    now repeat split.
Qed.
End FlatnessStatements.

(** ** mesh_flatness over the exact real kernel *)

Module IdealFacts.
Import Ideal.
Local Open Scope R_scope.

Lemma rdot_self_nonneg (v : Vector R) : 0 <= rdot v v.
Proof. destruct v as [[x y] z]. unfold rdot. simpl. nra. Qed.

Lemma rdot_self_zero (v : Vector R) : rdot v v = 0 -> v = (0, 0, 0).
Proof.
  destruct v as [[x y] z]. unfold rdot. simpl. intros H.
  assert (x = 0) by nra. assert (y = 0) by nra. assert (z = 0) by nra. now subst.
Qed.

(** The angle with a zero-length vector is an error. *)
Lemma rangle_zero_length (u v : Vector R) :
  u = (0, 0, 0) -> rangle u v = inl ZeroLengthError.
Proof.
  intros ->. unfold rangle, rlength.
  replace (rdot (0, 0, 0) (0, 0, 0)) with 0 by (unfold rdot; simpl; ring).
  rewrite sqrt_0, Rmult_0_l.
  destruct (Req_dec_T 0 0) as [_ | H]; [reflexivity | contradiction].
Qed.

(** Two vectors that point the same way make the angle 0. *)
Lemma rangle_aligned (u v : Vector R) :
  rdot u u * rdot v v = rdot u v * rdot u v -> 0 < rdot u v -> rangle u v = inr 0.
Proof.
  intros Hcs Hpos. unfold rangle, rlength.
  assert (sqrt (rdot u u) * sqrt (rdot v v) = rdot u v) as Hlen.
  { rewrite <- sqrt_mult by apply rdot_self_nonneg.
    rewrite Hcs. apply sqrt_square. lra. }
  rewrite Hlen. destruct (Req_dec_T (rdot u v) 0) as [H0 | _]; [lra |].
  f_equal. replace (rdot u v / rdot u v) with 1 by (field; lra). apply acos_1.
Qed.

(** At a corner of a planar face the local normal is a multiple of the
    normal of the plane. *)
Lemma local_normal_parallel (plane : Plane R) (a b c : Point R) :
  on_plane plane a -> on_plane plane b -> on_plane plane c ->
  let n := rcross (rsub a b) (rsub c b) in
  rscale n (rdot plane.2 plane.2) = rscale plane.2 (rdot n plane.2).
Proof.
  destruct plane as [[[ox oy] oz] [[nx ny] nz]].
  destruct a as [[ax ay] az]. destruct b as [[bx by_] bz]. destruct c as [[cx cy] cz].
  unfold on_plane, rscale, rcross, rsub, rdot. simpl. intros Ha Hb Hc.
  assert ((ax - bx) * nx + (ay - by_) * ny + (az - bz) * nz = 0) as Hu by lra.
  assert ((cx - bx) * nx + (cy - by_) * ny + (cz - bz) * nz = 0) as Hv by lra.
  clear Ha Hb Hc.
  set (ux := ax - bx) in *. set (uy := ay - by_) in *. set (uz := az - bz) in *.
  set (vx := cx - bx) in *. set (vy := cy - by_) in *. set (vz := cz - bz) in *.
  set (un := ux * nx + uy * ny + uz * nz) in *.
  set (vn := vx * nx + vy * ny + vz * nz) in *.
  f_equal; [f_equal |].
  - replace ((uy * vz - uz * vy) * (nx * nx + ny * ny + nz * nz))
      with (nx * ((uy * vz - uz * vy) * nx + (uz * vx - ux * vz) * ny
                  + (ux * vy - uy * vx) * nz)
            + ny * (un * vz - vn * uz) - nz * (un * vy - vn * uy))
      by (unfold un, vn; ring).
    rewrite Hu, Hv. ring.
  - replace ((uz * vx - ux * vz) * (nx * nx + ny * ny + nz * nz))
      with (ny * ((uy * vz - uz * vy) * nx + (uz * vx - ux * vz) * ny
                  + (ux * vy - uy * vx) * nz)
            + nz * (un * vx - vn * ux) - nx * (un * vz - vn * uz))
      by (unfold un, vn; ring).
    rewrite Hu, Hv. ring.
  - replace ((ux * vy - uy * vx) * (nx * nx + ny * ny + nz * nz))
      with (nz * ((uy * vz - uz * vy) * nx + (uz * vx - ux * vz) * ny
                  + (ux * vy - uy * vx) * nz)
            + nx * (un * vy - vn * uy) - ny * (un * vx - vn * ux))
      by (unfold un, vn; ring).
    rewrite Hu, Hv. ring.
Qed.

Lemma rdot_negated (n N : Vector R) :
  rdot (rscale N (IZR (-1))) (rscale N (IZR (-1))) = rdot N N /\
  rdot n (rscale N (IZR (-1))) = - rdot n N.
Proof.
  destruct n as [[x y] z], N as [[p q] r]. unfold rdot, rscale. simpl. split; ring.
Qed.

(** At a corner of a planar face that is not collinear with its neighbours
    the angle is 0, whichever way the local normal points. *)
Lemma corner_angle_flat (plane : Plane R) (a b c : Point R) :
  on_plane plane a -> on_plane plane b -> on_plane plane c ->
  plane.2 <> (0, 0, 0) -> ~ collinear (a, b, c) ->
  corner_angle plane.2 (a, b, c) = inr 0.
Proof.
  intros Ha Hb Hc HN Hcol.
  pose proof (local_normal_parallel plane a b c Ha Hb Hc) as Hpar. cbv zeta in Hpar.
  unfold collinear in Hcol. simpl in Hcol.
  unfold corner_angle.
  cbn [subtract_vectors cross_vectors dot_vectors scale_vector angle_smallest_vectors
       gt of_int vectors scalar].
  set (n := rcross (rsub a b) (rsub c b)) in *.
  set (N := plane.2) in *.
  assert (0 < rdot N N) as HNN.
  { destruct (rdot_self_nonneg N) as [H | H]; [exact H |].
    symmetry in H. apply rdot_self_zero in H. contradiction. }
  destruct (rdot_negated n N) as [E1 E2].
  revert Hpar Hcol HNN E1 E2. generalize (rscale N (IZR (-1))). intros N'.
  destruct n as [[x y] z], N as [[p q] r]. unfold rscale at 1 2. simpl.
  set (NN := rdot (p, q, r) (p, q, r)). set (s := rdot (x, y, z) (p, q, r)).
  intros Hpar Hcol HNN E1 E2. inversion Hpar as [[H1 H2 H3]].
  assert (rdot (x, y, z) (x, y, z) * NN = s * s) as Hcs.
  { replace (rdot (x, y, z) (x, y, z) * NN)
      with (x * (x * NN) + y * (y * NN) + z * (z * NN)) by (unfold rdot; simpl; ring).
    rewrite H1, H2, H3. unfold s, rdot. simpl. ring. }
  assert (s <> 0) as Hs.
  { intros H0. apply Hcol. rewrite H0, Rmult_0_r in H1, H2, H3.
    apply Rmult_integral in H1 as [H1 | H1]; [| lra].
    apply Rmult_integral in H2 as [H2 | H2]; [| lra].
    apply Rmult_integral in H3 as [H3 | H3]; [| lra].
    now rewrite H1, H2, H3. }
  destruct (Rgt_dec s 0) as [Hpos | Hneg].
  - apply rangle_aligned; [exact Hcs | exact Hpos].
  - apply rangle_aligned.
    + rewrite E1, E2, Hcs. ring.
    + rewrite E2. lra.
Qed.

(** At a collinear corner there is no local normal and the angle raises. *)
Lemma corner_angle_collinear (normal : Vector R) (t : Point R * Point R * Point R) :
  collinear t -> corner_angle normal t = inl ZeroLengthError.
Proof.
  destruct t as [[a b] c]. unfold collinear, corner_angle. simpl. intros H.
  destruct (Rgt_dec _ _); now apply rangle_zero_length.
Qed.

Lemma cyclic_triple_corners (points : list (Point R)) (t : Point R * Point R * Point R) :
  t ∈ cyclic_triples points -> t.1.1 ∈ points /\ t.1.2 ∈ points /\ t.2 ∈ points.
Proof.
  unfold cyclic_triples. intros H. apply list_elem_of_omap in H as (i & _ & H).
  unfold cyclic_triple in H.
  destruct (points !! i) as [a |] eqn:Ha; [| discriminate].
  destruct (points !! ((i + 1) mod length points)%nat) as [b |] eqn:Hb; [| discriminate].
  destruct (points !! ((i + 2) mod length points)%nat) as [c |] eqn:Hc; [| discriminate].
  inversion H; subst; simpl.
  repeat split; eapply list_elem_of_lookup_2; eassumption.
Qed.

Lemma mapM_constant {A B : Type} (f : A -> result B) (y : B) (l : list A) :
  (forall a, a ∈ l -> f a = inr y) -> mapM f l = inr (replicate (length l) y).
Proof.
  induction l as [|a l IH]; intros H; simpl; [reflexivity |].
  rewrite (H a) by apply list_elem_of_here. simpl.
  rewrite IH; [reflexivity |]. intros a' Ha'. apply H. now apply list_elem_of_further.
Qed.

Lemma mean_of_zeros (n : nat) : mean (replicate (S n) 0) = inr 0.
Proof.
  unfold mean. rewrite length_replicate. f_equal. unfold sum.
  assert (forall m acc, fold_left add (replicate m 0) acc = acc) as Hfold.
  { induction m as [|m IH]; intros acc; simpl; [reflexivity |].
    rewrite IH. apply Rplus_0_r. }
  rewrite Hfold. simpl. unfold Rdiv. apply Rmult_0_l.
Qed.

(** The deviation of a planar face none of whose corners is collinear with
    its two neighbours. *)
Lemma face_deviation_flat (bestfit : list (Point R) -> result (Plane R))
    (points : list (Point R)) :
  (2 <= length points)%nat ->
  coplanar_face bestfit points ->
  (forall t, t ∈ cyclic_triples points -> ~ collinear t) ->
  face_deviation (G := geometry bestfit) points = inr 0.
Proof.
  intros Hn (plane & Hfit & Hnormal & Hon) Hcorners.
  unfold face_deviation. simpl. rewrite Hfit. simpl.
  destruct plane as [base normal]. rewrite wrapped_triples by exact Hn.
  rewrite (mapM_constant _ 0).
  - simpl. pose proof (wrapped_length points Hn) as Hlen.
    rewrite wrapped_triples in Hlen by exact Hn. rewrite Hlen.
    destruct (length points) as [|n]; [lia |]. apply mean_of_zeros.
  - intros [[a b] c] Ht.
    destruct (cyclic_triple_corners points _ Ht) as (Ha & Hb & Hc). simpl in *.
    apply (corner_angle_flat (base, normal) a b c); auto.
Qed.

Lemma flatness_loop_flat (bestfit : list (Point R) -> result (Plane R)) (mesh : Mesh R)
    (fkeys : list Z) :
  (forall fkey, fkey ∈ fkeys ->
     exists points, face_coordinates mesh fkey = inr points /\
                    face_deviation (G := geometry bestfit) points = inr 0) ->
  forall dev0 : gmap Z R,
  exists dev,
    flatness_loop (G := geometry bestfit) mesh fkeys dev0 = inr dev /\
    (forall k, k ∈ fkeys -> dev !! k = Some 0) /\
    (forall k, k ∉ fkeys -> dev !! k = dev0 !! k).
Proof.
  induction fkeys as [|fkey fkeys IH]; intros H dev0; simpl.
  - exists dev0. split; [reflexivity |].
    split; [intros k Hk; inversion Hk | reflexivity].
  - destruct (H fkey (list_elem_of_here _ _)) as (points & Hpts & Hdev).
    rewrite Hpts. simpl. rewrite Hdev. simpl.
    destruct (IH (fun k Hk => H k (list_elem_of_further _ _ _ Hk)) (<[fkey := 0]> dev0))
      as (dev & Hrun & Hin & Hout).
    exists dev. split; [exact Hrun |]. split.
    + intros k Hk. destruct (decide (k ∈ fkeys)) as [Hk' | Hk']; [now apply Hin |].
      apply elem_of_cons in Hk as [-> | Hk]; [| contradiction].
      rewrite (Hout fkey Hk'). apply lookup_insert_eq.
    + intros k Hk. apply not_elem_of_cons in Hk as [Hne Hk].
      rewrite (Hout k Hk). now apply lookup_insert_ne.
Qed.

(** A triangle whose corners are not collinear has no collinear corner. *)
Lemma triangle_corners (a b c : Point R) (t : Point R * Point R * Point R) :
  ~ collinear (a, b, c) -> t ∈ cyclic_triples [a; b; c] -> ~ collinear t.
Proof.
  intros Habc Ht Hcol. apply Habc.
  assert (t = (a, b, c) \/ t = (b, c, a) \/ t = (c, a, b)) as Hcases.
  { unfold cyclic_triples in Ht. simpl in Ht. unfold cyclic_triple in Ht. simpl in Ht.
    apply elem_of_cons in Ht as [-> | Ht]; [now left |].
    apply elem_of_cons in Ht as [-> | Ht]; [right; now left |].
    apply elem_of_cons in Ht as [-> | Ht]; [right; now right | inversion Ht]. }
  destruct a as [[ax ay] az], b as [[bx by_] bz], c as [[cx cy] cz].
  unfold collinear, rcross, rsub in *.
  destruct Hcases as [-> | [-> | ->]]; simpl in *; [exact Hcol | |];
    inversion Hcol as [[H1 H2 H3]]; f_equal; [f_equal | | f_equal |]; lra.
Qed.

(** Any three corners that are not collinear make a face of deviation 0. *)
Corollary triangle_deviation_zero (bestfit : list (Point R) -> result (Plane R))
    (a b c : Point R) :
  coplanar_face bestfit [a; b; c] -> ~ collinear (a, b, c) ->
  face_deviation (G := geometry bestfit) [a; b; c] = inr 0.
Proof.
  intros Hplane Hcol. apply face_deviation_flat; [simpl; lia | exact Hplane |].
  intros t. now apply triangle_corners.
Qed.

Lemma face_deviation_collinear (bestfit : list (Point R) -> result (Plane R))
    (a b c : Point R) (rest : list (Point R)) (plane : Plane R) :
  bestfit (a :: b :: c :: rest) = inr plane ->
  collinear (a, b, c) ->
  face_deviation (G := geometry bestfit) (a :: b :: c :: rest) = inl ZeroLengthError.
Proof.
  intros Hfit Hcol. unfold face_deviation.
  cbn [bestfit_plane_from_points geometry]. rewrite Hfit. destruct plane as [base normal].
  cbn [bind]. simpl (window3 _). cbn [mapM].
  now rewrite corner_angle_collinear.
Qed.

(** In exact arithmetic, when every face is exactly planar (its best-fit
    plane has a normal and contains its corners) and no corner is collinear
    with its two neighbours, [mesh_flatness] returns the deviation 0 for
    every face. *)
Lemma coplanar_mesh_is_flat (bestfit : list (Point R) -> result (Plane R))
    (mesh : Mesh R) :
  (forall fkey, fkey ∈ faces mesh ->
     exists points,
       face_coordinates mesh fkey = inr points /\ (2 <= length points)%nat /\
       coplanar_face bestfit points /\
       forall t, t ∈ cyclic_triples points -> ~ collinear t) ->
  exists dev,
    mesh_flatness (G := geometry bestfit) mesh = inr dev /\
    forall fkey, fkey ∈ faces mesh -> dev !! fkey = Some 0.
Proof.
  intros H. unfold mesh_flatness.
  destruct (flatness_loop_flat bestfit mesh (faces mesh)) with (dev0 := (∅ : gmap Z R))
    as (dev & Hrun & Hin & _).
  - intros fkey Hfkey. destruct (H fkey Hfkey) as (points & Hpts & Hn & Hplane & Hcorners).
    exists points. split; [exact Hpts |]. now apply face_deviation_flat.
  - exists dev. split; [exact Hrun | exact Hin].
Qed.

(** *** The best-fit plane of horizontal corners *)

Lemma rcovariance_horizontal (o : Point R) (points : list (Point R)) :
  (forall p, p ∈ points -> p.2 = o.2) ->
  exists xx xy yy, rcovariance o points = (xx, xy, 0, yy, 0, 0).
Proof.
  unfold rcovariance.
  match goal with |- context [fold_left ?F _ _] => set (step := F) end.
  intros H.
  assert (Hgen : forall xx xy yy,
             exists xx' xy' yy',
               fold_left step points (xx, xy, 0, yy, 0, 0) = (xx', xy', 0, yy', 0, 0)).
  { induction points as [|p points IH]; intros xx xy yy; [now exists xx, xy, yy |].
    cbn [fold_left].
    assert (Hz : (rsub p o).2 = 0).
    { unfold rsub. cbn [snd]. rewrite (H p (list_elem_of_here _ _)). ring. }
    unfold step at 2. cbv beta iota zeta. rewrite Hz. rewrite !Rmult_0_r, !Rplus_0_r.
    apply IH. intros q Hq. apply H. now apply list_elem_of_further. }
  apply Hgen.
Qed.

Lemma rnormalize_vertical : rnormalize (0, 0, 1) = (0, 0, 1).
Proof.
  unfold rnormalize, rlength, rdot, rscale. cbn [fst snd].
  replace (0 * 0 + 0 * 0 + 1 * 1) with 1 by ring. rewrite sqrt_1.
  f_equal; [f_equal |]; field.
Qed.

(** Three or more corners at one height that, seen from above, do not lie
    on one line: their best-fit plane is the horizontal plane through their
    centroid. *)
Lemma bestfit_horizontal (points : list (Point R)) (base : Point R) :
  (3 <= length points)%nat ->
  rcentroid points = inr base ->
  (forall p, p ∈ points -> p.2 = base.2) ->
  0 < rminor_z base points ->
  bestfit points = inr (base, (0, 0, 1)).
Proof.
  intros Hn Hbase Hflat Hminor. unfold bestfit.
  destruct (Nat.ltb_spec (length points) 3) as [Hlt | _]; [lia |].
  rewrite Hbase. cbn [bind]. unfold rminor_z in Hminor.
  destruct (rcovariance_horizontal base points Hflat) as (xx & xy & yy & Hcov).
  rewrite Hcov in *.
  replace (yy * 0 - 0 * 0) with 0 by ring.
  replace (xx * 0 - 0 * 0) with 0 by ring.
  rewrite (Rmax_left 0 0) by lra. rewrite Rmax_right by lra.
  destruct (Req_dec_T (xx * yy - xy * xy) 0) as [H0 | _]; [lra |].
  destruct (Req_dec_T (xx * yy - xy * xy) 0) as [H0 | _]; [lra |].
  f_equal. f_equal.
  replace ((0 * xy - 0 * yy) / (xx * yy - xy * xy)) with 0 by (field; lra).
  replace ((0 * xy - 0 * xx) / (xx * yy - xy * xy)) with 0 by (field; lra).
  apply rnormalize_vertical.
Qed.

Lemma bestfit_triangle :
  bestfit [(0, 0, 0); (1, 0, 0); (0, 1, 0)] = inr ((1 / 3, 1 / 3, 0), (0, 0, 1)).
Proof.
  apply bestfit_horizontal.
  - simpl. lia.
  - unfold rcentroid, rscale, radd. simpl. f_equal. f_equal; [f_equal |]; lra.
  - intros p Hp. repeat (apply elem_of_cons in Hp as [-> | Hp]; [reflexivity |]). inversion Hp.
  - unfold rminor_z, rcovariance, rsub. simpl. lra.
Qed.

Lemma bestfit_pentagon :
  bestfit [(0, 0, 0); (1, 0, 0); (2, 0, 0); (2, 2, 0); (0, 2, 0)]
  = inr (pentagon_centroid, (0, 0, 1)).
Proof.
  apply bestfit_horizontal.
  - simpl. lia.
  - unfold rcentroid, rscale, radd, pentagon_centroid. simpl.
    f_equal. f_equal; [f_equal |]; lra.
  - intros p Hp. repeat (apply elem_of_cons in Hp as [-> | Hp]; [reflexivity |]). inversion Hp.
  - unfold rminor_z, rcovariance, rsub, pentagon_centroid. simpl. lra.
Qed.

(** *** The best-fit plane of coplanar points *)

Lemma rdot_sub (p q n : Vector R) : rdot (rsub p q) n = rdot p n - rdot q n.
Proof. unfold rdot, rsub. cbn [fst snd]. ring. Qed.

Lemma rdot_scale (r N : Vector R) (s : R) : rdot r (rscale N s) = s * rdot r N.
Proof. unfold rdot, rscale. cbn [fst snd]. ring. Qed.

Lemma rsum_dot (n : Vector R) (k : R) (points : list (Point R)) :
  (forall p, p ∈ points -> rdot p n = k) ->
  forall acc, rdot (fold_left radd points acc) n = rdot acc n + INR (length points) * k.
Proof.
  induction points as [|p points IH]; intros H acc.
  - simpl. ring.
  - cbn [fold_left]. rewrite IH by (intros q Hq; apply H; now apply list_elem_of_further).
    change (length (p :: points)) with (S (length points)). rewrite S_INR.
    rewrite <- (H p (list_elem_of_here _ _)). unfold rdot, radd. cbn [fst snd]. ring.
Qed.

Lemma rcentroid_inr (points : list (Point R)) (c : Point R) :
  rcentroid points = inr c ->
  points <> [] /\
  c = rscale (fold_left radd points (0, 0, 0)) (/ INR (length points)).
Proof.
  destruct points as [|p points]; [discriminate |]. intros H.
  split; [discriminate |]. unfold rcentroid in H. now inversion H.
Qed.

(** The centroid of points of a plane lies on the plane, so that every
    point is on the parallel plane through the centroid. *)
Lemma centroid_on_plane (base normal c : Vector R) (points : list (Point R)) :
  (forall p, p ∈ points -> on_plane (base, normal) p) ->
  rcentroid points = inr c ->
  forall p, p ∈ points -> rdot (rsub p c) normal = 0.
Proof.
  intros Hon Hc p Hp.
  assert (Hk : forall q, q ∈ points -> rdot q normal = rdot base normal).
  { intros q Hq. pose proof (Hon q Hq) as H. unfold on_plane in H. cbn [fst snd] in H.
    rewrite rdot_sub in H. lra. }
  destruct (rcentroid_inr points c Hc) as [Hne ->].
  pose proof (rsum_dot normal _ points Hk (0, 0, 0)) as Hsum.
  set (total := fold_left radd points (0, 0, 0)) in *.
  assert (Hn : INR (length points) <> 0)
    by (apply not_0_INR; destruct points; [contradiction | discriminate]).
  set (m := INR (length points)) in *.
  rewrite rdot_sub, (Hk p Hp).
  assert (rdot (rscale total (/ m)) normal = rdot base normal) as ->; [| ring].
  unfold rdot, rscale in *. cbn [fst snd] in *.
  replace (total.1.1 * / m * normal.1.1 + total.1.2 * / m * normal.1.2
           + total.2 * / m * normal.2)
    with ((total.1.1 * normal.1.1 + total.1.2 * normal.1.2 + total.2 * normal.2) * / m)
    by ring.
  rewrite Hsum. field. exact Hn.
Qed.

Lemma rcovariance_annihilated (o n : Vector R) (points : list (Point R)) :
  (forall p, p ∈ points -> rdot (rsub p o) n = 0) ->
  exists xx xy xz yy yz zz,
    rcovariance o points = (xx, xy, xz, yy, yz, zz) /\
    n.1.1 * xx + n.1.2 * xy + n.2 * xz = 0 /\
    n.1.1 * xy + n.1.2 * yy + n.2 * yz = 0 /\
    n.1.1 * xz + n.1.2 * yz + n.2 * zz = 0.
Proof.
  unfold rcovariance.
  match goal with |- context [fold_left ?F _ _] => set (step := F) end.
  intros H.
  assert (Hgen : forall xx xy xz yy yz zz,
             n.1.1 * xx + n.1.2 * xy + n.2 * xz = 0 ->
             n.1.1 * xy + n.1.2 * yy + n.2 * yz = 0 ->
             n.1.1 * xz + n.1.2 * yz + n.2 * zz = 0 ->
             exists xx' xy' xz' yy' yz' zz',
               fold_left step points (xx, xy, xz, yy, yz, zz)
               = (xx', xy', xz', yy', yz', zz') /\
               n.1.1 * xx' + n.1.2 * xy' + n.2 * xz' = 0 /\
               n.1.1 * xy' + n.1.2 * yy' + n.2 * yz' = 0 /\
               n.1.1 * xz' + n.1.2 * yz' + n.2 * zz' = 0).
  { induction points as [|p points IH]; intros xx xy xz yy yz zz H1 H2 H3.
    - exists xx, xy, xz, yy, yz, zz. now repeat split.
    - cbn [fold_left]. unfold step at 2. cbv beta iota zeta.
      pose proof (H p (list_elem_of_here _ _)) as Hp.
      unfold rdot in Hp. set (r := rsub p o) in *.
      apply IH.
      + intros q Hq. apply H. now apply list_elem_of_further.
      + replace (n.1.1 * (xx + r.1.1 * r.1.1) + n.1.2 * (xy + r.1.1 * r.1.2)
                 + n.2 * (xz + r.1.1 * r.2))
          with (n.1.1 * xx + n.1.2 * xy + n.2 * xz
                + r.1.1 * (r.1.1 * n.1.1 + r.1.2 * n.1.2 + r.2 * n.2)) by ring.
        rewrite H1, Hp. ring.
      + replace (n.1.1 * (xy + r.1.1 * r.1.2) + n.1.2 * (yy + r.1.2 * r.1.2)
                 + n.2 * (yz + r.1.2 * r.2))
          with (n.1.1 * xy + n.1.2 * yy + n.2 * yz
                + r.1.2 * (r.1.1 * n.1.1 + r.1.2 * n.1.2 + r.2 * n.2)) by ring.
        rewrite H2, Hp. ring.
      + replace (n.1.1 * (xz + r.1.1 * r.2) + n.1.2 * (yz + r.1.2 * r.2)
                 + n.2 * (zz + r.2 * r.2))
          with (n.1.1 * xz + n.1.2 * yz + n.2 * zz
                + r.2 * (r.1.1 * n.1.1 + r.1.2 * n.1.2 + r.2 * n.2)) by ring.
        rewrite H3, Hp. ring. }
  apply Hgen; ring.
Qed.

Lemma rnormalize_nonzero (N : Vector R) : N <> (0, 0, 0) -> rnormalize N <> (0, 0, 0).
Proof.
  intros HN Hzero. apply HN.
  assert (Hlen : rlength N <> 0).
  { unfold rlength. intros H0. apply sqrt_eq_0 in H0; [| apply rdot_self_nonneg].
    now apply HN, rdot_self_zero. }
  unfold rnormalize, rscale in Hzero. destruct N as [[x y] z]. cbn [fst snd] in Hzero.
  injection Hzero as Hx Hy Hz.
  assert (Hinv : / rlength (x, y, z) <> 0) by now apply Rinv_neq_0_compat.
  f_equal; [f_equal |].
  - destruct (Rmult_integral _ _ Hx) as [H | H]; [exact H | contradiction].
  - destruct (Rmult_integral _ _ Hy) as [H | H]; [exact H | contradiction].
  - destruct (Rmult_integral _ _ Hz) as [H | H]; [exact H | contradiction].
Qed.

(** A plane whose normal is a multiple of [N] contains what the plane with
    the normalised [N] contains. *)
Lemma parallel_on_plane (n N r : Vector R) (s : R) :
  n = rscale N s -> n <> (0, 0, 0) -> rdot r n = 0 -> rdot r (rnormalize N) = 0.
Proof.
  intros -> Hn Hr. rewrite rdot_scale in Hr. unfold rnormalize. rewrite rdot_scale.
  destruct (Rmult_integral _ _ Hr) as [Hs | H0]; [| rewrite H0; ring].
  exfalso. apply Hn. subst s. unfold rscale. f_equal; [f_equal |]; ring.
Qed.

Lemma parallel_nonzero (n N : Vector R) (s : R) :
  n = rscale N s -> n <> (0, 0, 0) -> N <> (0, 0, 0).
Proof.
  intros -> Hn HN. apply Hn. rewrite HN. unfold rscale. cbn [fst snd].
  f_equal; [f_equal |]; ring.
Qed.

Lemma solve_ratio (n1 n2 num det : R) :
  det <> 0 -> n2 * det = n1 * num -> n2 = num / det * n1.
Proof.
  intros Hdet H. apply (Rmult_eq_reg_r det); [| exact Hdet]. rewrite H. field. exact Hdet.
Qed.

(** The plane [bestfit] returns for coplanar points is their plane: it has a
    normal and contains every one of them. *)
Lemma bestfit_contains (points : list (Point R)) (plane : Plane R) :
  coplanar points ->
  bestfit points = inr plane ->
  coplanar_face bestfit points.
Proof.
  intros (base & n & Hn & Hon) Hfit. exists plane. split; [exact Hfit |].
  unfold bestfit in Hfit.
  destruct (length points <? 3)%nat; [discriminate |].
  destruct (rcentroid points) as [e | c] eqn:Hc; [discriminate |]. cbn [bind] in Hfit.
  pose proof (centroid_on_plane base n c points Hon Hc) as Hr.
  destruct (rcovariance_annihilated c n points Hr)
    as (xx & xy & xz & yy & yz & zz & Hcov & R1 & R2 & R3).
  rewrite Hcov in Hfit. cbv beta iota zeta in Hfit.
  destruct n as [[nx ny] nz]. cbn [fst snd] in R1, R2, R3.
  pose proof (f_equal (Rmult xx) R2) as Hxx2. pose proof (f_equal (Rmult xx) R3) as Hxx3.
  pose proof (f_equal (Rmult xy) R1) as Hxy1. pose proof (f_equal (Rmult xy) R2) as Hxy2.
  pose proof (f_equal (Rmult xz) R1) as Hxz1. pose proof (f_equal (Rmult xz) R3) as Hxz3.
  pose proof (f_equal (Rmult yy) R1) as Hyy1. pose proof (f_equal (Rmult yy) R3) as Hyy3.
  pose proof (f_equal (Rmult yz) R2) as Hyz2. pose proof (f_equal (Rmult yz) R3) as Hyz3.
  pose proof (f_equal (Rmult zz) R1) as Hzz1. pose proof (f_equal (Rmult zz) R2) as Hzz2.
  destruct (Req_dec_T (Rmax (Rmax (yy * zz - yz * yz) (xx * zz - xz * xz))
                            (xx * yy - xy * xy)) 0) as [? | Hmax]; [discriminate |].
  assert (Hcases : forall N s,
             (nx, ny, nz) = rscale N s ->
             plane = (c, rnormalize N) ->
             plane.2 <> (0, 0, 0) /\ forall p, p ∈ points -> on_plane plane p).
  { intros N s HN ->. cbn [fst snd]. split.
    - apply rnormalize_nonzero. exact (parallel_nonzero _ _ _ HN Hn).
    - intros p Hp. unfold on_plane. cbn [fst snd].
      exact (parallel_on_plane _ _ _ _ HN Hn (Hr p Hp)). }
  destruct (Req_dec_T (Rmax (Rmax (yy * zz - yz * yz) (xx * zz - xz * xz))
                            (xx * yy - xy * xy)) (yy * zz - yz * yz)) as [Hx | Hx].
  - inversion Hfit as [Hplane]. subst plane. rewrite Hx in Hmax.
    eapply (Hcases _ nx); [| reflexivity].
    unfold rscale. cbn [fst snd]. f_equal; [f_equal |].
    + ring.
    + apply solve_ratio; [exact Hmax | lra].
    + apply solve_ratio; [exact Hmax | lra].
  - destruct (Req_dec_T (Rmax (Rmax (yy * zz - yz * yz) (xx * zz - xz * xz))
                              (xx * yy - xy * xy)) (xx * zz - xz * xz)) as [Hy | Hy].
    + inversion Hfit as [Hplane]. subst plane. rewrite Hy in Hmax.
      eapply (Hcases _ ny); [| reflexivity].
      unfold rscale. cbn [fst snd]. f_equal; [f_equal |].
      * apply solve_ratio; [exact Hmax | lra].
      * ring.
      * apply solve_ratio; [exact Hmax | lra].
    + inversion Hfit as [Hplane]. subst plane.
      assert (Hz : Rmax (Rmax (yy * zz - yz * yz) (xx * zz - xz * xz)) (xx * yy - xy * xy)
                   = xx * yy - xy * xy).
      { unfold Rmax in *.
        destruct (Rle_dec (yy * zz - yz * yz) (xx * zz - xz * xz)), (Rle_dec _ _);
          try reflexivity; contradiction. }
      rewrite Hz in Hmax.
      eapply (Hcases _ nz); [| reflexivity].
      unfold rscale. cbn [fst snd]. f_equal; [f_equal |].
      * apply solve_ratio; [exact Hmax | lra].
      * apply solve_ratio; [exact Hmax | lra].
      * ring.
Qed.


(** The pentagon: planar, and the call raises at the collinear corner. *)
Lemma pentagon_raises :
  exists points,
    face_coordinates pentagon 0 = inr points /\
    coplanar_face bestfit points /\
    mesh_flatness (G := geometry bestfit) pentagon = inl ZeroLengthError.
Proof.
  eexists. split; [reflexivity |]. split.
  - exists (pentagon_centroid, (0, 0, 1)). split; [exact bestfit_pentagon |]. split.
    + simpl. intros H. inversion H. lra.
    + intros p Hp. unfold on_plane, pentagon_centroid, rdot, rsub.
      repeat (apply elem_of_cons in Hp as [-> | Hp]; [simpl; lra |]). inversion Hp.
  - unfold mesh_flatness. cbn [faces pentagon face map fst flatness_loop].
    assert (face_coordinates pentagon 0
            = inr [(0, 0, 0); (1, 0, 0); (2, 0, 0); (2, 2, 0); (0, 2, 0)]) as ->
      by reflexivity.
    cbn [bind].
    rewrite (face_deviation_collinear _ _ _ _ _ (pentagon_centroid, (0, 0, 1)));
      [reflexivity | exact bestfit_pentagon |].
    unfold collinear, rcross, rsub. simpl. f_equal; [f_equal |]; lra.
Qed.

(** The corners of [pentagon] are exactly planar and [mesh_flatness] raises
    instead of returning the deviation 0. *)
Lemma pentagon_not_flat : ~ every_coplanar_face_is_flat.
Proof.
  intros H. destruct pentagon_raises as (points & Hpts & Hplane & Hraise).
  destruct (H bestfit pentagon 0%Z points) as (dev & Hrun & _).
  - apply list_elem_of_here.
  - exact Hpts.
  - exact Hplane.
  - rewrite Hraise in Hrun. discriminate.
Qed.

(** *** mesh_planarize over the exact real kernel *)

Lemma rproject_on_plane (plane : Plane R) (p : Point R) :
  on_plane plane p -> rproject_point plane p = p.
Proof.
  destruct plane as [base normal]. unfold on_plane, rproject_point. simpl. intros ->.
  destruct p as [[x y] z], normal as [[nx ny] nz]. unfold rsub, rscale. simpl.
  f_equal; [f_equal |]; unfold Rdiv; ring.
Qed.

Lemma rsum_replicate (p acc : Point R) (n : nat) :
  fold_left radd (replicate n p) acc
  = (acc.1.1 + INR n * p.1.1, acc.1.2 + INR n * p.1.2, acc.2 + INR n * p.2).
Proof.
  revert acc. induction n as [|n IH]; intros acc.
  - destruct acc as [[x y] z]. simpl. f_equal; [f_equal |]; ring.
  - change (replicate (S n) p) with (p :: replicate n p). cbn [fold_left].
    rewrite IH, S_INR. destruct acc as [[x y] z], p as [[px py] pz].
    unfold radd. simpl. f_equal; [f_equal |]; ring.
Qed.

Lemma rcentroid_replicate (p : Point R) (n : nat) :
  rcentroid (replicate (S n) p) = inr p.
Proof.
  unfold rcentroid. change (replicate (S n) p) with (p :: replicate n p) at 1.
  cbv iota beta. rewrite rsum_replicate, length_replicate.
  pose proof (not_0_INR (S n) ltac:(lia)) as Hn. set (m := INR (S n)) in *.
  destruct p as [[px py] pz]. unfold rscale. cbn [fst snd].
  f_equal. f_equal; [f_equal |]; field; exact Hn.
Qed.

End IdealFacts.

(** ** The statements at concrete inputs *)

Import QKernel Samples Inputs Ideal.

(** C8, as stated, fails: the integer [0] passed as callback is not [None]
    and not callable, yet the call returns normally and has moved the
    vertices of [twisted]. *)
Lemma falsy_invalid_callback_accepted : ~ every_invalid_callback_is_rejected.
Proof.
  intros H.
  destruct (H Q QKernel.geometry unit twisted None 1 0%Q zero tt) as [e He].
  - discriminate.
  - reflexivity.
  - vm_compute in He. discriminate.
Qed.

(** The unit square with a stray fifth vertex: the call raises. *)
Lemma isolated_vertex_raises_witness :
  exists mesh' e',
    mesh_planarize square_and_stray None 1 0%Q (PyNone : PyObject Q unit) tt
    = (mesh', [], inl e').
Proof.
  apply (isolated_vertex_raises square_and_stray None 1 0%Q PyNone tt 4 EmptyInputError).
  - reflexivity.
  - apply (bool_decide_unpack _). vm_compute. exact I.
  - apply (bool_decide_unpack _). vm_compute. exact I.
  - intros fkey keys Hkeys. unfold face_vertices, getitem in Hkeys. simpl in Hkeys.
    destruct fkey; simpl in Hkeys; try discriminate. inversion Hkeys; subst.
    apply (bool_decide_unpack _). vm_compute. exact I.
  - lia.
  - reflexivity.
Defined.

(** The same on a mesh with a face: the stray vertex aborts the first
    iteration, and it does not when it is fixed. *)
Example stray_vertex_raises :
  mesh_planarize square_and_stray None 1 0%Q (PyNone : PyObject Q unit) tt
  = (square_and_stray, [], inl EmptyInputError) /\
  mesh_planarize square_and_stray (Some [4]) 1 0%Q (PyNone : PyObject Q unit) tt
  = (square_and_stray, [], inr tt).
Proof. split; vm_compute; reflexivity. Qed.

(** A planar square is left as it is, and the call returns. *)
Example planar_square_stays :
  mesh_planarize unit_square None 1 0%Q (PyNone : PyObject Q unit) tt
  = (unit_square, [], inr tt).
Proof. vm_compute. reflexivity. Qed.

(** Corners 0 and 2 of the twisted quadrilateral fixed, two iterations, an
    observing callback: corner 2 stays where it was. *)
Lemma fixed_vertex_invariance_witness :
  vertex_coordinates (mesh_planarize twisted (Some [0; 2]) 2 0%Q observer tt).1.1 2
  = vertex_coordinates twisted 2.
Proof.
  apply fixed_vertex_invariance.
  - apply elem_of_list_to_set. simpl. apply list_elem_of_further, list_elem_of_here.
  - intros truth f Hf mesh k args. inversion Hf. reflexivity.
Defined.

(** The hinge has two planar faces that share an edge: one iteration over the
    rational kernel leaves it as it was. *)
Lemma planar_mesh_unchanged_witness :
  (mesh_planarize hinge None 1 0%Q observer tt).1.1 = hinge.
Proof.
  apply planar_mesh_unchanged.
  - unfold unique_vertex_keys. apply (bool_decide_unpack _). vm_compute. exact I.
  - intros fkey points plane Hin Hpts Hfit.
    apply elem_of_cons in Hin as [-> | Hin];
      [| apply elem_of_cons in Hin as [-> | Hin]; [| inversion Hin]];
      vm_compute in Hpts; inversion Hpts; subst;
      vm_compute in Hfit; inversion Hfit; subst; vm_compute; reflexivity.
  - intros key p n Hin. apply QKernelFacts.centroid_replicate.
    repeat (apply elem_of_cons in Hin as [Heq | Hin];
            [inversion Heq; subst; vm_compute; auto |]).
    inversion Hin.
  - exists EmptyInputError. reflexivity.
  - intros truth f Hf mesh k args. inversion Hf. reflexivity.
Defined.



(** Three iterations with [d = 1] and with [d = 1/10]. *)
Lemma damping_factor_ignored_witness :
  mesh_planarize twisted None 3 1%Q observer tt
  = mesh_planarize twisted None 3 (1 # 10)%Q observer tt.
Proof.
  apply (proj1 (damping_factor_ignored twisted None 3 1%Q (1 # 10)%Q observer tt)).
Defined.

(** Three iterations over the twisted quadrilateral: the callback sees the
    indices 0, 1, 2. *)
Lemma callback_once_per_iteration_witness :
  map fst (mesh_planarize twisted None 3 0%Q observer tt).1.2 = [0; 1; 2].
Proof.
  destruct (mesh_planarize twisted None 3 0%Q observer tt) as [[mesh' log] r] eqn:Hrun.
  pose proof (callback_once_per_iteration twisted None 3 0%Q true _ tt mesh' log r Hrun)
    as (_ & _ & _ & Hfull).
  simpl. apply Hfull. vm_compute in Hrun. now inversion Hrun.
Defined.

(** C7, against the claim.  Three iterations over the twisted quadrilateral:
    a callable object whose truth value is false is not invoked at all, and
    a function of [(mesh, k)] alone is called once, with three arguments, and
    ends the call at the index 0. *)
Lemma callable_callback_not_invoked_kmax_times :
  ~ every_callable_callback_is_invoked_kmax_times /\
  ~ every_truthy_callable_callback_is_invoked_kmax_times.
Proof.
  split.
  - intros H.
    specialize (H Q QKernel.geometry unit twisted None 3 0%Q MoreInputs.silent tt eq_refl).
    vm_compute in H. discriminate.
  - intros H.
    specialize (H Q QKernel.geometry unit twisted None 3 0%Q MoreInputs.binary_observer tt
                  eq_refl eq_refl).
    vm_compute in H. discriminate.
Qed.

(** What the two runs are: no invocation and a normal return; one
    invocation and a [TypeError]. *)
Example silent_and_binary_callbacks :
  (mesh_planarize twisted None 3 0%Q MoreInputs.silent tt).1.2 = [] /\
  (mesh_planarize twisted None 3 0%Q MoreInputs.silent tt).2 = inr tt /\
  map fst (mesh_planarize twisted None 3 0%Q MoreInputs.binary_observer tt).1.2 = [0] /\
  (mesh_planarize twisted None 3 0%Q MoreInputs.binary_observer tt).2 = inl TypeError.
Proof. repeat split; vm_compute; reflexivity. Qed.

(** The integer [1] passed as callback is rejected. *)
Lemma truthy_invalid_callback_rejected_witness :
  mesh_planarize twisted None 5 0%Q one tt
  = (twisted, [], inl (Exception "The callback is not callable."%string)).
Proof. apply (truthy_invalid_callback_rejected twisted None 5 0%Q one tt); reflexivity. Defined.

(** [kmax = -3]: nothing happens. *)
Lemma no_iteration_when_kmax_nonpositive_witness :
  mesh_planarize twisted None (-3) 0%Q observer tt = (twisted, [], inr tt).
Proof.
  apply (proj2 (no_iteration_when_kmax_nonpositive twisted None (-3) 0%Q observer tt
                  ltac:(lia))).
  reflexivity.
Defined.

(** An idle solver and an observing callback: no invocation. *)
Lemma shapeop_ignores_callback_witness :
  (mesh_planarize_shapeop (inr idle_solver) twisted None 100 (1 # 10)%Q observer tt).1.2 = [].
Proof.
  apply (proj1 (shapeop_ignores_callback (inr idle_solver) twisted None 100 (1 # 10)%Q
                  observer tt eq_refl)).
Defined.

(** The unit square at the floats of the program; the arc cosine plays no
    part in the statement. *)
Lemma flatness_is_mean_cyclic_angle_witness :
  mesh_flatness (G := Binary64.geometry) (Sc := Binary64.scalar)
                (V := Binary64.vectors Binary64.coarse_acos) Binary64.unit_square
  = spec_mesh_flatness (G := Binary64.geometry) (Sc := Binary64.scalar)
                       (V := Binary64.vectors Binary64.coarse_acos) Binary64.unit_square.
Proof.
  apply (flatness_is_mean_cyclic_angle (G := Binary64.geometry) (Sc := Binary64.scalar)
           (V := Binary64.vectors Binary64.coarse_acos) Binary64.unit_square).
  intros fkey points Hin Hpts.
  apply elem_of_cons in Hin as [-> | Hin]; [| inversion Hin].
  vm_compute in Hpts. inversion Hpts; subst. clear Hpts.
  split; [simpl; lia |].
  intros plane a b c Hfit Ht. vm_compute in Hfit. inversion Hfit; subst. clear Hfit.
  cbn [app take window3] in Ht.
  repeat (apply elem_of_cons in Ht as [Ht | Ht];
          [inversion Ht; subst; vm_compute; reflexivity |]).
  inversion Ht.
Defined.


(** * Further properties of the planarisation and of the flatness *)

Lemma mapM_fails {A B : Type} (f : A -> result B) (l : list A) (a : A) (e : exn) :
  a ∈ l -> f a = inl e -> exists e', mapM f l = inl e'.
Proof.
  induction l as [|x l IH]; intros Hin Hf; [inversion Hin |].
  simpl. destruct (f x) as [e1 | b] eqn:Hx; simpl; [now exists e1 |].
  apply elem_of_cons in Hin as [-> | Hin]; [congruence |].
  destruct (IH Hin Hf) as [e' ->]. simpl. now exists e'.
Qed.

Lemma assoc_missing {V : Type} (d : list (Z * V)) (key : Z) :
  key ∉ map fst d -> assoc key d = None.
Proof.
  induction d as [|[k v] d IH]; simpl; intros H; [reflexivity |].
  apply not_elem_of_cons in H as [Hne H].
  destruct (Z.eqb_spec k key) as [-> | _]; [contradiction | now apply IH].
Qed.

Section MoreFacePass.
Context {F : Type} {G : Geometry F}.
Implicit Types (mesh : Mesh F) (key_xyz : gmap Z (list (Point F))).

(** The corners of a face that names a missing vertex cannot be read. *)
Lemma face_coordinates_dangling mesh fkey keys key :
  face_vertices mesh fkey = inr keys -> key ∈ keys -> key ∉ vertices mesh ->
  exists e, face_coordinates mesh fkey = inl e.
Proof.
  intros Hkeys Hin Hmiss. unfold face_coordinates. rewrite Hkeys. simpl.
  apply (mapM_fails _ keys key (KeyError key) Hin).
  unfold vertex_coordinates, getitem. now rewrite assoc_missing.
Qed.

Lemma project_faces_fails mesh fkey fkeys :
  fkey ∈ fkeys -> (exists e, face_coordinates mesh fkey = inl e) ->
  forall key_xyz, exists e, project_faces mesh fkeys key_xyz = inl e.
Proof.
  intros Hin [e He]. induction fkeys as [|fk fkeys IH]; intros key_xyz; [inversion Hin |].
  simpl. destruct (project_face mesh fk key_xyz) as [e1 | key_xyz1] eqn:H1; simpl;
    [now exists e1 |].
  apply elem_of_cons in Hin as [-> | Hin]; [| now apply IH].
  unfold project_face in H1. rewrite He in H1. discriminate.
Qed.

(** One corner, one contribution: the bucket of [key] grows by the number of
    corners that name it, at its end. *)
Lemma append_projections_count projections keys key :
  forall index key_xyz key_xyz' b,
    append_projections projections index keys key_xyz = inr key_xyz' ->
    key_xyz !! key = Some b ->
    exists added,
      key_xyz' !! key = Some (b ++ added) /\
      length added = length (filter (fun k => k = key) keys).
Proof.
  induction keys as [|k keys IH]; simpl; intros index key_xyz key_xyz' b H Hb.
  - inversion H; subst. exists []. now rewrite app_nil_r.
  - unfold bucket, list_get in H.
    destruct (key_xyz !! k) as [bk |] eqn:Hbk; simpl in H; [| discriminate].
    destruct (projections !! index) as [p |] eqn:Hp; simpl in H; [| discriminate].
    rewrite filter_cons. destruct (decide (k = key)) as [-> | Hne].
    + assert (bk = b) as -> by congruence.
      destruct (IH _ _ _ (b ++ [p]) H) as (added & Hlook & Hlen);
        [apply lookup_insert_eq |].
      exists (p :: added). rewrite <- app_assoc in Hlook. split; [exact Hlook |].
      simpl. now rewrite Hlen.
    + destruct (IH _ _ _ b H) as (added & Hlook & Hlen);
        [now rewrite lookup_insert_ne |].
      now exists added.
Qed.

Lemma project_faces_count mesh key fkeys :
  forall key_xyz key_xyz' b,
    project_faces mesh fkeys key_xyz = inr key_xyz' ->
    key_xyz !! key = Some b ->
    exists added,
      key_xyz' !! key = Some (b ++ added) /\
      length added = corner_count mesh fkeys key.
Proof.
  induction fkeys as [|fkey fkeys IH]; simpl; intros key_xyz key_xyz' b H Hb.
  - inversion H; subst. exists []. now rewrite app_nil_r.
  - destruct (project_face mesh fkey key_xyz) as [e | key_xyz1] eqn:H1; simpl in H;
      [discriminate |].
    unfold project_face in H1.
    destruct (face_coordinates mesh fkey) as [e | points]; simpl in H1; [discriminate |].
    destruct (bestfit_plane_from_points points) as [e | plane]; simpl in H1; [discriminate |].
    destruct (project_points_plane points plane) as [e | projections]; simpl in H1;
      [discriminate |].
    destruct (face_vertices mesh fkey) as [e | keys] eqn:Hkeys; simpl in H1; [discriminate |].
    destruct (append_projections_count _ _ key _ _ _ b H1 Hb) as (added1 & Hlook1 & Hlen1).
    destruct (IH _ _ _ H Hlook1) as (added2 & Hlook2 & Hlen2).
    exists (added1 ++ added2). rewrite app_assoc. split; [exact Hlook2 |].
    unfold corner_count in *. simpl. rewrite Hkeys, length_app. lia.
Qed.

(** The vertex pass reads the fixed set only at the keys it visits. *)
Lemma update_vertices_fixed_ext (fixed fixed' : gset Z) key_xyz (vs : list (Z * Point F)) :
  (forall key, key ∈ map fst vs -> (key ∈ fixed <-> key ∈ fixed')) ->
  update_vertices fixed key_xyz vs = update_vertices fixed' key_xyz vs.
Proof.
  induction vs as [|[k attr] vs IH]; simpl; intros H; [reflexivity |].
  rewrite IH by (intros key Hkey; apply H; now apply list_elem_of_further).
  pose proof (H k (list_elem_of_here _ _)) as Hk.
  destruct (decide (k ∈ fixed)) as [H1 | H1], (decide (k ∈ fixed')) as [H2 | H2];
    try reflexivity; exfalso; tauto.
Qed.
End MoreFacePass.

Section MorePlanarize.
Context {F : Type} {G : Geometry F} {A : Type}.
Implicit Types (mesh : Mesh F) (callback : PyObject F A).

Lemma invoke_keeps_topology callback mesh k (args : A) :
  callback_keeps_topology callback ->
  face (invoke callback mesh k args).1 = face mesh /\
  vertices (invoke callback mesh k args).1 = vertices mesh.
Proof.
  intros H. destruct callback as [| truth [f |]]; simpl; try (split; reflexivity).
  now apply (H truth f).
Qed.

Lemma planarize_loop_topology (fixed : gset Z) callback (args : A) n :
  callback_keeps_topology callback ->
  forall k mesh,
    face (planarize_loop fixed callback args n k mesh).1.1 = face mesh /\
    vertices (planarize_loop fixed callback args n k mesh).1.1 = vertices mesh.
Proof.
  intros Hcb. induction n as [|n IH]; simpl; intros k mesh; [split; reflexivity |].
  pose proof (planarize_iteration_faces fixed mesh) as Hf.
  pose proof (planarize_iteration_keys fixed mesh) as Hv.
  destruct (planarize_iteration fixed mesh) as [mesh1 [e | u]]; simpl in *; [now split |].
  destruct (truthy callback).
  - destruct (invoke_keeps_topology callback mesh1 k args Hcb) as [Hf2 Hv2].
    destruct (invoke callback mesh1 k args) as [mesh2 [e | u']]; simpl in *.
    + split; congruence.
    + destruct (IH (k + 1) mesh2) as [Hf3 Hv3].
      destruct (planarize_loop fixed callback args n (k + 1) mesh2) as [[mesh3 log] r];
        simpl in *. split; congruence.
  - destruct (IH (k + 1) mesh1) as [Hf3 Hv3]. split; congruence.
Qed.

(** The planarisation moves vertices and does nothing else: the faces, the
    vertex keys and their order are those of the mesh it was given, whether
    the call returns or raises, as long as the callback itself adds and
    removes nothing. *)
Theorem planarize_keeps_topology mesh (fixed : option (list Z)) (kmax : Z) (d : F)
    callback (args : A) :
  callback_keeps_topology callback ->
  face (mesh_planarize mesh fixed kmax d callback args).1.1 = face mesh /\
  vertices (mesh_planarize mesh fixed kmax d callback args).1.1 = vertices mesh.
Proof.
  intros Hcb. unfold mesh_planarize.
  destruct (check_callback callback); [split; reflexivity |].
  now apply planarize_loop_topology.
Qed.

(** A face that names a vertex key the mesh does not have makes the first
    iteration raise while the corners are collected: no vertex has been moved
    and the callback has not been invoked. *)
Theorem dangling_face_raises mesh (fixed : option (list Z)) (kmax : Z) (d : F)
    callback (args : A) :
  dangling mesh -> 1 <= kmax -> check_callback callback = inr tt ->
  exists e, mesh_planarize mesh fixed kmax d callback args = (mesh, [], inl e).
Proof.
  intros (fkey & keys & key & Hin & Hkeys & Hkey & Hmiss) Hk Hcheck.
  unfold mesh_planarize. rewrite Hcheck.
  destruct (Z.to_nat kmax) as [|n] eqn:Hn; [lia |]. simpl. unfold planarize_iteration.
  destruct (project_faces_fails mesh fkey (faces mesh) Hin
              (face_coordinates_dangling mesh fkey keys key Hkeys Hkey Hmiss)
              (empty_buckets mesh)) as [e ->].
  now exists e.
Qed.

Lemma planarize_loop_falsy_run (fixed : gset Z) callback (args : A) n :
  truthy callback = false ->
  forall k k' mesh,
    planarize_loop fixed callback args n k mesh
    = planarize_loop fixed callback args n k' mesh /\
    (planarize_loop fixed callback args n k mesh).1.2 = [].
Proof.
  intros Hfalse. induction n as [|n IH]; simpl; intros k k' mesh; [now split |].
  destruct (planarize_iteration fixed mesh) as [mesh1 [e | u]]; [now split |].
  rewrite Hfalse. apply IH.
Qed.

Lemma planarize_loop_add (fixed : gset Z) callback (args : A) n m :
  truthy callback = false ->
  forall k mesh,
    planarize_loop fixed callback args (n + m) k mesh
    = match planarize_loop fixed callback args n k mesh with
      | (mesh1, _, inr _) => planarize_loop fixed callback args m k mesh1
      | failed => failed
      end.
Proof.
  intros Hfalse. induction n as [|n IH]; simpl; intros k mesh; [reflexivity |].
  destruct (planarize_iteration fixed mesh) as [mesh1 [e | u]]; [reflexivity |].
  rewrite Hfalse, IH.
  destruct (planarize_loop fixed callback args n (k + 1) mesh1) as [[mesh2 log] [e | u']];
    [reflexivity |].
  apply (planarize_loop_falsy_run fixed callback args m Hfalse).
Qed.

(** Without a callback, iterations add up: a call with [kmax = a + b] does
    what a call with [kmax = a] followed, if it returned, by a call with
    [kmax = b] on the mesh it left does; if the first raises, so does the
    long call, with the same error and the same mesh. *)
Theorem planarize_iterations_add_up mesh (fixed : option (list Z)) (a b : Z) (d : F)
    callback (args : A) :
  truthy callback = false -> 0 <= a -> 0 <= b ->
  mesh_planarize mesh fixed (a + b) d callback args
  = match mesh_planarize mesh fixed a d callback args with
    | (mesh1, _, inr _) => mesh_planarize mesh1 fixed b d callback args
    | failed => failed
    end.
Proof.
  intros Hfalse Ha Hb. unfold mesh_planarize, check_callback. rewrite Hfalse.
  rewrite Z2Nat.inj_add by assumption.
  now apply planarize_loop_add.
Qed.

Lemma planarize_iteration_fixed_ext (fixed fixed' : gset Z) mesh :
  (forall key, key ∈ vertices mesh -> (key ∈ fixed <-> key ∈ fixed')) ->
  planarize_iteration fixed mesh = planarize_iteration fixed' mesh.
Proof.
  intros H. unfold planarize_iteration.
  destruct (project_faces mesh (faces mesh) (empty_buckets mesh)) as [e | key_xyz];
    [reflexivity |].
  now rewrite (update_vertices_fixed_ext fixed fixed' key_xyz (vertex mesh)).
Qed.

Lemma planarize_loop_fixed_ext (fixed fixed' : gset Z) callback (args : A) n :
  callback_keeps_topology callback ->
  forall k mesh,
    (forall key, key ∈ vertices mesh -> (key ∈ fixed <-> key ∈ fixed')) ->
    planarize_loop fixed callback args n k mesh
    = planarize_loop fixed' callback args n k mesh.
Proof.
  intros Hcb. induction n as [|n IH]; simpl; intros k mesh H; [reflexivity |].
  rewrite <- (planarize_iteration_fixed_ext fixed fixed' mesh H).
  pose proof (planarize_iteration_keys fixed mesh) as Hv.
  destruct (planarize_iteration fixed mesh) as [mesh1 [e | u]]; simpl in *; [reflexivity |].
  destruct (truthy callback).
  - destruct (invoke_keeps_topology callback mesh1 k args Hcb) as [_ Hv2].
    destruct (invoke callback mesh1 k args) as [mesh2 [e | u']]; simpl in *; [reflexivity |].
    rewrite (IH (k + 1) mesh2); [reflexivity |].
    intros key Hkey. apply H. congruence.
  - apply IH. intros key Hkey. apply H. congruence.
Qed.

(** The fixed list is read as a set and only at the keys of the mesh: two
    lists that fix the same vertices of the mesh give the same run, whatever
    their order, their repetitions and the foreign keys they hold. *)
Theorem fixed_matters_on_vertices_only mesh (fixed fixed' : option (list Z)) (kmax : Z)
    (d : F) callback (args : A) :
  callback_keeps_topology callback ->
  (forall key, key ∈ vertices mesh ->
     (key ∈ default [] fixed <-> key ∈ default [] fixed')) ->
  mesh_planarize mesh fixed kmax d callback args
  = mesh_planarize mesh fixed' kmax d callback args.
Proof.
  intros Hcb H. unfold mesh_planarize.
  destruct (check_callback callback); [reflexivity |].
  apply planarize_loop_fixed_ext; [exact Hcb |].
  intros key Hkey. unfold fixed_set. rewrite !elem_of_list_to_set. now apply H.
Qed.

(** A vertex collects one projection per face corner that names it: after
    the face pass the bucket of every vertex holds exactly as many
    contributions as the faces have corners at that vertex. *)
Theorem one_contribution_per_corner mesh (key_xyz : gmap Z (list (Point F))) (key : Z) :
  project_faces mesh (faces mesh) (empty_buckets mesh) = inr key_xyz ->
  key ∈ vertices mesh ->
  exists b, key_xyz !! key = Some b /\ length b = corner_count mesh (faces mesh) key.
Proof.
  intros Hpass Hin.
  destruct (project_faces_count mesh key (faces mesh) _ _ [] Hpass
              (empty_buckets_vertex mesh key Hin)) as (added & Hlook & Hlen).
  now exists added.
Qed.
End MorePlanarize.

Section MoreFlatness.
Context {F : Type} {G : Geometry F} {Sc : Scalar F} {V : VectorKernel F}.
Implicit Types (mesh : Mesh F) (dev : gmap Z F).

Lemma flatness_loop_entries mesh fkeys :
  forall dev0 dev,
    flatness_loop mesh fkeys dev0 = inr dev ->
    (forall k, k ∉ fkeys -> dev !! k = dev0 !! k) /\
    (forall k, k ∈ fkeys ->
       exists points deviation,
         face_coordinates mesh k = inr points /\
         face_deviation points = inr deviation /\
         dev !! k = Some deviation).
Proof.
  induction fkeys as [|fkey fkeys IH]; simpl; intros dev0 dev H.
  - inversion H; subst. split; [reflexivity |]. intros k Hk. inversion Hk.
  - destruct (face_coordinates mesh fkey) as [e | points] eqn:Hpts; simpl in H;
      [discriminate |].
    destruct (face_deviation points) as [e | deviation] eqn:Hdev; simpl in H;
      [discriminate |].
    destruct (IH _ _ H) as [Hout Hin]. split.
    + intros k Hk. apply not_elem_of_cons in Hk as [Hne Hk].
      rewrite (Hout k Hk). now apply lookup_insert_ne.
    + intros k Hk. destruct (decide (k ∈ fkeys)) as [Hk' | Hk']; [now apply Hin |].
      apply elem_of_cons in Hk as [-> | Hk]; [| contradiction].
      exists points, deviation. repeat split; try assumption.
      rewrite (Hout fkey Hk'). apply lookup_insert_eq.
Qed.

(** When [mesh_flatness] returns, the dictionary has an entry for every face
    and for nothing else, and the entry of a face is the deviation computed
    from the corners of that face alone. *)
Theorem flatness_has_one_entry_per_face mesh dev :
  mesh_flatness mesh = inr dev ->
  (forall fkey, is_Some (dev !! fkey) <-> fkey ∈ faces mesh) /\
  (forall fkey, fkey ∈ faces mesh ->
     exists points deviation,
       face_coordinates mesh fkey = inr points /\
       face_deviation points = inr deviation /\
       dev !! fkey = Some deviation).
Proof.
  unfold mesh_flatness. intros H.
  destruct (flatness_loop_entries mesh (faces mesh) _ _ H) as [Hout Hin].
  split; [| exact Hin].
  intros fkey. split.
  - intros Hsome. destruct (decide (fkey ∈ faces mesh)) as [Hf | Hf]; [exact Hf |].
    rewrite (Hout fkey Hf), lookup_empty in Hsome. now destruct Hsome.
  - intros Hf. destruct (Hin fkey Hf) as (points & deviation & _ & _ & Hdev).
    now exists deviation.
Qed.

Lemma flatness_loop_fails mesh fkey fkeys :
  fkey ∈ fkeys -> (exists e, face_coordinates mesh fkey = inl e) ->
  forall dev0, exists e, flatness_loop mesh fkeys dev0 = inl e.
Proof.
  intros Hin [e He]. induction fkeys as [|fk fkeys IH]; intros dev0; [inversion Hin |].
  simpl. destruct (face_coordinates mesh fk) as [e1 | points] eqn:Hpts; simpl;
    [now exists e1 |].
  destruct (face_deviation points) as [e1 | deviation]; simpl; [now exists e1 |].
  apply elem_of_cons in Hin as [-> | Hin]; [congruence | now apply IH].
Qed.

Lemma flatness_loop_returns mesh fkeys :
  (forall fkey, fkey ∈ fkeys ->
     exists points deviation,
       face_coordinates mesh fkey = inr points /\ face_deviation points = inr deviation) ->
  forall dev0, exists dev, flatness_loop mesh fkeys dev0 = inr dev.
Proof.
  induction fkeys as [|fkey fkeys IH]; intros H dev0; [now exists dev0 |].
  destruct (H fkey (list_elem_of_here _ _)) as (points & deviation & Hpts & Hdev).
  simpl. rewrite Hpts. simpl. rewrite Hdev. simpl.
  apply IH. intros k Hk. apply H. now apply list_elem_of_further.
Qed.

(** A face that names a vertex key the mesh does not have makes
    [mesh_flatness] raise: no partial dictionary is returned. *)
Theorem flatness_dangling_face_raises mesh :
  dangling mesh -> exists e, mesh_flatness mesh = inl e.
Proof.
  intros (fkey & keys & key & Hin & Hkeys & Hkey & Hmiss). unfold mesh_flatness.
  apply (flatness_loop_fails mesh fkey (faces mesh) Hin).
  apply (face_coordinates_dangling mesh fkey keys key Hkeys Hkey Hmiss).
Qed.

End MoreFlatness.

(** ** The orientation of the best-fit normal, in exact arithmetic *)

Module MoreIdealFacts.
Import Ideal IdealFacts.
Local Open Scope R_scope.

Lemma rscale_twice (N : Vector R) : rscale (rscale N (IZR (-1))) (IZR (-1)) = N.
Proof.
  destruct N as [[p q] r]. unfold rscale. simpl. f_equal; [f_equal |]; ring.
Qed.

Lemma rangle_orthogonal (n N : Vector R) :
  rdot n N = 0 -> rangle n (rscale N (IZR (-1))) = rangle n N.
Proof.
  intros H0. destruct (rdot_negated n N) as [E1 E2]. unfold rangle, rlength.
  rewrite E1, E2, H0, Ropp_0. reflexivity.
Qed.

Lemma corner_angle_flipped (N : Vector R) (t : Point R * Point R * Point R) :
  corner_angle (rscale N (IZR (-1))) t = corner_angle N t.
Proof.
  destruct t as [[a b] c]. unfold corner_angle.
  cbn [subtract_vectors cross_vectors dot_vectors scale_vector angle_smallest_vectors
       gt of_int vectors scalar].
  set (n := rcross (rsub a b) (rsub c b)).
  destruct (rdot_negated n N) as [_ E2]. rewrite E2, rscale_twice.
  destruct (Rgt_dec (- rdot n N) 0) as [H1 | H1], (Rgt_dec (rdot n N) 0) as [H2 | H2];
    try reflexivity; try lra.
  symmetry. apply rangle_orthogonal. lra.
Qed.

(** The deviation of a face does not depend on which of the two opposite
    normals the best-fit plane comes with: the branch on the sign of the dot
    product compares every local normal with the normal on its own side. *)
Theorem deviation_ignores_normal_orientation
    (bestfit bestfit' : list (Point R) -> result (Plane R))
    (points : list (Point R)) (base : Point R) (normal : Vector R) :
  bestfit points = inr (base, normal) ->
  bestfit' points = inr (base, rscale normal (IZR (-1))) ->
  face_deviation (G := geometry bestfit') points
  = face_deviation (G := geometry bestfit) points.
Proof.
  intros H H'. unfold face_deviation.
  cbn [bestfit_plane_from_points geometry]. rewrite H, H'. cbn [bind].
  now rewrite (mapM_ext _ _ _ (corner_angle_flipped normal)).
Qed.
End MoreIdealFacts.

(** ** The flatness of a planar face *)

Module FlatFaces.
Import Ideal IdealFacts.

End FlatFaces.

(** * RhinoSurface.to_compas_mesh *)

Module RhinoSurfaceFacts.
Import RhinoSurface.

(** ** The ordered dictionary *)

Section Dictionary.
Context {P : Type}.
Implicit Types (d : list (string * P)).

Lemma setitem_keys d gkey xyz :
  map fst (setitem d gkey xyz)
  = if decide (gkey ∈ map fst d) then map fst d else map fst d ++ [gkey].
Proof.
  induction d as [|[k v] d IH]; simpl.
  - destruct (decide (gkey ∈ [])) as [H | _]; [inversion H | reflexivity].
  - destruct (String.eqb_spec k gkey) as [-> | Hne]; simpl.
    + destruct (decide (gkey ∈ gkey :: map fst d)) as [_ | H]; [reflexivity |].
      exfalso. apply H. apply list_elem_of_here.
    + rewrite IH. destruct (decide (gkey ∈ map fst d)) as [H | H].
      * destruct (decide (gkey ∈ k :: map fst d)) as [_ | H']; [reflexivity |].
        exfalso. apply H'. now apply list_elem_of_further.
      * destruct (decide (gkey ∈ k :: map fst d)) as [H' | _]; [| reflexivity].
        apply elem_of_cons in H' as [-> | H']; contradiction.
Qed.

Lemma setitem_NoDup d gkey xyz :
  NoDup (map fst d) -> NoDup (map fst (setitem d gkey xyz)).
Proof.
  intros H. rewrite setitem_keys. destruct (decide (gkey ∈ map fst d)) as [Hin | Hin];
    [exact H |].
  apply NoDup_app. repeat split; [exact H | | apply NoDup_singleton].
  intros k Hk Hk'. apply list_elem_of_singleton in Hk'. now subst.
Qed.

Lemma setitem_elem_of d gkey xyz k v :
  NoDup (map fst d) ->
  (k, v) ∈ setitem d gkey xyz ->
  (k = gkey /\ v = xyz) \/ ((k, v) ∈ d /\ k <> gkey).
Proof.
  induction d as [|[k0 v0] d IH]; simpl; intros Hnd Hin.
  - apply list_elem_of_singleton in Hin. inversion Hin. now left.
  - apply NoDup_cons in Hnd as [Hk0 Hnd].
    destruct (String.eqb_spec k0 gkey) as [-> | Hne].
    + apply elem_of_cons in Hin as [Heq | Hin].
      * inversion Heq. now left.
      * right. split; [now apply list_elem_of_further |].
        intros ->. apply Hk0. apply list_elem_of_fmap. now exists (gkey, v).
    + apply elem_of_cons in Hin as [Heq | Hin].
      * inversion Heq; subst. right. split; [apply list_elem_of_here | exact Hne].
      * destruct (IH Hnd Hin) as [H | [H H']]; [now left |].
        right. split; [now apply list_elem_of_further | exact H'].
Qed.
End Dictionary.

(** ** Dropping repeated vertices *)

Lemma unique_from (temp acc : list nat) :
  let face := fold_left (fun face vertex =>
                           if decide (vertex ∈ face) then face else face ++ [vertex])
                        temp acc in
  (NoDup acc -> NoDup face) /\
  (forall v, v ∈ face <-> v ∈ acc \/ v ∈ temp) /\
  (NoDup (acc ++ temp) -> face = acc ++ temp).
Proof.
  revert acc. induction temp as [|x temp IH]; intros acc; simpl.
  - repeat split; try tauto.
    + intros [H | H]; [exact H | inversion H].
    + now rewrite app_nil_r.
  - destruct (decide (x ∈ acc)) as [Hx | Hx].
    + destruct (IH acc) as (H1 & H2 & H3). repeat split; [exact H1 | | |].
      * intros Hv. apply H2 in Hv as [Hv | Hv]; [now left |].
        right. now apply list_elem_of_further.
      * intros [Hv | Hv]; apply H2; [now left |].
        apply elem_of_cons in Hv as [-> | Hv]; [now left | now right].
      * intros Hnd. exfalso. apply NoDup_app in Hnd as (_ & Hdis & _).
        apply (Hdis x Hx). apply list_elem_of_here.
    + destruct (IH (acc ++ [x])) as (H1 & H2 & H3). repeat split.
      * intros Hnd. apply H1. apply NoDup_app. repeat split;
          [exact Hnd | | apply NoDup_singleton].
        intros y Hy Hy'. apply list_elem_of_singleton in Hy'. now subst.
      * intros Hv. apply H2 in Hv as [Hv | Hv].
        -- apply elem_of_app in Hv as [Hv | Hv]; [now left |].
           apply list_elem_of_singleton in Hv. subst. right. apply list_elem_of_here.
        -- right. now apply list_elem_of_further.
      * intros [Hv | Hv]; apply H2.
        -- left. apply elem_of_app. now left.
        -- apply elem_of_cons in Hv as [-> | Hv]; [| now right].
           left. apply elem_of_app. right. apply list_elem_of_here.
      * intros Hnd. rewrite H3; rewrite <- app_assoc; [reflexivity | exact Hnd].
Qed.

Lemma unique_NoDup (temp : list nat) : NoDup (unique temp).
Proof. apply (unique_from temp []). apply NoDup_nil_2. Qed.

Lemma unique_elem_of (temp : list nat) (v : nat) : v ∈ unique temp <-> v ∈ temp.
Proof.
  destruct (unique_from temp []) as (_ & H & _). rewrite (H v). split; [| now right].
  intros [Hv | Hv]; [inversion Hv | exact Hv].
Qed.

Lemma unique_id (temp : list nat) : NoDup temp -> unique temp = temp.
Proof. intros H. now apply (unique_from temp []). Qed.

(** ** The loops over the faces *)

Section ToMeshFacts.
Context {P B C M : Type}.
Variable geometric_key : P -> string.
Variable segments : B -> list (P * P).
Variable xyz_list : P -> C.
Implicit Types (d : list (string * P)) (points : list P) (faces : list (list string)).

Local Abbreviation write_all := (write_all geometric_key).
Local Abbreviation face_points := (face_points segments).
Local Abbreviation corner_points := (corner_points segments).
Local Abbreviation loop_face := (loop_face geometric_key segments).
Local Abbreviation loop_faces := (loop_faces geometric_key segments).
Local Abbreviation mesh_data := (mesh_data geometric_key segments xyz_list).
Local Abbreviation face_keys := (fun face => map geometric_key (face_points face)).

Lemma inner_loop_spec (segs : list (P * P)) d (keys : list string) :
  fold_left (fun '(gkey_xyz, face) segment =>
               (setitem gkey_xyz (geometric_key segment.2) segment.2,
                face ++ [geometric_key segment.2]))
            segs (d, keys)
  = (write_all d (map snd segs), keys ++ map geometric_key (map snd segs)).
Proof.
  revert d keys. induction segs as [|seg segs IH]; intros d keys; simpl.
  - now rewrite app_nil_r.
  - rewrite IH. now rewrite <- app_assoc.
Qed.

Lemma loop_face_spec d (face : B) :
  loop_face d face
  = match segments face with
    | [] => inl NoSegmentIndexError
    | _ => inr (write_all d (face_points face), face_keys face)
    end.
Proof.
  unfold RhinoSurface.loop_face, RhinoSurface.face_points.
  destruct (segments face) as [|first rest]; [reflexivity |].
  now rewrite inner_loop_spec.
Qed.

Lemma write_all_app d points points' :
  write_all d (points ++ points') = write_all (write_all d points) points'.
Proof. apply fold_left_app. Qed.

Lemma loop_faces_spec (brepfaces : list B) :
  forall d faces,
    Forall (fun face => segments face <> []) brepfaces ->
    loop_faces d faces brepfaces
    = inr (write_all d (corner_points brepfaces), faces ++ map face_keys brepfaces).
Proof.
  induction brepfaces as [|face rest IH]; intros d faces H; simpl.
  - now rewrite app_nil_r.
  - apply Forall_cons in H as [Hface H]. rewrite loop_face_spec.
    destruct (segments face) as [|first more] eqn:Hseg; [contradiction |]. simpl.
    rewrite (IH _ _ H). unfold RhinoSurface.corner_points. simpl.
    now rewrite write_all_app, <- app_assoc.
Qed.

Lemma loop_faces_error (brepfaces : list B) :
  forall d faces e,
    loop_faces d faces brepfaces = inl e ->
    e = NoSegmentIndexError /\ Exists (fun face => segments face = []) brepfaces.
Proof.
  induction brepfaces as [|face rest IH]; intros d faces e H; simpl in H; [discriminate |].
  rewrite loop_face_spec in H.
  destruct (segments face) as [|first more] eqn:Hseg; simpl in H.
  - inversion H. split; [reflexivity | now apply Exists_cons_hd].
  - destruct (IH _ _ _ H) as [He Hex]. split; [exact He | now apply Exists_cons_tl].
Qed.

(** ** What the vertex map holds *)

Lemma write_all_NoDup points :
  forall d, NoDup (map fst d) -> NoDup (map fst (write_all d points)).
Proof.
  induction points as [|p points IH]; intros d H; simpl; [exact H |].
  apply IH. now apply setitem_NoDup.
Qed.

Lemma write_all_keys points :
  forall d k,
    k ∈ map fst (write_all d points)
    <-> k ∈ map fst d \/ exists p, p ∈ points /\ geometric_key p = k.
Proof.
  induction points as [|p points IH]; intros d k; simpl.
  - split; [now left |]. intros [H | (p & Hp & _)]; [exact H | inversion Hp].
  - rewrite IH, setitem_keys. destruct (decide (geometric_key p ∈ map fst d)) as [Hin | Hin].
    + split.
      * intros [H | (q & Hq & Hk)]; [now left |].
        right. exists q. split; [now apply list_elem_of_further | exact Hk].
      * intros [H | (q & Hq & Hk)]; [now left |].
        apply elem_of_cons in Hq as [-> | Hq]; [left; now subst | right; now exists q].
    + split.
      * intros [H | (q & Hq & Hk)].
        -- apply elem_of_app in H as [H | H]; [now left |].
           apply list_elem_of_singleton in H. right. exists p.
           split; [apply list_elem_of_here | now symmetry].
        -- right. exists q. split; [now apply list_elem_of_further | exact Hk].
      * intros [H | (q & Hq & Hk)].
        -- left. apply elem_of_app. now left.
        -- apply elem_of_cons in Hq as [-> | Hq]; [| right; now exists q].
           left. apply elem_of_app. right. subst. apply list_elem_of_here.
Qed.

Lemma write_all_last points :
  forall d k xyz,
    NoDup (map fst d) ->
    (k, xyz) ∈ write_all d points ->
    ((k, xyz) ∈ d /\ forall q, q ∈ points -> geometric_key q <> k) \/
    (geometric_key xyz = k /\ last_with_its_key geometric_key points xyz).
Proof.
  induction points as [|p points IH]; intros d k xyz Hnd Hin; simpl in Hin.
  - left. split; [exact Hin |]. intros q Hq. inversion Hq.
  - destruct (IH _ _ _ (setitem_NoDup d _ p Hnd) Hin) as [[Hd Hrest] | [Hk Hlast]].
    + destruct (setitem_elem_of d _ p k xyz Hnd Hd) as [[-> ->] | [Hd' Hne]].
      * right. split; [reflexivity |]. exists [], points. split; [reflexivity | exact Hrest].
      * left. split; [exact Hd' |]. intros q Hq.
        apply elem_of_cons in Hq as [-> | Hq]; [now apply not_eq_sym | now apply Hrest].
    + right. split; [exact Hk |]. destruct Hlast as (before & after & -> & Hafter).
      exists (p :: before), after. split; [reflexivity | exact Hafter].
Qed.

(** ** Looking the keys up *)

Lemma getindex_imap (g : nat -> nat) d k :
  k ∈ map fst d ->
  exists i, getindex (imap (fun index entry => (entry.1, g index)) d) k = inr (g i) /\
            map fst d !! i = Some k.
Proof.
  revert g. induction d as [|[k0 v0] d IH]; intros g Hin; [inversion Hin |].
  simpl. destruct (String.eqb_spec k0 k) as [-> | Hne].
  - now exists 0%nat.
  - apply elem_of_cons in Hin as [-> | Hin]; [contradiction |].
    destruct (IH (fun i => g (S i)) Hin) as (i & Hget & Hi).
    exists (S i). split; [exact Hget | exact Hi].
Qed.

Lemma face_indices d (keys : list string) :
  Forall (fun k => k ∈ map fst d) keys ->
  exists idx, for_each (getindex (gkey_index d)) keys = inr idx /\
              Forall2 (fun k i => map fst d !! i = Some k) keys idx.
Proof.
  induction keys as [|k keys IH]; intros H.
  - exists []. split; [reflexivity | constructor].
  - apply Forall_cons in H as [Hk H]. destruct (IH H) as (idx & Hidx & Hall).
    destruct (getindex_imap (fun i => i) d k Hk) as (i & Hget & Hi).
    exists (i :: idx). split; [| now constructor].
    simpl. unfold gkey_index. rewrite Hget. simpl.
    unfold gkey_index in Hidx. now rewrite Hidx.
Qed.

Lemma faces_indices d faces :
  Forall (Forall (fun k => k ∈ map fst d)) faces ->
  exists idxs, for_each (for_each (getindex (gkey_index d))) faces = inr idxs /\
               Forall2 (Forall2 (fun k i => map fst d !! i = Some k)) faces idxs.
Proof.
  induction faces as [|keys faces IH]; intros H.
  - exists []. split; [reflexivity | constructor].
  - apply Forall_cons in H as [Hk H]. destruct (IH H) as (idxs & Hidxs & Hall).
    destruct (face_indices d keys Hk) as (idx & Hidx & Hface).
    exists (idx :: idxs). split; [| now constructor].
    simpl. rewrite Hidx. simpl. now rewrite Hidxs.
Qed.

Lemma face_points_corner (brepfaces : list B) (face : B) (p : P) :
  face ∈ brepfaces -> p ∈ face_points face -> p ∈ corner_points brepfaces.
Proof.
  intros Hface Hp. unfold RhinoSurface.corner_points.
  apply list_elem_of_In, in_concat. exists (face_points face). split.
  - apply in_map. now apply list_elem_of_In.
  - now apply list_elem_of_In.
Qed.

Lemma loop_faces_segments (brepfaces : list B) :
  forall d faces r,
    loop_faces d faces brepfaces = inr r ->
    Forall (fun face => segments face <> []) brepfaces.
Proof.
  induction brepfaces as [|face rest IH]; intros d faces r H; [constructor |].
  simpl in H. rewrite loop_face_spec in H.
  destruct (segments face) as [|first more] eqn:Hseg; [discriminate |].
  simpl in H. constructor; [now rewrite Hseg | exact (IH _ _ _ H)].
Qed.

Lemma loop_faces_empty_loop (brepfaces : list B) :
  forall d faces,
    Exists (fun face => segments face = []) brepfaces ->
    loop_faces d faces brepfaces = inl NoSegmentIndexError.
Proof.
  induction brepfaces as [|face rest IH]; intros d faces H; [inversion H |].
  simpl. rewrite loop_face_spec.
  destruct (segments face) as [|first more] eqn:Hseg; [reflexivity |].
  simpl. apply IH. apply Exists_cons in H as [H | H]; [congruence | exact H].
Qed.

Lemma mesh_data_spec (brepfaces : list B) :
  Forall (fun face => segments face <> []) brepfaces ->
  let d := write_all [] (corner_points brepfaces) in
  NoDup (map fst d) /\
  exists idxs,
    mesh_data brepfaces = inr (map (fun entry => xyz_list entry.2) d, map unique idxs) /\
    Forall2 (Forall2 (fun k i => map fst d !! i = Some k)) (map face_keys brepfaces) idxs.
Proof.
  intros Hseg d. split; [apply write_all_NoDup; apply NoDup_nil_2 |].
  assert (Hkeys : Forall (Forall (fun k => k ∈ map fst d)) (map face_keys brepfaces)).
  { apply Forall_forall. intros keys Hin.
    apply list_elem_of_fmap in Hin as (face & -> & Hface).
    apply Forall_forall. intros k Hk.
    apply list_elem_of_fmap in Hk as (p & -> & Hp).
    apply write_all_keys. right. exists p. split; [| reflexivity].
    now apply (face_points_corner brepfaces face). }
  destruct (faces_indices d _ Hkeys) as (idxs & Hidxs & Hall).
  exists idxs. split; [| exact Hall].
  unfold RhinoSurface.mesh_data. rewrite (loop_faces_spec brepfaces [] [] Hseg). simpl.
  unfold vertices_and_polygons. fold d. now rewrite Hidxs.
Qed.

Lemma mesh_data_inv (brepfaces : list B) (vertices : list C) (polygons : list (list nat)) :
  mesh_data brepfaces = inr (vertices, polygons) ->
  let d := write_all [] (corner_points brepfaces) in
  NoDup (map fst d) /\
  vertices = map (fun entry => xyz_list entry.2) d /\
  exists idxs,
    polygons = map unique idxs /\
    Forall2 (Forall2 (fun k i => map fst d !! i = Some k)) (map face_keys brepfaces) idxs.
Proof.
  intros H d.
  assert (Hseg : Forall (fun face => segments face <> []) brepfaces).
  { unfold RhinoSurface.mesh_data in H.
    destruct (loop_faces [] [] brepfaces) as [e | r] eqn:Hloop; [discriminate |].
    exact (loop_faces_segments _ _ _ _ Hloop). }
  destruct (mesh_data_spec brepfaces Hseg) as (Hnd & idxs & Hdata & Hall).
  rewrite Hdata in H. inversion H. subst. split; [exact Hnd |].
  split; [reflexivity |]. now exists idxs.
Qed.

Lemma Forall2_elem_of_r {X Y : Type} (R : X -> Y -> Prop) (l : list X) (l' : list Y) (y : Y) :
  Forall2 R l l' -> y ∈ l' -> exists x, x ∈ l /\ R x y.
Proof.
  induction 1 as [|x y' l l' Hxy Hall IH]; intros Hy; [inversion Hy |].
  apply elem_of_cons in Hy as [-> | Hy].
  - exists x. split; [apply list_elem_of_here | exact Hxy].
  - destruct (IH Hy) as (x' & Hx' & HR). exists x'. split;
      [now apply list_elem_of_further | exact HR].
Qed.

Lemma Forall2_elem_of_l {X Y : Type} (R : X -> Y -> Prop) (l : list X) (l' : list Y) (x : X) :
  Forall2 R l l' -> x ∈ l -> exists y, y ∈ l' /\ R x y.
Proof.
  induction 1 as [|x' y l l' Hxy Hall IH]; intros Hx; [inversion Hx |].
  apply elem_of_cons in Hx as [-> | Hx].
  - exists y. split; [apply list_elem_of_here | exact Hxy].
  - destruct (IH Hx) as (y' & Hy' & HR). exists y'. split;
      [now apply list_elem_of_further | exact HR].
Qed.

Lemma Forall2_NoDup_r {X Y : Type} (R : X -> Y -> Prop) (l : list X) (l' : list Y) :
  (forall x x' y, R x y -> R x' y -> x = x') ->
  Forall2 R l l' -> NoDup l -> NoDup l'.
Proof.
  intros Hfun. induction 1 as [|x y l l' Hxy Hall IH]; intros Hnd; [apply NoDup_nil_2 |].
  apply NoDup_cons in Hnd as [Hx Hnd]. apply NoDup_cons. split; [| now apply IH].
  intros Hy. destruct (Forall2_elem_of_r R l l' y Hall Hy) as (x' & Hx' & HR).
  now rewrite (Hfun x x' y Hxy HR) in Hx.
Qed.

Lemma length_inner_segments {X : Type} (segs : list X) :
  length (inner_segments segs) = (length segs - 2)%nat.
Proof.
  unfold inner_segments. destruct segs as [|first rest]; [reflexivity |]. simpl.
  induction rest as [|x rest IH]; [reflexivity |].
  destruct rest as [|y rest]; [reflexivity |].
  change (removelast (x :: y :: rest)) with (x :: removelast (y :: rest)).
  simpl length in *. rewrite IH. lia.
Qed.

(** What a position of the vertex map holds: the last corner point written
    under the key at that position. *)
Lemma position_holds_last_point (points : list P) (v : nat) (k : string) :
  map fst (write_all [] points) !! v = Some k ->
  exists q, geometric_key q = k /\
            last_with_its_key geometric_key points q /\
            map (fun entry => xyz_list entry.2) (write_all [] points) !! v
            = Some (xyz_list q).
Proof.
  intros Hv. rewrite list_lookup_fmap in Hv.
  destruct (write_all [] points !! v) as [[k' q] |] eqn:Hd; [| discriminate].
  simpl in Hv. inversion Hv; subst k'. exists q.
  destruct (write_all_last points [] k q NoDup_nil_2 (list_elem_of_lookup_2 _ _ _ Hd))
    as [[Hin _] | [Hk Hlast]]; [inversion Hin |].
  repeat split; [exact Hk | exact Hlast |].
  now rewrite list_lookup_fmap, Hd.
Qed.

(** ** The conversion *)


(** The polygons handed to [from_vertices_and_faces] are one per face,
    in the order of the faces; no polygon repeats a vertex, and every entry
    of a polygon is an index into the vertex list. *)
Theorem polygons_are_valid (brepfaces : list B) (vertices : list C)
    (polygons : list (list nat)) :
  mesh_data brepfaces = inr (vertices, polygons) ->
  length polygons = length brepfaces /\
  Forall (fun polygon => NoDup polygon /\
                         Forall (fun v => (v < length vertices)%nat) polygon) polygons.
Proof.
  intros H. destruct (mesh_data_inv _ _ _ H) as (Hnd & -> & idxs & -> & Hall). split.
  - rewrite length_map, <- (Forall2_length _ _ _ Hall). now rewrite length_map.
  - apply Forall_forall. intros polygon Hin.
    apply list_elem_of_fmap in Hin as (idx & -> & Hidx). split; [apply unique_NoDup |].
    apply Forall_forall. intros v Hv. apply (proj1 (unique_elem_of _ _)) in Hv.
    destruct (Forall2_elem_of_r _ _ _ idx Hall Hidx) as (keys & _ & Hface).
    destruct (Forall2_elem_of_r _ _ _ v Hface Hv) as (k & _ & Hk).
    apply lookup_lt_Some in Hk. now rewrite length_map in *.
Qed.

(** The vertices are welded by geometric key: there is one vertex for
    each distinct geometric key among the corner points of the faces, and it
    is the last corner point that was written under that key. *)
Theorem vertices_are_welded_by_key (brepfaces : list B) (vertices : list C)
    (polygons : list (list nat)) :
  mesh_data brepfaces = inr (vertices, polygons) ->
  exists keys,
    NoDup keys /\
    (forall k, k ∈ keys <-> exists p, p ∈ corner_points brepfaces /\ geometric_key p = k) /\
    Forall2 (fun k vertex =>
               exists q, geometric_key q = k /\ vertex = xyz_list q /\
                         last_with_its_key geometric_key (corner_points brepfaces) q)
            keys vertices.
Proof.
  intros H. destruct (mesh_data_inv _ _ _ H) as (Hnd & -> & _).
  exists (map fst (write_all [] (corner_points brepfaces))). split; [exact Hnd |]. split.
  - intros k. rewrite write_all_keys. split; [| now right].
    intros [Hk | Hk]; [inversion Hk | exact Hk].
  - apply Forall2_fmap, Forall_Forall2_diag, Forall_forall. intros [k q] Hin. simpl.
    destruct (write_all_last _ [] k q NoDup_nil_2 Hin) as [[Hin' _] | [Hk Hlast]];
      [inversion Hin' |].
    now exists q.
Qed.

(** Polygon [j] is built from face [j]: each of its entries is the
    position of the welded vertex of a corner point of that face, and every
    corner point of the face has the position of its welded vertex in the
    polygon. *)
Theorem polygon_lists_the_corners_of_its_face (brepfaces : list B) (vertices : list C)
    (polygons : list (list nat)) (j : nat) (face : B) :
  mesh_data brepfaces = inr (vertices, polygons) ->
  brepfaces !! j = Some face ->
  exists polygon,
    polygons !! j = Some polygon /\
    (forall v, v ∈ polygon ->
       exists p q, p ∈ face_points face /\ geometric_key q = geometric_key p /\
                   last_with_its_key geometric_key (corner_points brepfaces) q /\
                   vertices !! v = Some (xyz_list q)) /\
    (forall p, p ∈ face_points face ->
       exists v q, v ∈ polygon /\ geometric_key q = geometric_key p /\
                   last_with_its_key geometric_key (corner_points brepfaces) q /\
                   vertices !! v = Some (xyz_list q)).
Proof.
  intros H Hface. destruct (mesh_data_inv _ _ _ H) as (Hnd & -> & idxs & -> & Hall).
  assert (Hkeys : map face_keys brepfaces !! j = Some (face_keys face))
    by now rewrite list_lookup_fmap, Hface.
  destruct (Forall2_lookup_l _ _ _ _ _ Hall Hkeys) as (idx & Hidx & Hrel).
  exists (unique idx). split; [now rewrite list_lookup_fmap, Hidx |]. split.
  - intros v Hv. apply (proj1 (unique_elem_of _ _)) in Hv.
    destruct (Forall2_elem_of_r _ _ _ v Hrel Hv) as (k & Hk & Hpos).
    apply list_elem_of_fmap in Hk as (p & -> & Hp).
    destruct (position_holds_last_point _ _ _ Hpos) as (q & Hq & Hlast & Hvertex).
    now exists p, q.
  - intros p Hp.
    assert (Hk : geometric_key p ∈ face_keys face)
      by (apply list_elem_of_fmap; now exists p).
    destruct (Forall2_elem_of_l _ _ _ _ Hrel Hk) as (v & Hv & Hpos).
    destruct (position_holds_last_point _ _ _ Hpos) as (q & Hq & Hlast & Hvertex).
    exists v, q. split; [now apply (proj2 (unique_elem_of _ _)) |]. now repeat split.
Qed.

(** A face whose corner points have pairwise different geometric keys
    gives a polygon with as many vertices as its loop has segments, and two
    vertices when the loop is a single segment: the end of the last segment
    is never read. *)
Theorem clean_loop_keeps_its_corners (brepfaces : list B) (vertices : list C)
    (polygons : list (list nat)) (j : nat) (face : B) :
  mesh_data brepfaces = inr (vertices, polygons) ->
  brepfaces !! j = Some face ->
  NoDup (face_keys face) ->
  exists polygon,
    polygons !! j = Some polygon /\
    length polygon = Nat.max 2 (length (segments face)).
Proof.
  intros H Hface Hclean.
  destruct (mesh_data_inv _ _ _ H) as (Hnd & -> & idxs & -> & Hall).
  assert (Hkeys : map face_keys brepfaces !! j = Some (face_keys face))
    by now rewrite list_lookup_fmap, Hface.
  destruct (Forall2_lookup_l _ _ _ _ _ Hall Hkeys) as (idx & Hidx & Hrel).
  exists (unique idx). split; [now rewrite list_lookup_fmap, Hidx |].
  rewrite unique_id.
  - rewrite <- (Forall2_length _ _ _ Hrel), length_map.
    assert (Hseg : segments face <> []).
    { unfold RhinoSurface.mesh_data in H.
      destruct (loop_faces [] [] brepfaces) as [e | r] eqn:Hloop; [discriminate |].
      pose proof (loop_faces_segments _ _ _ _ Hloop) as Hsegs.
      rewrite Forall_forall in Hsegs. apply Hsegs.
      exact (list_elem_of_lookup_2 _ _ _ Hface). }
    unfold RhinoSurface.face_points.
    destruct (segments face) as [|first rest] eqn:Heq; [contradiction |].
    simpl length. rewrite length_map, length_inner_segments. simpl length. lia.
  - refine (Forall2_NoDup_r _ _ _ _ Hrel Hclean). intros k k' i Hk Hk'. congruence.
Qed.
End ToMeshFacts.

(** ** The quadrilateral grid *)

Section ToQuadMeshFacts.
Context {R Pt B M : Type} `{FloatOps R}.
Variable domain_u : B -> R * R.
Variable domain_v : B -> R * R.
Variable point_at : B -> R -> R -> Pt.
Variable from_polygons : list (list Pt) -> M.
Variable meshes_join : list M -> M.

Local Abbreviation face_quads := (face_quads domain_u domain_v point_at).
Local Abbreviation grid_point := (grid_point domain_u domain_v point_at).

Lemma nv_or_nu_nonzero (nv : option Z) (nu : Z) : nu <> 0 -> nv_or_nu nv nu <> 0.
Proof.
  intros Hnu. unfold nv_or_nu. destruct nv as [n |]; [| exact Hnu].
  destruct (Z.eqb_spec n 0) as [_ | Hn]; assumption.
Qed.

Lemma for_each_total {X Y : Type} (f : X -> fallible Y) (l : list X) :
  (forall x, x ∈ l -> exists y, f x = inr y) -> exists ys, for_each f l = inr ys.
Proof.
  induction l as [|x l IH]; intros Hf; [now exists [] |].
  destruct (Hf x (list_elem_of_here _ _)) as (y & Hy).
  destruct IH as (ys & Hys); [intros x' Hx'; apply Hf; now apply list_elem_of_further |].
  exists (y :: ys). simpl. rewrite Hy. simpl. now rewrite Hys.
Qed.

Lemma length_range (n : Z) : length (range n) = Z.to_nat n.
Proof. unfold range. now rewrite length_map, length_seq. Qed.

Lemma lookup_range (n i : Z) : 0 <= i < n -> range n !! Z.to_nat i = Some i.
Proof.
  intros Hi. unfold range. rewrite list_lookup_fmap, lookup_seq_lt by lia.
  simpl. f_equal. lia.
Qed.

Lemma lookup_flat_map_rows {X Y : Type} (f : X -> list Y) (rows : list X) (width : nat) :
  (forall x, x ∈ rows -> length (f x) = width) ->
  forall (i j : nat) (x : X),
    rows !! i = Some x -> (j < width)%nat ->
    flat_map f rows !! (i * width + j)%nat = f x !! j.
Proof.
  induction rows as [|x0 rows IH]; intros Hwidth i j x Hi Hj; [discriminate |].
  simpl. destruct i as [|i]; simpl in Hi.
  - inversion Hi; subst x0. simpl. apply lookup_app_l.
    rewrite (Hwidth x (list_elem_of_here _ _)). exact Hj.
  - rewrite lookup_app_r by (rewrite (Hwidth x0 (list_elem_of_here _ _)); simpl; lia).
    rewrite (Hwidth x0 (list_elem_of_here _ _)).
    replace (S i * width + j - width)%nat with (i * width + j)%nat by (simpl; lia).
    apply IH; [| exact Hi | exact Hj].
    intros x' Hx'. apply Hwidth. now apply list_elem_of_further.
Qed.

Lemma length_flat_map_rows {X Y : Type} (f : X -> list Y) (rows : list X) (width : nat) :
  (forall x, x ∈ rows -> length (f x) = width) ->
  length (flat_map f rows) = (length rows * width)%nat.
Proof.
  induction rows as [|x0 rows IH]; intros Hwidth; [reflexivity |].
  simpl. rewrite length_app, (Hwidth x0 (list_elem_of_here _ _)), IH; [reflexivity |].
  intros x' Hx'. apply Hwidth. now apply list_elem_of_further.
Qed.


(** The quadrilaterals of a face are laid out row by row: there are
    [max(nu, 0) * max(nv, 0)] of them, and the one at position [i * nv + j]
    has the grid points [(i, j)], [(i+1, j)], [(i+1, j+1)], [(i, j+1)] as
    its corners, so that neighbours share the very same corner points. *)
Theorem quads_are_row_major (face : B) (nu nv : Z) (quads : list (list Pt)) :
  face_quads face nu nv = inr quads ->
  length quads = (Z.to_nat nu * Z.to_nat nv)%nat /\
  forall i j, 0 <= i < nu -> 0 <= j < nv ->
    quads !! Z.to_nat (i * nv + j)
    = Some [grid_point face nu nv i j; grid_point face nu nv (i + 1) j;
            grid_point face nu nv (i + 1) (j + 1); grid_point face nu nv i (j + 1)].
Proof.
  unfold RhinoSurface.face_quads, divide.
  destruct (Z.eqb_spec nu 0) as [? | Hnu]; [discriminate |].
  destruct (Z.eqb_spec nv 0) as [? | Hnv]; [discriminate |].
  simpl. intros Heq. inversion Heq as [Hquads]. clear Heq Hquads. split.
  - rewrite (length_flat_map_rows _ _ (Z.to_nat nv)), length_range; [reflexivity |].
    intros i _. now rewrite length_map, length_range.
  - intros i j Hi Hj.
    replace (Z.to_nat (i * nv + j)) with (Z.to_nat i * Z.to_nat nv + Z.to_nat j)%nat by nia.
    rewrite lookup_flat_map_rows with (width := Z.to_nat nv) (x := i);
      [| intros x _; now rewrite length_map, length_range
       | now apply lookup_range | lia].
    rewrite list_lookup_fmap, (lookup_range nv j Hj). simpl.
    unfold RhinoSurface.grid_point. now rewrite !Z.add_0_r.
Qed.
End ToQuadMeshFacts.
End RhinoSurfaceFacts.

(** * The further statements at concrete inputs *)

Import MoreSamples.

(** Two iterations over the twisted quadrilateral with an observing
    callback. *)
Lemma planarize_keeps_topology_witness :
  face (mesh_planarize twisted None 2 0%Q observer tt).1.1 = face twisted /\
  vertices (mesh_planarize twisted None 2 0%Q observer tt).1.1 = vertices twisted.
Proof.
  apply planarize_keeps_topology.
  intros truth f Hf mesh k args. inversion Hf. split; reflexivity.
Defined.

(** The triangle that names the missing vertex 2. *)
Lemma dangling_face_raises_witness :
  exists e,
    mesh_planarize dangling_triangle None 3 0%Q observer tt = (dangling_triangle, [], inl e).
Proof.
  apply dangling_face_raises; [| lia | reflexivity].
  exists 0, [0; 1; 2], 2. repeat split.
  - apply (bool_decide_unpack _). vm_compute. exact I.
  - apply (bool_decide_unpack _). vm_compute. exact I.
  - apply (bool_decide_unpack _). vm_compute. exact I.
Defined.

(** One iteration and then two, against three at once. *)
Lemma planarize_iterations_add_up_witness :
  mesh_planarize twisted None (1 + 2) 0%Q (PyNone : PyObject Q unit) tt
  = match mesh_planarize twisted None 1 0%Q (PyNone : PyObject Q unit) tt with
    | (mesh1, _, inr _) => mesh_planarize mesh1 None 2 0%Q (PyNone : PyObject Q unit) tt
    | failed => failed
    end.
Proof. apply planarize_iterations_add_up; [reflexivity | lia | lia]. Defined.

(** The fixed lists [0, 2] and [2, 0, 0, 7] on the twisted quadrilateral. *)
Lemma fixed_matters_on_vertices_only_witness :
  mesh_planarize twisted (Some [0; 2]) 2 0%Q observer tt
  = mesh_planarize twisted (Some [2; 0; 0; 7]) 2 0%Q observer tt.
Proof.
  apply fixed_matters_on_vertices_only.
  - intros truth f Hf mesh k args. inversion Hf. split; reflexivity.
  - intros key Hkey. unfold vertices, twisted in Hkey. simpl in Hkey. simpl.
    rewrite !elem_of_cons in Hkey. rewrite !elem_of_cons.
    rewrite elem_of_nil in Hkey. rewrite !elem_of_nil.
    split; intros Hfix; lia.
Defined.

(** Vertex 1 of the hinge is a corner of both faces. *)
Lemma one_contribution_per_corner_witness :
  exists key_xyz b,
    project_faces hinge (faces hinge) (empty_buckets hinge) = inr key_xyz /\
    key_xyz !! 1 = Some b /\ length b = corner_count hinge (faces hinge) 1.
Proof.
  destruct (project_faces hinge (faces hinge) (empty_buckets hinge)) as [e | key_xyz] eqn:Hrun;
    [vm_compute in Hrun; discriminate |].
  exists key_xyz.
  destruct (one_contribution_per_corner hinge key_xyz 1 Hrun) as (b & Hb & Hlen).
  - apply (bool_decide_unpack _). vm_compute. exact I.
  - now exists b.
Defined.

(** Over the real kernel the flatness of the right triangle is computed. *)
Lemma triangle_flatness_returns :
  exists dev, mesh_flatness (G := Ideal.geometry Ideal.bestfit) Ideal.triangle = inr dev.
Proof.
  destruct (IdealFacts.flatness_loop_flat Ideal.bestfit Ideal.triangle (faces Ideal.triangle))
    with (dev0 := (∅ : gmap Z R)) as (dev & Hrun & _).
  - intros fkey Hfkey. exists [(0, 0, 0); (1, 0, 0); (0, 1, 0)]%R. split.
    { apply elem_of_cons in Hfkey as [-> | Hfkey]; [reflexivity | inversion Hfkey]. }
    apply IdealFacts.face_deviation_flat; [simpl; lia | |].
    + exists ((1 / 3, 1 / 3, 0), (0, 0, 1))%R. split; [exact IdealFacts.bestfit_triangle |].
      split.
      * simpl. intros H. inversion H. lra.
      * intros p Hp. unfold Ideal.on_plane, Ideal.rdot, Ideal.rsub.
        repeat (apply elem_of_cons in Hp as [-> | Hp]; [simpl; lra |]). inversion Hp.
    + intros t. apply IdealFacts.triangle_corners.
      unfold Ideal.collinear, Ideal.rcross, Ideal.rsub. simpl. intros Hc. inversion Hc. lra.
  - now exists dev.
Qed.

(** The right triangle: one face, one entry. *)
Lemma flatness_has_one_entry_per_face_witness :
  exists dev,
    mesh_flatness (G := Ideal.geometry Ideal.bestfit) Ideal.triangle = inr dev /\
    forall fkey, is_Some (dev !! fkey) <-> fkey ∈ faces Ideal.triangle.
Proof.
  destruct triangle_flatness_returns as [dev Hrun]. exists dev. split; [exact Hrun |].
  apply (flatness_has_one_entry_per_face (G := Ideal.geometry _) _ _ Hrun).
Defined.

(** The triangle that names the missing vertex 2, over the reals. *)
Lemma flatness_dangling_face_raises_witness :
  exists e, mesh_flatness (G := Ideal.geometry Ideal.bestfit) dangling_triangle_R = inl e.
Proof.
  apply (flatness_dangling_face_raises (G := Ideal.geometry _)).
  exists 0, [0; 1; 2], 2. repeat split.
  - apply list_elem_of_here.
  - apply list_elem_of_further, list_elem_of_further, list_elem_of_here.
  - unfold vertices, dangling_triangle_R. simpl. intros Hin.
    repeat (apply elem_of_cons in Hin as [Hin | Hin]; [discriminate |]). inversion Hin.
Defined.

(** The right triangle with the normal of its plane pointing down and up. *)
Lemma deviation_ignores_normal_orientation_witness :
  face_deviation (G := Ideal.geometry Ideal.flipped) [(0, 0, 0); (1, 0, 0); (0, 1, 0)]%R
  = face_deviation (G := Ideal.geometry Ideal.bestfit) [(0, 0, 0); (1, 0, 0); (0, 1, 0)]%R.
Proof.
  apply (MoreIdealFacts.deviation_ignores_normal_orientation
           Ideal.bestfit Ideal.flipped _ (1 / 3, 1 / 3, 0)%R (0, 0, 1)%R).
  - exact IdealFacts.bestfit_triangle.
  - unfold Ideal.flipped. now rewrite IdealFacts.bestfit_triangle.
Defined.


(** The two triangles: four vertices, two polygons. *)
Lemma polygons_are_valid_witness :
  length [[0; 1; 2]; [1; 3; 2]]%nat = length two_triangles /\
  Forall (fun polygon =>
            NoDup polygon /\
            Forall (fun v => (v < length [("0,0"%string, 0); ("1,0"%string, 1);
                                          ("0,1"%string, 0); ("1,1"%string, 0)]%nat)%nat)
                   polygon)
         [[0; 1; 2]; [1; 3; 2]]%nat.
Proof.
  apply (RhinoSurfaceFacts.polygons_are_valid corner_key loop_segments (fun p : corner => p)
           two_triangles).
  vm_compute. reflexivity.
Defined.

(** The two triangles: the corner at [1,0] is the copy of the second
    triangle. *)
Lemma vertices_are_welded_by_key_witness :
  exists keys,
    NoDup keys /\
    (forall k, k ∈ keys <->
       exists p, p ∈ RhinoSurface.corner_points loop_segments two_triangles /\
                 corner_key p = k) /\
    Forall2 (fun k vertex =>
               exists q, corner_key q = k /\ vertex = q /\
                         RhinoSurface.last_with_its_key corner_key
                           (RhinoSurface.corner_points loop_segments two_triangles) q)
            keys
            [("0,0"%string, 0); ("1,0"%string, 1); ("0,1"%string, 0); ("1,1"%string, 0)]%nat.
Proof.
  apply (RhinoSurfaceFacts.vertices_are_welded_by_key corner_key loop_segments
           (fun p : corner => p) two_triangles _ [[0; 1; 2]; [1; 3; 2]]%nat).
  vm_compute. reflexivity.
Defined.

(** The second of the two triangles. *)
Lemma polygon_lists_the_corners_of_its_face_witness :
  exists polygon,
    [[0; 1; 2]; [1; 3; 2]]%nat !! 1%nat = Some polygon /\
    forall v, v ∈ polygon ->
      exists p q,
        p ∈ RhinoSurface.face_points loop_segments
              [(("1,0"%string, 1), ("1,1"%string, 0)); (("1,1"%string, 0), ("0,1"%string, 0));
               (("0,1"%string, 0), ("1,0"%string, 1))]%nat /\
        corner_key q = corner_key p /\
        RhinoSurface.last_with_its_key corner_key
          (RhinoSurface.corner_points loop_segments two_triangles) q /\
        [("0,0"%string, 0); ("1,0"%string, 1); ("0,1"%string, 0); ("1,1"%string, 0)]%nat !! v
        = Some q.
Proof.
  destruct (RhinoSurfaceFacts.polygon_lists_the_corners_of_its_face corner_key loop_segments
              (fun p : corner => p) two_triangles
              [("0,0"%string, 0); ("1,0"%string, 1); ("0,1"%string, 0); ("1,1"%string, 0)]%nat
              [[0; 1; 2]; [1; 3; 2]]%nat 1%nat
              [(("1,0"%string, 1), ("1,1"%string, 0)); (("1,1"%string, 0), ("0,1"%string, 0));
               (("0,1"%string, 0), ("1,0"%string, 1))]%nat)
    as (polygon & Hpolygon & Hcorners & _).
  - vm_compute. reflexivity.
  - reflexivity.
  - exists polygon. split; [exact Hpolygon | exact Hcorners].
Defined.

(** The first of the two triangles: three segments, three vertices. *)
Lemma clean_loop_keeps_its_corners_witness :
  exists polygon,
    [[0; 1; 2]; [1; 3; 2]]%nat !! 0%nat = Some polygon /\
    length polygon = 3%nat.
Proof.
  apply (RhinoSurfaceFacts.clean_loop_keeps_its_corners corner_key loop_segments
           (fun p : corner => p) two_triangles
           [("0,0"%string, 0); ("1,0"%string, 1); ("0,1"%string, 0); ("1,1"%string, 0)]%nat
           [[0; 1; 2]; [1; 3; 2]]%nat 0%nat
           [(("0,0"%string, 0), ("1,0"%string, 0)); (("1,0"%string, 0), ("0,1"%string, 0));
            (("0,1"%string, 0), ("0,0"%string, 0))]%nat).
  - vm_compute. reflexivity.
  - reflexivity.
  - apply (bool_decide_unpack _). vm_compute. exact I.
Defined.


(** Two by three quadrilaterals on the patch. *)
Lemma quads_are_row_major_witness :
  exists quads,
    RhinoSurface.face_quads patch_domain_u patch_domain_v patch_point_at tt 2 3 = inr quads /\
    length quads = 6%nat /\
    forall i j, 0 <= i < 2 -> 0 <= j < 3 ->
      quads !! Z.to_nat (i * 3 + j)
      = Some [RhinoSurface.grid_point patch_domain_u patch_domain_v patch_point_at tt 2 3 i j;
              RhinoSurface.grid_point patch_domain_u patch_domain_v patch_point_at tt 2 3
                (i + 1) j;
              RhinoSurface.grid_point patch_domain_u patch_domain_v patch_point_at tt 2 3
                (i + 1) (j + 1);
              RhinoSurface.grid_point patch_domain_u patch_domain_v patch_point_at tt 2 3
                i (j + 1)].
Proof.
  destruct (RhinoSurface.face_quads patch_domain_u patch_domain_v patch_point_at tt 2 3)
    as [e | quads] eqn:Hrun; [vm_compute in Hrun; discriminate |].
  exists quads. split; [reflexivity |].
  exact (RhinoSurfaceFacts.quads_are_row_major patch_domain_u patch_domain_v patch_point_at
           tt 2 3 quads Hrun).
Defined.


(** The cosine at the corners of that triangle is the float below 1, and
    the triangle is the face of [Binary64.slanted]. *)
Example slanted_cosine :
  let a := (Binary64.of_Z 1, Binary64.of_Z 5, Binary64.of_Z (-1)) in
  let b := (Binary64.of_Z 1, Binary64.of_Z 3, Binary64.of_Z 1) in
  let c := (Binary64.of_Z 4, Binary64.of_Z 0, Binary64.of_Z 3) in
  face_coordinates Binary64.slanted 0 = inr [a; b; c] /\
  exists base normal,
    Binary64.bestfit [a; b; c] = inr (base, normal) /\
    let n := Binary64.fcross (Binary64.fsub a b) (Binary64.fsub c b) in
    PrimFloat.ltb (Binary64.fdot n normal) (Binary64.of_Z 0) = true /\
    PrimFloat.ltb (Binary64.cosine n (Binary64.fscale normal (Binary64.of_Z (-1))))
                  (Binary64.of_Z 1) = true.
Proof.
  intros a b c. split; [vm_compute; reflexivity |].
  destruct (Binary64.bestfit [a; b; c]) as [e | [base normal]] eqn:Hfit;
    [vm_compute in Hfit; discriminate |].
  exists base, normal. split; [reflexivity |].
  vm_compute in Hfit. inversion Hfit; subst. split; vm_compute; reflexivity.
Qed.

